(** * A shallow embedding of the elvish parser (parse/parse.go)

    The recursive-descent parser of [parse.go] is rendered as functions in a
    state-and-abort monad over the [Parser] record.  Go's [panic] raised by
    [errorf] is the [Panicked] outcome; a Go run-time panic (slice bounds, nil
    dereference) is [Crashed]; loops and recursion are driven by a fuel
    argument, and [OutOfFuel] is the outcome of running out of it. *)

From Stdlib Require Import String Ascii List ZArith Lia Bool Arith.
Import ListNotations.

Open Scope string_scope.
Open Scope Z_scope.

(** ** Go strings: byte sequences *)

Module GoString.

(** [len(s)] *)
Definition len (s : string) : Z := Z.of_nat (String.length s).

(** [strings.IndexRune(s, c)] for a rune [c] below [utf8.RuneSelf]: the
    index of the first byte equal to [c], or [-1]. *)
Fixpoint IndexRune (s : string) (c : ascii) : Z :=
  match s with
  | EmptyString => -1
  | String a s' =>
      if Ascii.eqb a c then 0
      else let i := IndexRune s' c in if i =? -1 then -1 else i + 1
  end.

(** [s[lo:hi]]; [None] is the run-time panic "slice bounds out of range". *)
Definition slice (s : string) (lo hi : Z) : option string :=
  if (0 <=? lo) && (lo <=? hi) && (hi <=? len s)
  then Some (String.substring (Z.to_nat lo) (Z.to_nat (hi - lo)) s)
  else None.

(** [strings.Replace(s, old, new, -1)] for a non-empty [old]: every
    non-overlapping occurrence of [old], scanning from the left, becomes
    [new].  [skip] counts the bytes of a matched [old] still to be
    dropped. *)
Fixpoint replaceFrom (old new : string) (skip : nat) (s : string) : string :=
  match s with
  | EmptyString => EmptyString
  | String c s' =>
      match skip with
      | S k => replaceFrom old new k s'
      | O =>
          if String.prefix old s
          then new ++ replaceFrom old new (String.length old - 1) s'
          else String c (replaceFrom old new 0 s')
      end
  end.

Definition Replace (s old new : string) : string := replaceFrom old new 0 s.

End GoString.

(** ** Tokens (lexer side) *)

(** Modelled from the spec: the token kinds of the absent lexer (section 3,
    "Token"); [parse.go] names each of them. *)
Inductive ItemType : Set :=
| ItemBare | ItemSingleQuoted | ItemDoubleQuoted
| ItemPipe | ItemCaret | ItemDollar
| ItemLParen | ItemRParen | ItemLBracket | ItemRBracket
| ItemRedirLeader | ItemSpace | ItemEndOfLine | ItemEOF.

Scheme Equality for ItemType.

(** Modelled from the spec: a token has a kind, a byte offset, its raw text
    and the end flags of which [MayContinue] is one bit. *)
Record Item : Set := mkItem {
  Typ : ItemType;
  Pos : Z;
  Val : string;
  End : Z
}.

(** Modelled from the spec: the "continuable" flag bit of [Item.End]; the
    lexer that declares it is absent, the second bit is taken. *)
Definition MayContinue : Z := 2.

(** Modelled from the spec: the lexer as a pull source of tokens that reports
    an end-of-input token on exhaustion (section 6).  [pending] are the
    tokens still to be delivered, [eofPos] the offset of the end of input. *)
Record Lexer : Set := mkLexer {
  pending : list Item;
  eofPos : Z
}.

Definition NextItem (l : Lexer) : Item * Lexer :=
  match pending l with
  | it :: rest => (it, mkLexer rest (eofPos l))
  | [] => (mkItem ItemEOF (eofPos l) "" 0, l)
  end.

(** Modelled from the spec: the unsigned-integer parser [Atou] (section 6):
    a non-empty run of decimal digits whose value fits a 64-bit [uintptr]. *)
Definition digitOf (c : ascii) : option Z :=
  let n := Z.of_nat (nat_of_ascii c) in
  if (48 <=? n) && (n <=? 57) then Some (n - 48) else None.

Fixpoint atouFrom (acc : Z) (s : string) : option Z :=
  match s with
  | EmptyString => Some acc
  | String c s' =>
      match digitOf c with
      | Some d => atouFrom (10 * acc + d) s'
      | None => None
      end
  end.

Definition Atou (s : string) : option Z :=
  match s with
  | EmptyString => None
  | _ => match atouFrom 0 s with
         | Some v => if v <? 2 ^ 64 then Some v else None
         | None => None
         end
  end.

(** ** Syntax trees *)

(** Modelled from the spec: the node variants of section 3, each with its
    byte offset; the declarations (and [newList], [newCommand], [newFactor],
    [newString], [newTable], [append], [appendToList], [appendToDict]) are
    absent from the source. *)
Inductive Node : Set :=
| AList (l : ListNode)
| ACommand (c : CommandNode)
| AFactor (f : FactorNode)
| AString (s : StringNode)
| ATable (t : TableNode)
with ListNode : Set :=
| mkListNode (pos : Z) (nodes : list Node)
with CommandNode : Set :=
| mkCommandNode (pos : Z) (terms : ListNode) (redirs : list Redir)
with FactorNode : Set :=
| mkFactorNode (pos : Z) (dollar : Z) (node : Node)
with StringNode : Set :=
| mkStringNode (pos : Z) (quoted : string) (text : string)
with TableNode : Set :=
| mkTableNode (pos : Z) (elems : list ListNode) (dict : list (ListNode * ListNode))
with Redir : Set :=
| FilenameRedir (fd : Z) (flag : Z) (filename : ListNode)
| FdRedir (fd : Z) (oldfd : Z)
| CloseRedir (fd : Z).

Definition Nodes (l : ListNode) : list Node :=
  match l with mkListNode _ ns => ns end.

Definition newList (pos : Z) : ListNode := mkListNode pos [].

Definition append (l : ListNode) (n : Node) : ListNode :=
  match l with mkListNode pos ns => mkListNode pos (ns ++ [n]) end.

Definition newTable (pos : Z) : TableNode := mkTableNode pos [] [].

Definition appendToList (tn : TableNode) (term : ListNode) : TableNode :=
  match tn with mkTableNode pos l d => mkTableNode pos (l ++ [term]) d end.

Definition appendToDict (tn : TableNode) (key value : ListNode) : TableNode :=
  match tn with mkTableNode pos l d => mkTableNode pos l (d ++ [(key, value)]) end.

Definition newString (pos : Z) (quoted text : string) : StringNode :=
  mkStringNode pos quoted text.

Definition newFilenameRedir (fd flag : Z) (term : ListNode) : Redir :=
  FilenameRedir fd flag term.
Definition NewFdRedir (fd oldfd : Z) : Redir := FdRedir fd oldfd.
Definition newCloseRedir (fd : Z) : Redir := CloseRedir fd.

(** Modelled from the spec: the continuation-context hint; [NewArgContext]
    is absent and is taken to record the text it is given. *)
Inductive Context : Set :=
| ArgContext (prefix : string).

Definition NewArgContext (s : string) : Context := ArgContext s.

(** [os.O_RDONLY] and friends, with their values on Linux. *)
Module os.
Definition O_RDONLY : Z := 0.
Definition O_WRONLY : Z := 1.
Definition O_RDWR : Z := 2.
Definition O_CREATE : Z := 64.
Definition O_APPEND : Z := 1024.
End os.

(** ** Diagnostics *)

(** A Go [error] value and the arguments of a format string.  Messages are
    kept as format and arguments; [fmt] is not modelled. *)
Inductive FmtArg : Set :=
| ArgString (s : string)
| ArgItem (i : Item)
| ArgItemType (t : ItemType)
| ArgError (e : GoError)
with GoError : Set :=
| Errorf (format : string) (args : list FmtArg)
| ErrSyntax.

(** Modelled from the spec: [util.ContextualError] carries the script name,
    the full source text, a byte offset and the message (section 4.5). *)
Record ContextualError : Set := NewContextualError {
  errName : string;
  errText : string;
  errPos : Z;
  errFormat : string;
  errArgs : list FmtArg
}.

(** ** The parser state *)

Record Parser : Set := mkParser {
  Name : string;
  Root : option Node;
  Ctx : option Context;
  text : string;
  tab : bool;
  lex : option Lexer;
  token0 : Item;
  token1 : Item;
  token2 : Item;
  peekCount : nat
}.

(** [p.token[i]]; [None] is the run-time panic "index out of range". *)
Definition tokenAt (p : Parser) (i : nat) : option Item :=
  match i with
  | 0%nat => Some (token0 p)
  | 1%nat => Some (token1 p)
  | 2%nat => Some (token2 p)
  | _ => None
  end.

Definition setRoot (r : option Node) (p : Parser) : Parser :=
  mkParser (Name p) r (Ctx p) (text p) (tab p) (lex p)
           (token0 p) (token1 p) (token2 p) (peekCount p).

Definition setCtx (c : option Context) (p : Parser) : Parser :=
  mkParser (Name p) (Root p) c (text p) (tab p) (lex p)
           (token0 p) (token1 p) (token2 p) (peekCount p).

Definition setLex (l : option Lexer) (p : Parser) : Parser :=
  mkParser (Name p) (Root p) (Ctx p) (text p) (tab p) l
           (token0 p) (token1 p) (token2 p) (peekCount p).

Definition setPeekCount (k : nat) (p : Parser) : Parser :=
  mkParser (Name p) (Root p) (Ctx p) (text p) (tab p) (lex p)
           (token0 p) (token1 p) (token2 p) k.

Definition setToken0 (t : Item) (p : Parser) : Parser :=
  mkParser (Name p) (Root p) (Ctx p) (text p) (tab p) (lex p)
           t (token1 p) (token2 p) (peekCount p).

Definition setToken1 (t : Item) (p : Parser) : Parser :=
  mkParser (Name p) (Root p) (Ctx p) (text p) (tab p) (lex p)
           (token0 p) t (token2 p) (peekCount p).

Definition setToken2 (t : Item) (p : Parser) : Parser :=
  mkParser (Name p) (Root p) (Ctx p) (text p) (tab p) (lex p)
           (token0 p) (token1 p) t (peekCount p).

Definition setText (s : string) (b : bool) (p : Parser) : Parser :=
  mkParser (Name p) (Root p) (Ctx p) s b (lex p)
           (token0 p) (token1 p) (token2 p) (peekCount p).

(** [NewParser]: every field but [Name] has its zero value; [zero] is the
    zero [Item] of the absent lexer. *)
Definition NewParser (zero : Item) (name : string) : Parser :=
  mkParser name None None "" false None zero zero zero 0.

(** ** The monad of parser actions *)

Inductive Outcome (A : Type) : Type :=
| Done (a : A) (p : Parser)
| Panicked (e : ContextualError) (p : Parser)
| Crashed
| OutOfFuel.

Arguments Done {A} a p.
Arguments Panicked {A} e p.
Arguments Crashed {A}.
Arguments OutOfFuel {A}.

Definition M (A : Type) : Type := Parser -> Outcome A.

Definition ret {A} (a : A) : M A := fun p => Done a p.

Definition bind {A B} (m : M A) (k : A -> M B) : M B :=
  fun p =>
    match m p with
    | Done a p' => k a p'
    | Panicked e p' => Panicked e p'
    | Crashed => Crashed
    | OutOfFuel => OutOfFuel
    end.

Notation "x <- m ;; k" := (bind m (fun x => k))
  (at level 61, m at next level, right associativity).
Notation "m ;;; k" := (bind m (fun _ => k))
  (at level 61, right associativity).

Definition crash {A} : M A := fun _ => Crashed.
Definition outOfFuel {A} : M A := fun _ => OutOfFuel.

(** ** Token cursor *)

(** [next] returns the next token. *)
Definition next : M Item := fun p =>
  match peekCount p with
  | S k =>
      match tokenAt p k with
      | Some t => Done t (setPeekCount k p)
      | None => Crashed
      end
  | O =>
      match lex p with
      | Some l =>
          let (it, l') := NextItem l in
          Done it (setLex (Some l') (setToken0 it p))
      | None => Crashed
      end
  end.

(** [backup] backs the input stream up one token. *)
Definition backup : M unit := fun p =>
  Done tt (setPeekCount (S (peekCount p)) p).

(** [backup2] backs the input stream up two tokens. *)
Definition backup2 (t1 : Item) : M unit := fun p =>
  Done tt (setPeekCount 2 (setToken1 t1 p)).

(** [backup3] backs the input stream up three tokens. *)
Definition backup3 (t2 t1 : Item) : M unit := fun p =>
  Done tt (setPeekCount 3 (setToken2 t2 (setToken1 t1 p))).

(** [peek] returns but does not consume the next token. *)
Definition peek : M Item := fun p =>
  match peekCount p with
  | S k =>
      match tokenAt p k with
      | Some t => Done t p
      | None => Crashed
      end
  | O =>
      match lex p with
      | Some l =>
          let (it, l') := NextItem l in
          Done it (setLex (Some l') (setToken0 it (setPeekCount 1 p)))
      | None => Crashed
      end
  end.

(** [nextNonSpace] returns the next non-space token. *)
Fixpoint nextNonSpace (n : nat) : M Item :=
  match n with
  | O => outOfFuel
  | S n' =>
      tok <- next ;;
      match Typ tok with
      | ItemSpace => nextNonSpace n'
      | _ => ret tok
      end
  end.

(** [peekNonSpace] returns but does not consume the next non-space token;
    its loop is the one of [nextNonSpace]. *)
Definition peekNonSpace (n : nat) : M Item :=
  tok <- nextNonSpace n ;;
  backup ;;;
  ret tok.

(** [errorf] formats the error and terminates processing. *)
Definition errorf {A} (pos : Z) (format : string) (args : list FmtArg) : M A :=
  fun p =>
    let p' := setRoot None p in
    Panicked (NewContextualError (Name p') (text p') pos format args) p'.

(** [unexpected] complains about the token and terminates processing. *)
Definition unexpected {A} (tok : Item) (context : string) : M A :=
  errorf (Pos tok) "unexpected %s in %s" [ArgItem tok; ArgString context].

(** [expect] consumes the next token and guarantees it has the required
    type. *)
Definition expect (n : nat) (expected : ItemType) (context : string) : M Item :=
  tok <- nextNonSpace n ;;
  if ItemType_beq (Typ tok) expected then ret tok
  else unexpected tok context.

(** [expectOneOf] consumes the next token and guarantees it has one of the
    required types. *)
Definition expectOneOf (n : nat) (expected1 expected2 : ItemType)
    (context : string) : M Item :=
  tok <- nextNonSpace n ;;
  if negb (ItemType_beq (Typ tok) expected1) &&
     negb (ItemType_beq (Typ tok) expected2)
  then unexpected tok context
  else ret tok.

(** [stopParse] terminates parsing. *)
Definition stopParse (p : Parser) : Parser := setLex None p.

(** [startsFactor] determines whether a token of type [t] can start a
    Factor. *)
Definition startsFactor (t : ItemType) : bool :=
  match t with
  | ItemBare | ItemSingleQuoted | ItemDoubleQuoted
  | ItemLParen | ItemLBracket | ItemDollar => true
  | _ => false
  end.

(** ** The grammar engine *)

Section Engine.

(** [strconv.Unquote] of the Go library: the text of a quoted literal, or an
    error. *)
Variable strconv_Unquote : string -> string + GoError.

(** [Lex(name, text)] of the absent lexer. *)
Variable Lex : string -> string -> Lexer.

(** [unquote]; [None] is the run-time panic of the slice expression. *)
Definition unquote (token : Item) : option (string + GoError) :=
  match Typ token with
  | ItemBare => Some (inl (Val token))
  | ItemSingleQuoted =>
      match GoString.slice (Val token) 1 (GoString.len (Val token) - 1) with
      | Some s => Some (inl (GoString.Replace s "``" "`"))
      | None => None
      end
  | ItemDoubleQuoted => Some (strconv_Unquote (Val token))
  | t => Some (inr (Errorf "Bad token type (%s)" [ArgItemType t]))
  end.

(** The loop [for p.peek().Typ == ItemDollar { p.next(); fn.Dollar++ }] of
    [factor].  Every increment consumes a token, so the Go [int] does not
    wrap. *)
Fixpoint factorDollars (n : nat) (dollar : Z) : M Z :=
  match n with
  | O => outOfFuel
  | S n' =>
      tok <- peek ;;
      match Typ tok with
      | ItemDollar => next ;;; factorDollars n' (dollar + 1)
      | _ => ret dollar
      end
  end.

(** The assignment to [p.Ctx] in [factor]. *)
Definition assignCtx (c : option Context) : M unit :=
  fun p => Done tt (setCtx c p).

(** [termList], [term], [factor] and [table], with the bodies of their
    [for] loops as [termListLoop], [termLoop] and [tableLoop]. *)
Fixpoint termList (n : nat) : M ListNode :=
  match n with
  | O => outOfFuel
  | S n' =>
      first <- peek ;;
      t <- term n' ;;
      termListLoop n' (append (newList (Pos first)) (AList t))
  end

with termListLoop (n : nat) (list : ListNode) : M ListNode :=
  match n with
  | O => outOfFuel
  | S n' =>
      tok <- peekNonSpace n' ;;
      if startsFactor (Typ tok)
      then t <- term n' ;; termListLoop n' (append list (AList t))
      else ret list
  end

with term (n : nat) : M ListNode :=
  match n with
  | O => outOfFuel
  | S n' =>
      first <- peek ;;
      f <- factor n' ;;
      termLoop n' (append (newList (Pos first)) (AFactor f))
  end

with termLoop (n : nat) (term : ListNode) : M ListNode :=
  match n with
  | O => outOfFuel
  | S n' =>
      tok <- peek ;;
      if startsFactor (Typ tok)
      then f <- factor n' ;; termLoop n' (append term (AFactor f))
      else
        tok' <- peekNonSpace n' ;;
        match Typ tok' with
        | ItemCaret =>
            next ;;;
            peekNonSpace n' ;;;
            f <- factor n' ;;
            termLoop n' (append term (AFactor f))
        | _ => ret term
        end
  end

with factor (n : nat) : M FactorNode :=
  match n with
  | O => outOfFuel
  | S n' =>
      first <- peek ;;
      dollar <- factorDollars n' 0 ;;
      token <- next ;;
      match Typ token with
      | ItemBare | ItemSingleQuoted | ItemDoubleQuoted =>
          match unquote token with
          | None => crash
          | Some (inr err) => errorf (Pos token) "%s" [ArgError err]
          | Some (inl txt) =>
              assignCtx
                (if negb (Z.land (End token) MayContinue =? 0)
                 then Some (NewArgContext (Val token))
                 else None) ;;;
              ret (mkFactorNode (Pos first) dollar
                     (AString (newString (Pos token) (Val token) txt)))
          end
      | ItemLParen =>
          l <- termList n' ;;
          closing <- next ;;
          match Typ closing with
          | ItemRParen => ret (mkFactorNode (Pos first) dollar (AList l))
          | _ => unexpected closing "factor of item list"
          end
      | ItemLBracket =>
          tn <- table n' ;;
          ret (mkFactorNode (Pos first) dollar (ATable tn))
      | _ => unexpected token "factor"
      end
  end

with table (n : nat) : M TableNode :=
  match n with
  | O => outOfFuel
  | S n' =>
      first <- peek ;;
      tableLoop n' (newTable (Pos first))
  end

with tableLoop (n : nat) (tn : TableNode) : M TableNode :=
  match n with
  | O => outOfFuel
  | S n' =>
      token <- nextNonSpace n' ;;
      if startsFactor (Typ token)
      then
        backup ;;;
        key <- term n' ;;
        nxt <- peekNonSpace n' ;;
        if ItemType_beq (Typ nxt) ItemBare && String.eqb (Val nxt) "="
        then
          next ;;;
          peekNonSpace n' ;;;
          valueTerm <- term n' ;;
          tableLoop n' (appendToDict tn key valueTerm)
        else tableLoop n' (appendToList tn key)
      else
        match Typ token with
        | ItemRBracket => ret tn
        | _ => unexpected token "table literal"
        end
  end.

(** [redir] parses an IO redirection. *)
Definition redir (n : nat) : M Redir :=
  leader <- next ;;
  let i := GoString.IndexRune (Val leader) "["%char in
  match
    (if negb (i =? -1)
     then
       match GoString.slice (Val leader) 0 i,
             GoString.slice (Val leader) (i + 1) (GoString.len (Val leader) - 1)
       with
       | Some d, Some q => Some (d, q)
       | _, _ => None
       end
     else Some (Val leader, ""))
  with
  | None => crash
  | Some (dir, qual) =>
      fdflag <-
        (if String.eqb dir "<" then ret (0, os.O_RDONLY)
         else if String.eqb dir "<>"
              then ret (0, Z.lor os.O_RDWR os.O_CREATE)
         else if String.eqb dir ">"
              then ret (1, Z.lor os.O_WRONLY os.O_CREATE)
         else if String.eqb dir ">>"
              then ret (1, Z.lor (Z.lor os.O_WRONLY os.O_CREATE) os.O_APPEND)
         else errorf (Pos leader) "Unexpected redirection direction %q"
                [ArgString dir]) ;;
      let '(fd0, flag) := fdflag in
      r <-
        (if 0 <? GoString.len qual
         then
           let j := GoString.IndexRune qual "="%char in
           if negb (j =? -1)
           then
             match GoString.slice qual 0 j,
                   GoString.slice qual (j + 1) (GoString.len qual)
             with
             | Some lhs, Some rhs =>
                 fd <-
                   (if 0 <? GoString.len lhs
                    then
                      match Atou lhs with
                      | Some v => ret v
                      | None =>
                          errorf (Pos leader)
                            "Invalid new fd in qualified redirection %q"
                            [ArgString lhs]
                      end
                    else ret fd0) ;;
                 if 0 <? GoString.len rhs
                 then
                   match Atou rhs with
                   | Some oldfd => ret (inl (NewFdRedir fd oldfd))
                   | None =>
                       errorf (Pos leader)
                         "Invalid old fd in qualified redirection %q"
                         [ArgString rhs]
                   end
                 else ret (inl (newCloseRedir fd))
             | _, _ => crash
             end
           else
             match Atou qual with
             | Some v => ret (inr v)
             | None =>
                 errorf (Pos leader)
                   "Invalid new fd in qualified redirection %q"
                   [ArgString qual]
             end
         else ret (inr fd0)) ;;
      match r with
      | inl done => ret done
      | inr fd =>
          peekNonSpace n ;;;
          t <- term n ;;
          ret (newFilenameRedir fd flag t)
      end
  end.

(** The loop of [command]. *)
Fixpoint commandLoop (n : nat) (redirs : list Redir) : M (list Redir) :=
  match n with
  | O => outOfFuel
  | S n' =>
      tok <- peekNonSpace n' ;;
      match Typ tok with
      | ItemRedirLeader =>
          r <- redir n' ;;
          commandLoop n' (redirs ++ [r])
      | _ => ret redirs
      end
  end.

(** [command] parses a command. *)
Definition command (n : nat) : M CommandNode :=
  first <- peek ;;
  l <- termList n ;;
  rs <- commandLoop n [] ;;
  ret (mkCommandNode (Pos first) l rs).

(** The loop of [pipeline]. *)
Fixpoint pipelineLoop (n : nat) (pipe : ListNode) : M ListNode :=
  match n with
  | O => outOfFuel
  | S n' =>
      c <- command n' ;;
      let pipe' := append pipe (ACommand c) in
      token <- next ;;
      match Typ token with
      | ItemPipe => pipelineLoop n' pipe'
      | ItemEndOfLine | ItemEOF => ret pipe'
      | _ => unexpected token "end of pipeline"
      end
  end.

(** [pipeline] *)
Definition pipeline (n : nat) : M ListNode :=
  first <- peek ;;
  let pipe := newList (Pos first) in
  tok <- peekNonSpace n ;;
  match Typ tok with
  | ItemEOF => ret pipe
  | _ => pipelineLoop n pipe
  end.

(** What a call of [Parse] leaves behind: the receiver after the call and the
    two results, or a run-time panic that [recover] lets through, or no
    result for want of fuel. *)
Inductive ParseResult : Set :=
| Returned (receiver : Parser) (tree : option Parser)
    (err : option ContextualError)
| ParseCrashed
| ParseOutOfFuel.

(** [Parse], with the deferred [recover]. *)
Definition Parse (n : nat) (p : Parser) (txt : string) (tb : bool)
    : ParseResult :=
  let p1 :=
    setPeekCount 0 (setLex (Some (Lex (Name p) txt)) (setText txt tb p)) in
  match pipeline n p1 with
  | Done root p2 =>
      let p3 := stopParse (setRoot (Some (AList root)) p2) in
      Returned p3 (Some p3) None
  | Panicked e p2 => Returned (stopParse p2) None (Some e)
  | Crashed => ParseCrashed
  | OutOfFuel => ParseOutOfFuel
  end.

End Engine.

(** ** Definitions used by the statements *)

(** The back quote, delimiter of single-quoted literals. *)
Definition backquote : ascii := "`"%char.

(** Decoding of the inside of a single-quoted literal in the words of the
    specification: two consecutive delimiters stand for one, every other
    byte for itself. *)
Fixpoint collapse (s : string) : string :=
  match s with
  | EmptyString => EmptyString
  | String a s1 =>
      match s1 with
      | String b s2 =>
          if Ascii.eqb a backquote && Ascii.eqb b backquote
          then String backquote (collapse s2)
          else String a (collapse s1)
      | EmptyString => String a EmptyString
      end
  end.

(** The direction table of the specification: default fd and open flag. *)
Definition directionTable (dir : string) : option (Z * Z) :=
  if String.eqb dir "<" then Some (0, os.O_RDONLY)
  else if String.eqb dir "<>" then Some (0, Z.lor os.O_RDWR os.O_CREATE)
  else if String.eqb dir ">" then Some (1, Z.lor os.O_WRONLY os.O_CREATE)
  else if String.eqb dir ">>"
       then Some (1, Z.lor (Z.lor os.O_WRONLY os.O_CREATE) os.O_APPEND)
  else None.

(** A [strconv.Unquote] that rejects every text, for inputs without
    double-quoted literals. *)
Definition rejectUnquote (s : string) : string + GoError := inr ErrSyntax.

(** The action of [redir] that follows the leader of a redirection to a
    file: skip spaces, parse the term, build the [FilenameRedir]. *)
Definition toFile (uq : string -> string + GoError) (n : nat) (fd flag : Z)
    : M Redir :=
  peekNonSpace n ;;;
  t <- term uq n ;;
  ret (newFilenameRedir fd flag t).

(** The panic raised by [errorf] in state [p]. *)
Definition raised {A} (p : Parser) (pos : Z) (format : string)
    (args : list FmtArg) : Outcome A :=
  Panicked (NewContextualError (Name p) (text p) pos format args)
           (setRoot None p).

(** Splitting of the leader's text into direction and qualifier. *)
Definition splitLeader (v : string) : option (string * string) :=
  let i := GoString.IndexRune v "["%char in
  if negb (i =? -1)
  then
    match GoString.slice v 0 i, GoString.slice v (i + 1) (GoString.len v - 1) with
    | Some d, Some q => Some (d, q)
    | _, _ => None
    end
  else Some (v, "").


(** ** Concrete inputs *)

Definition zeroItem : Item := mkItem ItemEOF 0 "" 0.

(** A parser about to read the tokens [l] of a script ending at [e]. *)
Definition startAt (l : list Item) (e : Z) : Parser :=
  mkParser "script" None None "" false (Some (mkLexer l e))
           zeroItem zeroItem zeroItem 0.

(** A lexer that delivers the tokens [l] whatever the text. *)
Definition fixedLex (l : list Item) (e : Z) : string -> string -> Lexer :=
  fun _ _ => mkLexer l e.

(** ** Fuel *)

(** [m2] gives the result of [m1] wherever [m1] has enough fuel. *)
Definition approx {A} (m1 m2 : M A) : Prop :=
  forall p, m1 p = OutOfFuel \/ m1 p = m2 p.

Definition tokBare (pos : Z) (v : string) : Item := mkItem ItemBare pos v 0.
Definition tokSpace (pos : Z) : Item := mkItem ItemSpace pos " " 0.
Definition tokPunct (t : ItemType) (pos : Z) (v : string) : Item :=
  mkItem t pos v 0.

(** The words [a], [b], ... as trees: a factor holding a bare string, and
    the term of that one factor. *)
Definition bareFactor (tok : Item) : Node :=
  AFactor (mkFactorNode (Pos tok) 0
             (AString (mkStringNode (Pos tok) (Val tok) (Val tok)))).

Definition bareTerm (tok : Item) : ListNode :=
  mkListNode (Pos tok) [bareFactor tok].

(** Tokens of [[a b c=d]], of [[a b c = d]], of [(a)^$b] and of [(a )$b]. *)
Definition tableTight : list Item :=
  [tokPunct ItemLBracket 0 "["; tokBare 1 "a"; tokSpace 2; tokBare 3 "b";
   tokSpace 4; tokBare 5 "c"; tokBare 6 "="; tokBare 7 "d";
   tokPunct ItemRBracket 8 "]"].

Definition tableSpaced : list Item :=
  [tokPunct ItemLBracket 0 "["; tokBare 1 "a"; tokSpace 2; tokBare 3 "b";
   tokSpace 4; tokBare 5 "c"; tokSpace 6; tokBare 7 "="; tokSpace 8;
   tokBare 9 "d"; tokPunct ItemRBracket 10 "]"].

Definition groupCaret : list Item :=
  [tokPunct ItemLParen 0 "("; tokBare 1 "a"; tokPunct ItemRParen 2 ")";
   tokPunct ItemCaret 3 "^"; tokPunct ItemDollar 4 "$"; tokBare 5 "b"].

Definition groupJuxtaposed : list Item :=
  [tokPunct ItemLParen 0 "("; tokBare 1 "a"; tokSpace 2;
   tokPunct ItemRParen 3 ")"; tokPunct ItemDollar 4 "$"; tokBare 5 "b"].

(** The tree of a pipeline of one command without redirections. *)
Definition oneCommand (pos : Z) (terms : list ListNode) : ListNode :=
  mkListNode pos
    [ACommand (mkCommandNode pos (mkListNode pos (map AList terms)) [])].

(** The tree of a successful call of [Parse]. *)
Definition parsedTree (r : ParseResult) : option Node :=
  match r with
  | Returned p (Some _) None => Root p
  | _ => None
  end.

(** A fresh parser for the script named [script]. *)
Definition freshParser : Parser := NewParser zeroItem "script".

(** ** Well-formed trees *)

(** What a [ListNode] stands for: the pipeline, a list of terms, or a term. *)
Inductive Role : Set := pipelineRole | termListRole | termRole.

Definition isEmpty {A} (l : list A) : bool :=
  match l with [] => true | _ => false end.

(** [wfList role l]: the children of [l] are of the kind its role asks for
    (commands, terms, factors), are well formed themselves, and there is at
    least one of them unless [l] is the pipeline. *)
Fixpoint wfList (role : Role) (l : ListNode) {struct l} : bool :=
  match l with
  | mkListNode _ ns =>
      match role with
      | pipelineRole => true
      | _ => negb (isEmpty ns)
      end &&
      forallb (wfChild role) ns
  end

with wfChild (role : Role) (n : Node) {struct n} : bool :=
  match role, n with
  | pipelineRole, ACommand c => wfCommand c
  | termListRole, AList t => wfList termRole t
  | termRole, AFactor f => wfFactor f
  | _, _ => false
  end

with wfCommand (c : CommandNode) {struct c} : bool :=
  match c with
  | mkCommandNode _ terms redirs =>
      wfList termListRole terms && forallb wfRedir redirs
  end

with wfFactor (f : FactorNode) {struct f} : bool :=
  match f with
  | mkFactorNode _ _ node =>
      match node with
      | AString _ => true
      | AList l => wfList termListRole l
      | ATable t => wfTable t
      | _ => false
      end
  end

with wfTable (t : TableNode) {struct t} : bool :=
  match t with
  | mkTableNode _ elems dict =>
      forallb (wfList termRole) elems &&
      forallb (fun kv => wfList termRole (fst kv) && wfList termRole (snd kv))
              dict
  end

with wfRedir (r : Redir) {struct r} : bool :=
  match r with
  | FilenameRedir _ _ t => wfList termRole t
  | _ => true
  end.

(** [post m Q]: every value that [m] returns satisfies [Q]. *)
Definition post {A} (m : M A) (Q : A -> Prop) : Prop :=
  forall p, match m p with Done a _ => Q a | _ => True end.

(** The position of the first token a lexer delivers. *)
Definition firstPos (l : list Item) (e : Z) : Z :=
  match l with
  | t :: _ => Pos t
  | [] => e
  end.

(** Tokens that end the input at once: none, or an end-of-input token
    first. *)
Definition endsInput (l : list Item) : Prop :=
  l = [] \/ exists t l', l = t :: l' /\ Typ t = ItemEOF.

(** ** Two runs side by side *)

(** [sim p q]: the parsers agree on what the engine reads: the script name
    and text, the lexer, and the tokens that are pushed back. *)
Definition sim (p q : Parser) : Prop :=
  Name p = Name q /\ text p = text q /\ lex p = lex q /\
  peekCount p = peekCount q /\
  forall i, (i < peekCount p)%nat -> tokenAt p i = tokenAt q i.

(** [simx p q]: moreover they agree on the token that [backup] would push
    back. *)
Definition simx (p q : Parser) : Prop :=
  sim p q /\ tokenAt p (peekCount p) = tokenAt q (peekCount q).

(** The hints of the two runs have become equal, or neither run has touched
    its hint. *)
Definition sameHint (p q p' q' : Parser) : Prop :=
  Ctx p' = Ctx q' \/ (Ctx p' = Ctx p /\ Ctx q' = Ctx q).

Definition related {A} (Y : Parser -> Parser -> Prop) (p q : Parser)
    (o1 o2 : Outcome A) : Prop :=
  match o1, o2 with
  | Done a p', Done b q' => a = b /\ Y p' q' /\ sameHint p q p' q'
  | Panicked e p', Panicked e' q' =>
      e = e' /\ Root p' = None /\ Root q' = None /\ sameHint p q p' q'
  | Crashed, Crashed => True
  | OutOfFuel, OutOfFuel => True
  | _, _ => False
  end.

(** [Resp X Y m]: from parsers related by [X], the two runs of [m] end
    alike, in parsers related by [Y]. *)
Definition Resp {A} (X Y : Parser -> Parser -> Prop) (m : M A) : Prop :=
  forall p q, X p q -> related Y p q (m p) (m q).

(** The outcomes of two calls of [Parse] are the same: same tree, same
    diagnostic. *)
Definition sameOutcome (r1 r2 : ParseResult) : Prop :=
  match r1, r2 with
  | Returned p1 t1 e1, Returned p2 t2 e2 =>
      e1 = e2 /\ Root p1 = Root p2 /\
      match t1, t2 with
      | Some q1, Some q2 => Root q1 = Root q2
      | None, None => True
      | _, _ => False
      end
  | ParseCrashed, ParseCrashed => True
  | ParseOutOfFuel, ParseOutOfFuel => True
  | _, _ => False
  end.

(** The hint that [Parse] leaves in its receiver. *)
Definition finalHint (r : ParseResult) : option (option Context) :=
  match r with
  | Returned p _ _ => Some (Ctx p)
  | _ => None
  end.

(** The hint that [factor] records for an accepted token. *)
Definition hintOf (token : Item) : option Context :=
  if negb (Z.land (End token) MayContinue =? 0)
  then Some (NewArgContext (Val token))
  else None.

(** The parser in which an action ends. *)
Definition finalState {A} (o : Outcome A) : option Parser :=
  match o with
  | Done _ p | Panicked _ p => Some p
  | _ => None
  end.

(** The hints that two calls of [Parse] leave are equal, or each call has
    left the hint of its parser as it was. *)
Definition sameFinalHint (p q : Parser) (r1 r2 : ParseResult) : Prop :=
  match r1, r2 with
  | Returned p' _ _, Returned q' _ _ => sameHint p q p' q'
  | ParseCrashed, ParseCrashed => True
  | ParseOutOfFuel, ParseOutOfFuel => True
  | _, _ => False
  end.

(** The word [ab], single-quoted and bare, flagged as continuable. *)
Definition quotedWord : Item := mkItem ItemSingleQuoted 0 "`ab`" MayContinue.
Definition bareWord : Item := mkItem ItemBare 0 "ab" MayContinue.

(** A parser that has been used before. *)
Definition usedParser : Parser :=
  mkParser "script" (Some (AList (newList 7))) (Some (NewArgContext "old"))
           "old text" true None (tokBare 3 "x") (tokSpace 4) (tokBare 5 "y") 1.

(** ** Termination and the two outcomes *)

(** What the parser relies on in the text of a token: a single-quoted
    literal has its two delimiters, and the bracket of a redirection leader
    is closed (or at least followed by a byte). *)
Definition wellFormedToken (t : Item) : bool :=
  match Typ t with
  | ItemSingleQuoted => 2 <=? GoString.len (Val t)
  | ItemRedirLeader =>
      match splitLeader (Val t) with Some _ => true | None => false end
  | _ => true
  end.

(** The cost of a token in the measure of what is left to read. *)
Definition weight (t : Item) : nat :=
  match Typ t with ItemEOF => 0 | _ => 1 end.

(** The number of tokens left: those of the lexer and the one pushed back,
    the end of the input not counted. *)
Definition mu (p : Parser) : nat :=
  match lex p with
  | Some l => length (pending l)
  | None => 0
  end +
  match peekCount p with
  | O => 0
  | _ => weight (token0 p)
  end.

(** A call of [Parse]: the name and the text of the script, the tokens the
    lexer delivers for them and the offset of the end of the input. *)
Record Call : Set := mkCall {
  callName : string;
  callText : string;
  callTokens : list Item;
  callEnd : Z
}.

(** A token of the input, well formed. *)
Definition good (c : Call) (t : Item) : Prop :=
  wellFormedToken t = true /\
  (In t (callTokens c) \/ t = mkItem ItemEOF (callEnd c) "" 0).

(** The state of the parser between two steps of the engine. *)
Definition Inv (c : Call) (p : Parser) : Prop :=
  Name p = callName c /\ text p = callText c /\ (peekCount p <= 1)%nat /\
  (peekCount p = 1%nat -> good c (token0 p)) /\
  exists l, lex p = Some (mkLexer l (callEnd c)) /\
            forall t, In t l -> good c t.

(** A panic of [errorf] in the call [c]: the root is cleared, the
    diagnostic names the script and its text and points at a token of the
    input. *)
Definition panicOf (c : Call) (er : ContextualError) (p' : Parser) : Prop :=
  Root p' = None /\ Name p' = callName c /\ text p' = callText c /\
  errName er = callName c /\ errText er = callText c /\
  exists t, good c t /\ errPos er = Pos t.

(** [tot c m p Q]: from [p], the action [m] returns with [Q] or raises one
    panic of [errorf]; it neither crashes nor runs out of fuel. *)
Definition tot {A} (c : Call) (m : M A) (p : Parser)
    (Q : A -> Parser -> Prop) : Prop :=
  match m p with
  | Done a p' => Q a p'
  | Panicked er p' => panicOf c er p'
  | Crashed => False
  | OutOfFuel => False
  end.

(** After a token [r] has been taken ([taken]) or looked at ([seen]) from
    [p]; [fewer] and [noMore] compare what is left to read. *)
Definition taken (c : Call) (p : Parser) (r : Item) (p' : Parser) : Prop :=
  Inv c p' /\ peekCount p' = 0%nat /\ token0 p' = r /\ good c r /\
  (mu p' + weight r <= mu p)%nat.

Definition seen (c : Call) (p : Parser) (r : Item) (p' : Parser) : Prop :=
  Inv c p' /\ peekCount p' = 1%nat /\ token0 p' = r /\ good c r /\
  (mu p' <= mu p)%nat.

Definition fewer (c : Call) (p p' : Parser) : Prop :=
  Inv c p' /\ (mu p' + 1 <= mu p)%nat.

Definition noMore (c : Call) (p p' : Parser) : Prop :=
  Inv c p' /\ (mu p' <= mu p)%nat.

(** ** Look-ahead and what the engine leaves alone *)

(** The next token of [p] can start a factor. *)
Definition startsWithFactor (p : Parser) : Prop :=
  exists tok p1, peek p = Done tok p1 /\ startsFactor (Typ tok) = true.

(** [p'] has the name, text and tab flag of [p]. *)
Definition kept (p p' : Parser) : Prop :=
  Name p' = Name p /\ text p' = text p /\ tab p' = tab p.

(** [Keeps m]: [m] writes neither name, text nor tab flag; it leaves the
    root alone when it returns, and when it panics the root is cleared and
    the diagnostic carries the name and the text. *)
Definition Keeps {A} (m : M A) : Prop :=
  forall p,
    match m p with
    | Done _ p' => kept p p' /\ Root p' = Root p
    | Panicked er p' =>
        kept p p' /\ Root p' = None /\
        errName er = Name p /\ errText er = text p
    | _ => True
    end.

(** A parser in the middle of a parse: the lexer still has [l], the first
    slot of the buffer holds [t0] and [k] tokens are pushed back. *)
Definition midParse (l : list Item) (e : Z) (t0 : Item) (k : nat) : Parser :=
  mkParser "script" None None "" false (Some (mkLexer l e))
           t0 zeroItem zeroItem k.

(** ** The record of the accepted tokens *)

(** A parser action that also keeps the record of the tokens that [factor]
    has accepted so far, in the order of their acceptance.  The record is
    not part of the program: it is written and never read. *)
Definition MT (A : Type) : Type :=
  Parser -> list Item -> Outcome A * list Item.

Definition retT {A} (a : A) : MT A := fun p log => (Done a p, log).

Definition bindT {A B} (m : MT A) (k : A -> MT B) : MT B :=
  fun p log =>
    match m p log with
    | (Done a p', log') => k a p' log'
    | (Panicked e p', log') => (Panicked e p', log')
    | (Crashed, log') => (Crashed, log')
    | (OutOfFuel, log') => (OutOfFuel, log')
    end.

(** An action of the parser, which leaves the record as it is. *)
Definition lift {A} (m : M A) : MT A := fun p log => (m p, log).

(** The assignment to [p.Ctx] in [factor], recorded with the token that
    [factor] has accepted. *)
Definition assign (token : Item) (c : option Context) : MT unit :=
  fun p log => (assignCtx c p, (log ++ [token])%list).

Declare Scope traced_scope.
Notation "x <- m ;; k" := (bindT m (fun x => k))
  (at level 61, m at next level, right associativity) : traced_scope.
Notation "m ;;; k" := (bindT m (fun _ => k))
  (at level 61, right associativity) : traced_scope.

(** The engine again, line by line, with the record: every action of the
    parser is lifted, and the assignment in [factor] is the only place that
    adds to the record. *)
Module Traced.

Section Engine.

Variable strconv_Unquote : string -> string + GoError.
Variable Lex : string -> string -> Lexer.

Local Open Scope traced_scope.

Fixpoint termList (n : nat) : MT ListNode :=
  match n with
  | O => lift outOfFuel
  | S n' =>
      first <- lift peek ;;
      t <- term n' ;;
      termListLoop n' (append (newList (Pos first)) (AList t))
  end

with termListLoop (n : nat) (list : ListNode) : MT ListNode :=
  match n with
  | O => lift outOfFuel
  | S n' =>
      tok <- lift (peekNonSpace n') ;;
      if startsFactor (Typ tok)
      then t <- term n' ;; termListLoop n' (append list (AList t))
      else retT list
  end

with term (n : nat) : MT ListNode :=
  match n with
  | O => lift outOfFuel
  | S n' =>
      first <- lift peek ;;
      f <- factor n' ;;
      termLoop n' (append (newList (Pos first)) (AFactor f))
  end

with termLoop (n : nat) (term : ListNode) : MT ListNode :=
  match n with
  | O => lift outOfFuel
  | S n' =>
      tok <- lift peek ;;
      if startsFactor (Typ tok)
      then f <- factor n' ;; termLoop n' (append term (AFactor f))
      else
        tok' <- lift (peekNonSpace n') ;;
        match Typ tok' with
        | ItemCaret =>
            lift next ;;;
            lift (peekNonSpace n') ;;;
            f <- factor n' ;;
            termLoop n' (append term (AFactor f))
        | _ => retT term
        end
  end

with factor (n : nat) : MT FactorNode :=
  match n with
  | O => lift outOfFuel
  | S n' =>
      first <- lift peek ;;
      dollar <- lift (factorDollars n' 0) ;;
      token <- lift next ;;
      match Typ token with
      | ItemBare | ItemSingleQuoted | ItemDoubleQuoted =>
          match unquote strconv_Unquote token with
          | None => lift crash
          | Some (inr err) => lift (errorf (Pos token) "%s" [ArgError err])
          | Some (inl txt) =>
              assign token
                (if negb (Z.land (End token) MayContinue =? 0)
                 then Some (NewArgContext (Val token))
                 else None) ;;;
              retT (mkFactorNode (Pos first) dollar
                      (AString (newString (Pos token) (Val token) txt)))
          end
      | ItemLParen =>
          l <- termList n' ;;
          closing <- lift next ;;
          match Typ closing with
          | ItemRParen => retT (mkFactorNode (Pos first) dollar (AList l))
          | _ => lift (unexpected closing "factor of item list")
          end
      | ItemLBracket =>
          tn <- table n' ;;
          retT (mkFactorNode (Pos first) dollar (ATable tn))
      | _ => lift (unexpected token "factor")
      end
  end

with table (n : nat) : MT TableNode :=
  match n with
  | O => lift outOfFuel
  | S n' =>
      first <- lift peek ;;
      tableLoop n' (newTable (Pos first))
  end

with tableLoop (n : nat) (tn : TableNode) : MT TableNode :=
  match n with
  | O => lift outOfFuel
  | S n' =>
      token <- lift (nextNonSpace n') ;;
      if startsFactor (Typ token)
      then
        lift backup ;;;
        key <- term n' ;;
        nxt <- lift (peekNonSpace n') ;;
        if ItemType_beq (Typ nxt) ItemBare && String.eqb (Val nxt) "="
        then
          lift next ;;;
          lift (peekNonSpace n') ;;;
          valueTerm <- term n' ;;
          tableLoop n' (appendToDict tn key valueTerm)
        else tableLoop n' (appendToList tn key)
      else
        match Typ token with
        | ItemRBracket => retT tn
        | _ => lift (unexpected token "table literal")
        end
  end.

Definition redir (n : nat) : MT Redir :=
  leader <- lift next ;;
  let i := GoString.IndexRune (Val leader) "["%char in
  match
    (if negb (i =? -1)
     then
       match GoString.slice (Val leader) 0 i,
             GoString.slice (Val leader) (i + 1) (GoString.len (Val leader) - 1)
       with
       | Some d, Some q => Some (d, q)
       | _, _ => None
       end
     else Some (Val leader, ""))
  with
  | None => lift crash
  | Some (dir, qual) =>
      fdflag <-
        (if String.eqb dir "<" then retT (0, os.O_RDONLY)
         else if String.eqb dir "<>"
              then retT (0, Z.lor os.O_RDWR os.O_CREATE)
         else if String.eqb dir ">"
              then retT (1, Z.lor os.O_WRONLY os.O_CREATE)
         else if String.eqb dir ">>"
              then retT (1, Z.lor (Z.lor os.O_WRONLY os.O_CREATE) os.O_APPEND)
         else lift (errorf (Pos leader) "Unexpected redirection direction %q"
                      [ArgString dir])) ;;
      let '(fd0, flag) := fdflag in
      r <-
        (if 0 <? GoString.len qual
         then
           let j := GoString.IndexRune qual "="%char in
           if negb (j =? -1)
           then
             match GoString.slice qual 0 j,
                   GoString.slice qual (j + 1) (GoString.len qual)
             with
             | Some lhs, Some rhs =>
                 fd <-
                   (if 0 <? GoString.len lhs
                    then
                      match Atou lhs with
                      | Some v => retT v
                      | None =>
                          lift (errorf (Pos leader)
                                  "Invalid new fd in qualified redirection %q"
                                  [ArgString lhs])
                      end
                    else retT fd0) ;;
                 if 0 <? GoString.len rhs
                 then
                   match Atou rhs with
                   | Some oldfd => retT (inl (NewFdRedir fd oldfd))
                   | None =>
                       lift (errorf (Pos leader)
                               "Invalid old fd in qualified redirection %q"
                               [ArgString rhs])
                   end
                 else retT (inl (newCloseRedir fd))
             | _, _ => lift crash
             end
           else
             match Atou qual with
             | Some v => retT (inr v)
             | None =>
                 lift (errorf (Pos leader)
                         "Invalid new fd in qualified redirection %q"
                         [ArgString qual])
             end
         else retT (inr fd0)) ;;
      match r with
      | inl done => retT done
      | inr fd =>
          lift (peekNonSpace n) ;;;
          t <- term n ;;
          retT (newFilenameRedir fd flag t)
      end
  end.

Fixpoint commandLoop (n : nat) (redirs : list Redir) : MT (list Redir) :=
  match n with
  | O => lift outOfFuel
  | S n' =>
      tok <- lift (peekNonSpace n') ;;
      match Typ tok with
      | ItemRedirLeader =>
          r <- redir n' ;;
          commandLoop n' (redirs ++ [r])%list
      | _ => retT redirs
      end
  end.

Definition command (n : nat) : MT CommandNode :=
  first <- lift peek ;;
  l <- termList n ;;
  rs <- commandLoop n [] ;;
  retT (mkCommandNode (Pos first) l rs).

Fixpoint pipelineLoop (n : nat) (pipe : ListNode) : MT ListNode :=
  match n with
  | O => lift outOfFuel
  | S n' =>
      c <- command n' ;;
      let pipe' := append pipe (ACommand c) in
      token <- lift next ;;
      match Typ token with
      | ItemPipe => pipelineLoop n' pipe'
      | ItemEndOfLine | ItemEOF => retT pipe'
      | _ => lift (unexpected token "end of pipeline")
      end
  end.

Definition pipeline (n : nat) : MT ListNode :=
  first <- lift peek ;;
  let pipe := newList (Pos first) in
  tok <- lift (peekNonSpace n) ;;
  match Typ tok with
  | ItemEOF => retT pipe
  | _ => pipelineLoop n pipe
  end.

(** [Parse] starts with an empty record. *)
Definition Parse (n : nat) (p : Parser) (txt : string) (tb : bool)
    : ParseResult * list Item :=
  let p1 :=
    setPeekCount 0 (setLex (Some (Lex (Name p) txt)) (setText txt tb p)) in
  match pipeline n p1 [] with
  | (Done root p2, acc) =>
      let p3 := stopParse (setRoot (Some (AList root)) p2) in
      (Returned p3 (Some p3) None, acc)
  | (Panicked e p2, acc) => (Returned (stopParse p2) None (Some e), acc)
  | (Crashed, acc) => (ParseCrashed, acc)
  | (OutOfFuel, acc) => (ParseOutOfFuel, acc)
  end.

End Engine.

End Traced.

(** The tokens that [factor] accepts during a call of [Parse], in the order
    of their acceptance. *)
Definition accepted (uq : string -> string + GoError)
    (Lex : string -> string -> Lexer) (n : nat) (p : Parser) (txt : string)
    (tb : bool) : list Item :=
  snd (Traced.Parse uq Lex n p txt tb).

(** A token that [factor] accepts: a bare or quoted token that [unquote]
    decodes. *)
Definition acceptable (uq : string -> string + GoError) (t : Item) : Prop :=
  (Typ t = ItemBare \/ Typ t = ItemSingleQuoted \/
   Typ t = ItemDoubleQuoted) /\
  exists txt, unquote uq t = Some (inl txt).

(** The hint after the acceptance of the tokens of [acc], one after the
    other, when it was [c] before. *)
Fixpoint hintAfter (c : option Context) (acc : list Item) : option Context :=
  match acc with
  | [] => c
  | t :: rest => hintAfter (hintOf t) rest
  end.

(** [m] leaves the hint as it is. *)
Definition keepsHint {A} (m : M A) : Prop :=
  forall p,
    match m p with
    | Done _ p' | Panicked _ p' => Ctx p' = Ctx p
    | _ => True
    end.

(** [Tr mt m]: the action [mt] with the record does what [m] does, it only
    adds to the record, what it adds are tokens that [factor] accepts, and
    the hint in the end is the one after their acceptance. *)
Definition Tr {A} (uq : string -> string + GoError) (mt : MT A) (m : M A)
    : Prop :=
  forall p log,
    fst (mt p log) = m p /\
    exists more,
      snd (mt p log) = (log ++ more)%list /\
      Forall (acceptable uq) more /\
      match m p with
      | Done _ p' | Panicked _ p' => Ctx p' = hintAfter (Ctx p) more
      | _ => True
      end.

(** The table literal [[k = []]], whose key may continue. *)
Definition keyWord : Item := mkItem ItemBare 1 "k" MayContinue.

Definition tableEmptyValue : list Item :=
  [ tokPunct ItemLBracket 0 "["; keyWord; tokSpace 2; tokBare 3 "=";
    tokSpace 4; tokPunct ItemLBracket 5 "["; tokPunct ItemRBracket 6 "]";
    tokPunct ItemRBracket 7 "]" ].

(** ** Go strings *)

Module GoStringFacts.
Import GoString.

Lemma len_app (a b : string) : len (a ++ b) = len a + len b.
Proof.
  unfold len. induction a as [|c a IH]; cbn [String.append String.length].
  - lia.
  - rewrite !Nat2Z.inj_succ. lia.
Qed.

Lemma len_nonneg (s : string) : 0 <= len s.
Proof. unfold len. lia. Qed.

Lemma len_String (c : ascii) (s : string) : len (String c s) = 1 + len s.
Proof. unfold len. cbn [String.length]. rewrite Nat2Z.inj_succ. lia. Qed.

Lemma len_pos_iff (s : string) : (0 <? len s) = negb (String.eqb s "").
Proof.
  destruct s as [|c s].
  - reflexivity.
  - rewrite len_String. pose proof (len_nonneg s).
    cbn [String.eqb negb]. apply Z.ltb_lt. lia.
Qed.

Lemma IndexRune_range (s : string) (c : ascii) :
  -1 <= IndexRune s c < len s.
Proof.
  induction s as [|a s IH].
  - cbn. lia.
  - rewrite len_String. cbn [IndexRune].
    destruct (Ascii.eqb a c).
    + pose proof (len_nonneg s). lia.
    + cbv zeta. destruct (IndexRune s c =? -1) eqn:E.
      * pose proof (len_nonneg s). lia.
      * apply Z.eqb_neq in E. lia.
Qed.

Lemma IndexRune_app_found (a rest : string) (c : ascii) :
  IndexRune a c = -1 -> IndexRune (a ++ String c rest) c = len a.
Proof.
  induction a as [|x a IH]; cbn [IndexRune String.append]; intros H.
  - rewrite Ascii.eqb_refl. reflexivity.
  - destruct (Ascii.eqb x c); [discriminate|]. cbv zeta in *.
    destruct (IndexRune a c =? -1) eqn:E.
    + apply Z.eqb_eq in E. rewrite (IH E).
      rewrite len_String. pose proof (len_nonneg a).
      destruct (len a =? -1) eqn:E'; [apply Z.eqb_eq in E'; lia | lia].
    + apply Z.eqb_neq in E. pose proof (IndexRune_range a c). lia.
Qed.

Lemma substring_drop (a s : string) (n m : nat) :
  substring (String.length a + n) m (a ++ s) = substring n m s.
Proof.
  induction a as [|x a IH]; simpl; [reflexivity|exact IH].
Qed.

Lemma substring_take (a s : string) :
  substring 0 (String.length a) (a ++ s) = a.
Proof.
  induction a as [|x a IH]; simpl.
  - destruct s; reflexivity.
  - rewrite IH. reflexivity.
Qed.

Lemma substring_all (a : string) : substring 0 (String.length a) a = a.
Proof.
  induction a as [|x a IH]; simpl; [reflexivity|rewrite IH; reflexivity].
Qed.

Lemma substring_middle (a b c : string) :
  substring (String.length a) (String.length b) (a ++ b ++ c) = b.
Proof.
  replace (String.length a) with (String.length a + 0)%nat by lia.
  rewrite substring_drop. apply substring_take.
Qed.

(** [ (a ++ b ++ c)[len a : len a + len b] = b ] *)
Lemma slice_middle (a b c : string) (lo hi : Z) :
  lo = len a -> hi = len a + len b ->
  slice (a ++ b ++ c) lo hi = Some b.
Proof.
  intros -> ->. unfold slice.
  rewrite !len_app.
  pose proof (len_nonneg a). pose proof (len_nonneg b).
  pose proof (len_nonneg c).
  replace (Z.to_nat (len a)) with (String.length a) by (unfold len; lia).
  replace (Z.to_nat (len a + len b - len a)) with (String.length b)
    by (unfold len; lia).
  rewrite substring_middle.
  destruct ((0 <=? len a) && (len a <=? len a + len b) &&
            (len a + len b <=? len a + (len b + len c))) eqn:E;
    [reflexivity|].
  rewrite !andb_false_iff, !Z.leb_gt in E. lia.
Qed.

Lemma slice_prefix (a c : string) (hi : Z) :
  hi = len a -> slice (a ++ c) 0 hi = Some a.
Proof.
  intros ->. change (a ++ c) with ("" ++ a ++ c).
  apply slice_middle; reflexivity.
Qed.

Lemma slice_suffix (a b : string) (lo hi : Z) :
  lo = len a -> hi = len a + len b -> slice (a ++ b) lo hi = Some b.
Proof.
  intros Hlo Hhi.
  replace (a ++ b) with (a ++ b ++ "").
  - apply slice_middle; assumption.
  - f_equal. clear. induction b as [|x b IH]; simpl; [reflexivity|].
    rewrite IH. reflexivity.
Qed.

Lemma prefix_backquotes (a b : ascii) (s : string) :
  String.prefix "``" (String a (String b s)) =
  Ascii.eqb a backquote && Ascii.eqb b backquote.
Proof.
  cbn [String.prefix]. fold backquote.
  destruct (ascii_dec backquote a) as [<-|Na].
  - rewrite Ascii.eqb_refl.
    destruct (ascii_dec backquote b) as [<-|Nb].
    + rewrite Ascii.eqb_refl. destruct s; reflexivity.
    + replace (Ascii.eqb b backquote) with false
        by (symmetry; apply Ascii.eqb_neq; congruence).
      reflexivity.
  - replace (Ascii.eqb a backquote) with false
      by (symmetry; apply Ascii.eqb_neq; congruence).
    reflexivity.
Qed.

(** [strings.Replace] of a doubled back quote by a single one is the
    decoding the specification words. *)
Lemma replaceFrom_collapse (n : nat) :
  forall s, (String.length s <= n)%nat ->
  replaceFrom "``" "`" 0 s = collapse s.
Proof.
  induction n as [|n IH]; intros s Hlen.
  - destruct s; [reflexivity|cbn in Hlen; lia].
  - destruct s as [|a [|b s2]].
    + reflexivity.
    + cbn [replaceFrom String.prefix collapse].
      destruct (ascii_dec "`"%char a); reflexivity.
    + change (replaceFrom "``" "`" 0 (String a (String b s2)))
        with (if String.prefix "``" (String a (String b s2))
              then "`" ++ replaceFrom "``" "`" 0 s2
              else String a (replaceFrom "``" "`" 0 (String b s2))).
      cbn [String.length] in Hlen.
      rewrite (IH s2) by lia.
      rewrite (IH (String b s2)) by (cbn [String.length]; lia).
      rewrite prefix_backquotes.
      change (collapse (String a (String b s2)))
        with (if Ascii.eqb a backquote && Ascii.eqb b backquote
              then String backquote (collapse s2)
              else String a (collapse (String b s2))).
      destruct (Ascii.eqb a backquote && Ascii.eqb b backquote);
        reflexivity.
Qed.

Lemma Replace_collapse (s : string) : Replace s "``" "`" = collapse s.
Proof. apply (replaceFrom_collapse (String.length s)). lia. Qed.

Lemma slice_some_prefix (s : string) (hi : Z) :
  0 <= hi <= len s -> exists x, slice s 0 hi = Some x.
Proof.
  intros H. unfold slice.
  replace ((0 <=? 0) && (0 <=? hi) && (hi <=? len s)) with true.
  - eexists. reflexivity.
  - symmetry. rewrite !andb_true_iff, !Z.leb_le. lia.
Qed.

End GoStringFacts.

(** ** Unfolding equations of the engine *)

Section Equations.

Variable uq : string -> string + GoError.

Lemma nextNonSpace_S (n : nat) :
  nextNonSpace (S n) =
  (tok <- next ;;
   match Typ tok with
   | ItemSpace => nextNonSpace n
   | _ => ret tok
   end).
Proof. reflexivity. Qed.

Lemma factorDollars_S (n : nat) (dollar : Z) :
  factorDollars (S n) dollar =
  (tok <- peek ;;
   match Typ tok with
   | ItemDollar => next ;;; factorDollars n (dollar + 1)
   | _ => ret dollar
   end).
Proof. reflexivity. Qed.

Lemma termList_S (n : nat) :
  termList uq (S n) =
  (first <- peek ;;
   t <- term uq n ;;
   termListLoop uq n (append (newList (Pos first)) (AList t))).
Proof. reflexivity. Qed.

Lemma termListLoop_S (n : nat) (list : ListNode) :
  termListLoop uq (S n) list =
  (tok <- peekNonSpace n ;;
   if startsFactor (Typ tok)
   then t <- term uq n ;; termListLoop uq n (append list (AList t))
   else ret list).
Proof. reflexivity. Qed.

Lemma term_S (n : nat) :
  term uq (S n) =
  (first <- peek ;;
   f <- factor uq n ;;
   termLoop uq n (append (newList (Pos first)) (AFactor f))).
Proof. reflexivity. Qed.

Lemma termLoop_S (n : nat) (acc : ListNode) :
  termLoop uq (S n) acc =
  (tok <- peek ;;
   if startsFactor (Typ tok)
   then f <- factor uq n ;; termLoop uq n (append acc (AFactor f))
   else
     tok' <- peekNonSpace n ;;
     match Typ tok' with
     | ItemCaret =>
         next ;;;
         peekNonSpace n ;;;
         f <- factor uq n ;;
         termLoop uq n (append acc (AFactor f))
     | _ => ret acc
     end).
Proof. reflexivity. Qed.

Lemma factor_S (n : nat) :
  factor uq (S n) =
  (first <- peek ;;
   dollar <- factorDollars n 0 ;;
   token <- next ;;
   match Typ token with
   | ItemBare | ItemSingleQuoted | ItemDoubleQuoted =>
       match unquote uq token with
       | None => crash
       | Some (inr err) => errorf (Pos token) "%s" [ArgError err]
       | Some (inl txt) =>
           assignCtx
             (if negb (Z.land (End token) MayContinue =? 0)
              then Some (NewArgContext (Val token))
              else None) ;;;
           ret (mkFactorNode (Pos first) dollar
                  (AString (newString (Pos token) (Val token) txt)))
       end
   | ItemLParen =>
       l <- termList uq n ;;
       closing <- next ;;
       match Typ closing with
       | ItemRParen => ret (mkFactorNode (Pos first) dollar (AList l))
       | _ => unexpected closing "factor of item list"
       end
   | ItemLBracket =>
       tn <- table uq n ;;
       ret (mkFactorNode (Pos first) dollar (ATable tn))
   | _ => unexpected token "factor"
   end).
Proof. reflexivity. Qed.

Lemma table_S (n : nat) :
  table uq (S n) = (first <- peek ;; tableLoop uq n (newTable (Pos first))).
Proof. reflexivity. Qed.

Lemma tableLoop_S (n : nat) (tn : TableNode) :
  tableLoop uq (S n) tn =
  (token <- nextNonSpace n ;;
   if startsFactor (Typ token)
   then
     backup ;;;
     key <- term uq n ;;
     nxt <- peekNonSpace n ;;
     if ItemType_beq (Typ nxt) ItemBare && String.eqb (Val nxt) "="
     then
       next ;;;
       peekNonSpace n ;;;
       valueTerm <- term uq n ;;
       tableLoop uq n (appendToDict tn key valueTerm)
     else tableLoop uq n (appendToList tn key)
   else
     match Typ token with
     | ItemRBracket => ret tn
     | _ => unexpected token "table literal"
     end).
Proof. reflexivity. Qed.

Lemma commandLoop_S (n : nat) (redirs : list Redir) :
  commandLoop uq (S n) redirs =
  (tok <- peekNonSpace n ;;
   match Typ tok with
   | ItemRedirLeader => r <- redir uq n ;; commandLoop uq n (redirs ++ [r])
   | _ => ret redirs
   end).
Proof. reflexivity. Qed.

Lemma pipelineLoop_S (n : nat) (pipe : ListNode) :
  pipelineLoop uq (S n) pipe =
  (c <- command uq n ;;
   token <- next ;;
   match Typ token with
   | ItemPipe => pipelineLoop uq n (append pipe (ACommand c))
   | ItemEndOfLine | ItemEOF => ret (append pipe (ACommand c))
   | _ => unexpected token "end of pipeline"
   end).
Proof. reflexivity. Qed.

(** ** More fuel does not change a result *)

Lemma approx_refl {A} (m : M A) : approx m m.
Proof. intros p. right. reflexivity. Qed.

Lemma approx_outOfFuel {A} (m : M A) : approx outOfFuel m.
Proof. intros p. left. reflexivity. Qed.

Lemma approx_bind {A B} (m1 m2 : M A) (k1 k2 : A -> M B) :
  approx m1 m2 -> (forall a, approx (k1 a) (k2 a)) ->
  approx (bind m1 k1) (bind m2 k2).
Proof.
  intros Hm Hk p. unfold bind.
  destruct (Hm p) as [E|E]; rewrite E; [left; reflexivity|].
  destruct (m2 p) as [a p'| | |]; try (right; reflexivity).
  apply Hk.
Qed.

Lemma approx_trans {A} (m1 m2 m3 : M A) :
  approx m1 m2 -> approx m2 m3 -> approx m1 m3.
Proof.
  intros H12 H23 p. destruct (H12 p) as [E|E]; [left; exact E|].
  rewrite E. apply H23.
Qed.

Ltac approx_step :=
  first
    [ assumption
    | apply approx_outOfFuel
    | apply approx_refl
    | apply approx_bind; [|intros ?]
    | match goal with
      | |- approx (match ?x with _ => _ end) _ => destruct x
      | |- approx (if ?x then _ else _) _ => destruct x
      | |- approx (let '(_, _) := ?x in _) _ => destruct x
      end ].

Ltac approx_auto := repeat approx_step.

Lemma nextNonSpace_mono (n : nat) :
  approx (nextNonSpace n) (nextNonSpace (S n)).
Proof.
  induction n as [|n IH]; [apply approx_outOfFuel|].
  rewrite !nextNonSpace_S. approx_auto.
Qed.

Lemma peekNonSpace_mono (n : nat) :
  approx (peekNonSpace n) (peekNonSpace (S n)).
Proof.
  unfold peekNonSpace. pose proof (nextNonSpace_mono n). approx_auto.
Qed.

Lemma factorDollars_mono (n : nat) :
  forall d, approx (factorDollars n d) (factorDollars (S n) d).
Proof.
  induction n as [|n IH]; intros d; [apply approx_outOfFuel|].
  rewrite !factorDollars_S. pose proof (IH (d + 1)). approx_auto.
Qed.

Lemma engine_mono (n : nat) :
  approx (termList uq n) (termList uq (S n)) /\
  (forall l, approx (termListLoop uq n l) (termListLoop uq (S n) l)) /\
  approx (term uq n) (term uq (S n)) /\
  (forall l, approx (termLoop uq n l) (termLoop uq (S n) l)) /\
  approx (factor uq n) (factor uq (S n)) /\
  approx (table uq n) (table uq (S n)) /\
  (forall t, approx (tableLoop uq n t) (tableLoop uq (S n) t)).
Proof.
  induction n as [|n (IH1 & IH2 & IH3 & IH4 & IH5 & IH6 & IH7)].
  - repeat split; intros; apply approx_outOfFuel.
  - pose proof (peekNonSpace_mono n) as HP.
    pose proof (nextNonSpace_mono n) as HN.
    pose proof (factorDollars_mono n 0) as HD.
    repeat split; intros.
    + rewrite !termList_S. approx_auto. apply IH2.
    + rewrite !termListLoop_S. approx_auto. apply IH2.
    + rewrite !term_S. approx_auto. apply IH4.
    + rewrite !termLoop_S. approx_auto; apply IH4.
    + rewrite !factor_S. approx_auto.
    + rewrite !table_S. approx_auto. apply IH7.
    + rewrite !tableLoop_S. approx_auto; apply IH7.
Qed.

Lemma term_mono (n : nat) : approx (term uq n) (term uq (S n)).
Proof. apply engine_mono. Qed.

Lemma termList_mono (n : nat) : approx (termList uq n) (termList uq (S n)).
Proof. apply engine_mono. Qed.

Lemma redir_mono (n : nat) : approx (redir uq n) (redir uq (S n)).
Proof.
  unfold redir. pose proof (peekNonSpace_mono n). pose proof (term_mono n).
  approx_auto.
Qed.

Lemma commandLoop_mono (n : nat) :
  forall rs, approx (commandLoop uq n rs) (commandLoop uq (S n) rs).
Proof.
  induction n as [|n IH]; intros rs; [apply approx_outOfFuel|].
  rewrite !commandLoop_S.
  pose proof (peekNonSpace_mono n). pose proof (redir_mono n).
  approx_auto. apply IH.
Qed.

Lemma command_mono (n : nat) : approx (command uq n) (command uq (S n)).
Proof.
  unfold command.
  pose proof (termList_mono n). pose proof (commandLoop_mono n []).
  approx_auto.
Qed.

Lemma pipelineLoop_mono (n : nat) :
  forall l, approx (pipelineLoop uq n l) (pipelineLoop uq (S n) l).
Proof.
  induction n as [|n IH]; intros l; [apply approx_outOfFuel|].
  rewrite !pipelineLoop_S. pose proof (command_mono n).
  approx_auto. apply IH.
Qed.

Lemma pipeline_mono (n : nat) : approx (pipeline uq n) (pipeline uq (S n)).
Proof.
  unfold pipeline. pose proof (peekNonSpace_mono n).
  approx_auto; apply pipelineLoop_mono.
Qed.

Lemma approx_le {A} (f : nat -> M A) :
  (forall n, approx (f n) (f (S n))) ->
  forall n m, (n <= m)%nat -> approx (f n) (f m).
Proof.
  intros Hstep n m Hle. induction Hle as [|m Hle IH].
  - apply approx_refl.
  - eapply approx_trans; [exact IH|apply Hstep].
Qed.

(** A result obtained with fuel [n] is the result with any larger fuel. *)
Lemma fuel_le {A} (f : nat -> M A) (n m : nat) (p : Parser) (a : A)
    (p' : Parser) :
  (forall k, approx (f k) (f (S k))) ->
  (n <= m)%nat -> f n p = Done a p' -> f m p = Done a p'.
Proof.
  intros Hstep Hle E.
  destruct (approx_le f Hstep n m Hle p) as [H|H]; congruence.
Qed.

Lemma pipeline_fuel (n m : nat) (p : Parser) :
  (n <= m)%nat -> pipeline uq n p <> OutOfFuel ->
  pipeline uq m p = pipeline uq n p.
Proof.
  intros Hle Hne.
  destruct (approx_le (pipeline uq) pipeline_mono n m Hle p) as [H|H];
    congruence.
Qed.

Variable Lex : string -> string -> Lexer.

Lemma Parse_fuel (n m : nat) (p : Parser) (txt : string) (tb : bool) :
  (n <= m)%nat -> Parse uq Lex n p txt tb <> ParseOutOfFuel ->
  Parse uq Lex m p txt tb = Parse uq Lex n p txt tb.
Proof.
  intros Hle Hne. unfold Parse in *.
  rewrite (pipeline_fuel n m _ Hle); [reflexivity|].
  intros E. rewrite E in Hne. congruence.
Qed.

End Equations.

(** Running [bind] on a known first outcome. *)
Ltac run_with H := unfold bind at 1; rewrite H; cbv beta iota.
Ltac run_in H E := unfold bind at 1 in H; rewrite E in H; cbv beta iota in H.

(** ** The literal decoder and the redirection resolver *)

Section Resolver.

Variable uq : string -> string + GoError.

Import GoString GoStringFacts.

Lemma unquote_single_quoted_inner (tok : Item) (c c' : ascii) (inner : string) :
  Typ tok = ItemSingleQuoted ->
  Val tok = String c (inner ++ String c' "") ->
  unquote uq tok = Some (inl (collapse inner)).
Proof.
  intros HT HV. unfold unquote. rewrite HT, HV.
  change (String c (inner ++ String c' ""))
    with (String c "" ++ inner ++ String c' "").
  rewrite slice_middle.
  - rewrite Replace_collapse. reflexivity.
  - reflexivity.
  - rewrite !len_app. change (len (String c "")) with 1.
    change (len (String c' "")) with 1. lia.
Qed.

Lemma splitLeader_plain (dir : string) :
  IndexRune dir "["%char = -1 -> splitLeader dir = Some (dir, "").
Proof. intros H. unfold splitLeader. rewrite H. reflexivity. Qed.

Lemma splitLeader_bracketed (dir qual : string) (c : ascii) :
  IndexRune dir "["%char = -1 ->
  splitLeader (dir ++ String "["%char (qual ++ String c "")) = Some (dir, qual).
Proof.
  intros H. unfold splitLeader. cbv zeta.
  rewrite (IndexRune_app_found dir _ _ H).
  pose proof (len_nonneg dir).
  replace (len dir =? -1) with false by (symmetry; apply Z.eqb_neq; lia).
  cbn [negb].
  rewrite slice_prefix by reflexivity.
  change (dir ++ String "["%char (qual ++ String c ""))
    with (dir ++ String "["%char "" ++ qual ++ String c "").
  replace (dir ++ String "["%char "" ++ qual ++ String c "")
    with ((dir ++ String "["%char "") ++ qual ++ String c "").
  - rewrite slice_middle; [reflexivity| |].
    + rewrite len_app. reflexivity.
    + rewrite !len_app. change (len (String "["%char "")) with 1.
      change (len (String c "")) with 1. lia.
  - clear. induction dir as [|x d IH]; [reflexivity|].
    cbn [String.append]. f_equal. exact IH.
Qed.

Lemma redir_unfold (n : nat) (p p1 : Parser) (leader : Item)
    (dir qual : string) :
  next p = Done leader p1 ->
  splitLeader (Val leader) = Some (dir, qual) ->
  redir uq n p =
  match directionTable dir with
  | None =>
      raised p1 (Pos leader) "Unexpected redirection direction %q"
        [ArgString dir]
  | Some (fd0, flag) =>
      if 0 <? len qual
      then
        let j := IndexRune qual "="%char in
        if negb (j =? -1)
        then
          match slice qual 0 j, slice qual (j + 1) (len qual) with
          | Some lhs, Some rhs =>
              match (if 0 <? len lhs then Atou lhs else Some fd0) with
              | None =>
                  raised p1 (Pos leader)
                    "Invalid new fd in qualified redirection %q"
                    [ArgString lhs]
              | Some fd =>
                  if 0 <? len rhs
                  then
                    match Atou rhs with
                    | Some oldfd => Done (FdRedir fd oldfd) p1
                    | None =>
                        raised p1 (Pos leader)
                          "Invalid old fd in qualified redirection %q"
                          [ArgString rhs]
                    end
                  else Done (CloseRedir fd) p1
              end
          | _, _ => Crashed
          end
        else
          match Atou qual with
          | Some v => toFile uq n v flag p1
          | None =>
              raised p1 (Pos leader)
                "Invalid new fd in qualified redirection %q" [ArgString qual]
          end
      else toFile uq n fd0 flag p1
  end.
Proof.
  intros Hnext Hsplit. unfold redir, bind at 1. rewrite Hnext. cbv zeta.
  unfold splitLeader in Hsplit. cbv zeta in Hsplit. rewrite Hsplit.
  unfold directionTable.
  destruct (String.eqb dir "<"); [|destruct (String.eqb dir "<>");
    [|destruct (String.eqb dir ">"); [|destruct (String.eqb dir ">>")]]];
  try reflexivity.
  all: unfold bind at 1, ret at 1.
  all: destruct (0 <? len qual); [|reflexivity].
  all: destruct (negb (IndexRune qual "="%char =? -1)).
  all: try (destruct (Atou qual); reflexivity).
  all: destruct (slice qual 0 (IndexRune qual "="%char)) as [lhs|];
    [|reflexivity];
    destruct (slice qual (IndexRune qual "="%char + 1) (len qual)) as [rhs|];
    [|reflexivity].
  all: unfold bind at 2; unfold bind at 1.
  all: destruct (0 <? len lhs); [destruct (Atou lhs)|]; try reflexivity.
  all: unfold ret at 1; destruct (0 <? len rhs); try reflexivity.
  all: destruct (Atou rhs); reflexivity.
Qed.

Lemma directionTable_other (dir : string) :
  dir <> "<" -> dir <> "<>" -> dir <> ">" -> dir <> ">>" ->
  directionTable dir = None.
Proof.
  intros H1 H2 H3 H4. unfold directionTable.
  apply String.eqb_neq in H1, H2, H3, H4.
  rewrite H1, H2, H3, H4. reflexivity.
Qed.

Lemma append_empty (s : string) : s ++ "" = s.
Proof. induction s as [|c s IH]; cbn; [reflexivity|rewrite IH; reflexivity]. Qed.

(** The split of a leader that is a direction alone, or a direction
    followed by a bracketed qualifier. *)
Lemma splitLeader_shape (v dir qual : string) :
  IndexRune dir "["%char = -1 ->
  (v = dir /\ qual = "") \/ v = dir ++ "[" ++ qual ++ "]" ->
  splitLeader v = Some (dir, qual).
Proof.
  intros Hdir [[-> ->]| ->].
  - apply splitLeader_plain, Hdir.
  - apply splitLeader_bracketed, Hdir.
Qed.

(** C1: the direction of a redirection leader is mapped to default fd and
    open flag as [<] to (0, read-only), [<>] to (0, read-write, create),
    [>] to (1, write, create) and [>>] to (1, write, create, append); any
    other direction raises the panic of [errorf] at the leader's position;
    a leader without qualifier yields the [FilenameRedir] of the default fd
    and the mapped flag on the term that follows, and a qualifier that is a
    number replaces the fd only. *)
Theorem redir_direction (n : nat) (p p1 : Parser) (leader : Item)
    (dir qual : string) :
  next p = Done leader p1 ->
  IndexRune dir "["%char = -1 ->
  (Val leader = dir /\ qual = "") \/ Val leader = dir ++ "[" ++ qual ++ "]" ->
  (directionTable "<" = Some (0, os.O_RDONLY) /\
   directionTable "<>" = Some (0, Z.lor os.O_RDWR os.O_CREATE) /\
   directionTable ">" = Some (1, Z.lor os.O_WRONLY os.O_CREATE) /\
   directionTable ">>" =
     Some (1, Z.lor (Z.lor os.O_WRONLY os.O_CREATE) os.O_APPEND) /\
   (dir <> "<" -> dir <> "<>" -> dir <> ">" -> dir <> ">>" ->
    directionTable dir = None)) /\
  match directionTable dir with
  | None =>
      redir uq n p =
      Panicked
        (NewContextualError (Name p1) (text p1) (Pos leader)
           "Unexpected redirection direction %q" [ArgString dir])
        (setRoot None p1)
  | Some (fd0, flag) =>
      (qual = "" ->
       redir uq n p =
       (peekNonSpace n ;;; t <- term uq n ;; ret (FilenameRedir fd0 flag t))
         p1) /\
      (forall v, qual <> "" -> IndexRune qual "="%char = -1 ->
       Atou qual = Some v ->
       redir uq n p =
       (peekNonSpace n ;;; t <- term uq n ;; ret (FilenameRedir v flag t)) p1)
  end.
Proof.
  intros Hnext Hdir Hshape.
  split.
  { repeat split; try reflexivity. apply directionTable_other. }
  rewrite (redir_unfold n p p1 leader dir qual Hnext
             (splitLeader_shape _ _ _ Hdir Hshape)).
  destruct (directionTable dir) as [[fd0 flag]|]; [|reflexivity].
  split.
  - intros ->. reflexivity.
  - intros v Hne Heq Hv. rewrite len_pos_iff.
    apply String.eqb_neq in Hne. rewrite Hne. cbn [negb]. cbv zeta.
    rewrite Heq, Hv. reflexivity.
Qed.

Lemma slice_lhs (lhs rhs : string) :
  slice (lhs ++ String "="%char rhs) 0 (len lhs) = Some lhs.
Proof. apply slice_prefix. reflexivity. Qed.

Lemma append_assoc' (a b c : string) : (a ++ b) ++ c = a ++ b ++ c.
Proof.
  induction a as [|x a IH]; cbn [String.append]; [reflexivity|].
  rewrite IH. reflexivity.
Qed.

Lemma slice_rhs (lhs rhs : string) :
  slice (lhs ++ String "="%char rhs) (len lhs + 1)
        (len (lhs ++ String "="%char rhs)) = Some rhs.
Proof.
  change (lhs ++ String "="%char rhs) with (lhs ++ String "="%char "" ++ rhs).
  rewrite <- append_assoc'.
  apply slice_suffix.
  - rewrite len_app. reflexivity.
  - rewrite !len_app. reflexivity.
Qed.

(** The qualifier [lhs=rhs] of a leader with a known direction. *)
Lemma redir_equals (n : nat) (p p1 : Parser) (leader : Item)
    (dir lhs rhs : string) (fd0 flag : Z) :
  next p = Done leader p1 ->
  IndexRune dir "["%char = -1 ->
  IndexRune lhs "="%char = -1 ->
  Val leader = dir ++ "[" ++ (lhs ++ "=" ++ rhs) ++ "]" ->
  directionTable dir = Some (fd0, flag) ->
  redir uq n p =
  match (match lhs with EmptyString => Some fd0 | _ => Atou lhs end) with
  | None =>
      Panicked
        (NewContextualError (Name p1) (text p1) (Pos leader)
           "Invalid new fd in qualified redirection %q" [ArgString lhs])
        (setRoot None p1)
  | Some fd =>
      match rhs with
      | EmptyString => Done (CloseRedir fd) p1
      | _ =>
          match Atou rhs with
          | Some oldfd => Done (FdRedir fd oldfd) p1
          | None =>
              Panicked
                (NewContextualError (Name p1) (text p1) (Pos leader)
                   "Invalid old fd in qualified redirection %q"
                   [ArgString rhs])
                (setRoot None p1)
          end
      end
  end.
Proof.
  intros Hnext Hdir Hlhs Hval Htab.
  rewrite (redir_unfold n p p1 leader dir (lhs ++ "=" ++ rhs) Hnext
             (splitLeader_shape _ _ _ Hdir (or_intror Hval))).
  rewrite Htab.
  pose proof (len_nonneg lhs) as Hl. pose proof (len_nonneg rhs) as Hr.
  replace (0 <? len (lhs ++ "=" ++ rhs)) with true
    by (symmetry; apply Z.ltb_lt; rewrite len_app;
        change ("=" ++ rhs) with (String "="%char rhs);
        rewrite len_String; lia).
  cbv zeta. change ("=" ++ rhs) with (String "="%char rhs).
  rewrite (IndexRune_app_found lhs rhs _ Hlhs).
  replace (len lhs =? -1) with false by (symmetry; apply Z.eqb_neq; lia).
  cbn [negb]. rewrite slice_lhs, slice_rhs.
  rewrite !len_pos_iff.
  destruct lhs as [|a lhs]; destruct rhs as [|b rhs]; cbn [String.eqb negb];
    reflexivity.
Qed.

(** C2: a qualifier [lhs=rhs] is split at its first [=]; a non-empty [lhs]
    replaces the default fd and a non-numeric one raises the panic of
    [errorf]; a non-empty [rhs] is the old fd of an [FdRedir], an empty one
    gives a [CloseRedir]; in both cases the parser is left right after the
    leader.  The leader [>[2=1]] gives [FdRedir 2 1] and [>[3=]] gives
    [CloseRedir 3]. *)
Theorem redir_fd_operations (n : nat) (p p1 : Parser) (leader : Item) :
  next p = Done leader p1 ->
  (forall (dir lhs rhs : string) (fd0 flag : Z),
     IndexRune dir "["%char = -1 ->
     IndexRune lhs "="%char = -1 ->
     Val leader = dir ++ "[" ++ (lhs ++ "=" ++ rhs) ++ "]" ->
     directionTable dir = Some (fd0, flag) ->
     redir uq n p =
     match (match lhs with EmptyString => Some fd0 | _ => Atou lhs end) with
     | None =>
         Panicked
           (NewContextualError (Name p1) (text p1) (Pos leader)
              "Invalid new fd in qualified redirection %q" [ArgString lhs])
           (setRoot None p1)
     | Some fd =>
         match rhs with
         | EmptyString => Done (CloseRedir fd) p1
         | _ =>
             match Atou rhs with
             | Some oldfd => Done (FdRedir fd oldfd) p1
             | None =>
                 Panicked
                   (NewContextualError (Name p1) (text p1) (Pos leader)
                      "Invalid old fd in qualified redirection %q"
                      [ArgString rhs])
                   (setRoot None p1)
             end
         end
     end) /\
  (Val leader = ">[2=1]" -> redir uq n p = Done (FdRedir 2 1) p1) /\
  (Val leader = ">[3=]" -> redir uq n p = Done (CloseRedir 3) p1).
Proof.
  intros Hnext. split; [|split].
  - intros dir lhs rhs fd0 flag. apply redir_equals, Hnext.
  - intros Hv.
    rewrite (redir_equals n p p1 leader ">" "2" "1" 1
               (Z.lor os.O_WRONLY os.O_CREATE) Hnext eq_refl eq_refl Hv eq_refl).
    reflexivity.
  - intros Hv.
    rewrite (redir_equals n p p1 leader ">" "3" "" 1
               (Z.lor os.O_WRONLY os.O_CREATE) Hnext eq_refl eq_refl Hv eq_refl).
    reflexivity.
Qed.

(** C6 (as amended): decoding a single-quoted token drops its first and its
    last byte and replaces, from the left, every two consecutive back quotes
    of what is between them by one back quote; nothing else changes. *)
Theorem unquote_single_quoted (tok : Item) (c c' : ascii) (inner : string) :
  Typ tok = ItemSingleQuoted ->
  Val tok = String c (inner ++ String c' "") ->
  unquote uq tok = Some (inl (collapse inner)).
Proof. apply unquote_single_quoted_inner. Qed.

End Resolver.

(** ** Terms, tables and the shape of parsed inputs *)

Section Shapes.

Variable uq : string -> string + GoError.
Variable Lex : string -> string -> Lexer.

(** A pipeline computed with fuel [N] from the tokens of the lexer is the
    tree that [Parse] returns with any fuel from [N] on. *)
Lemma Parse_of_pipeline (N : nat) (toks : list Item) (e : Z) (tree : ListNode)
    (p : Parser) (txt : string) (tb : bool) (n : nat) :
  (forall nm r c tx b t0 t1 t2, exists p',
     pipeline uq N
       (mkParser nm r c tx b (Some (mkLexer toks e)) t0 t1 t2 0) =
     Done tree p') ->
  Lex (Name p) txt = mkLexer toks e ->
  (N <= n)%nat ->
  exists p', Parse uq Lex n p txt tb = Returned p' (Some p') None /\
             Root p' = Some (AList tree).
Proof.
  intros Hpipe HL Hn.
  assert (HN : exists p', Parse uq Lex N p txt tb = Returned p' (Some p') None
                          /\ Root p' = Some (AList tree)).
  { unfold Parse. rewrite HL. destruct p as [nm r c tx b l t0 t1 t2 k].
    cbv beta iota zeta delta
      [setText setLex setPeekCount Name Root Ctx text tab lex token0 token1
       token2 peekCount].
    destruct (Hpipe nm r c txt tb t0 t1 t2) as [p' E]. rewrite E.
    eexists. split; reflexivity. }
  destruct HN as (p' & E & R). exists p'. split; [|exact R].
  rewrite (Parse_fuel uq Lex N n); [exact E|exact Hn|].
  rewrite E. discriminate.
Qed.

(** One turn of the loop of [term]: a token that starts a factor is joined
    at once; otherwise spaces are skipped and a caret joins the factor that
    follows it; anything else ends the term. *)
Lemma termLoop_step (n : nat) (acc : ListNode) (p p1 : Parser) (tok : Item) :
  peek p = Done tok p1 ->
  (startsFactor (Typ tok) = true ->
   termLoop uq (S n) acc p =
   (f <- factor uq n ;; termLoop uq n (append acc (AFactor f))) p1) /\
  (startsFactor (Typ tok) = false ->
   forall tok' p2, peekNonSpace n p1 = Done tok' p2 ->
   (Typ tok' <> ItemCaret -> termLoop uq (S n) acc p = Done acc p2) /\
   (Typ tok' = ItemCaret ->
    forall tk p3 tk' p4,
    next p2 = Done tk p3 -> peekNonSpace n p3 = Done tk' p4 ->
    termLoop uq (S n) acc p =
    (f <- factor uq n ;; termLoop uq n (append acc (AFactor f))) p4)).
Proof.
  intros Hpeek.
  split; intros Hsf.
  - rewrite termLoop_S. run_with Hpeek. rewrite Hsf. reflexivity.
  - intros tok' p2 Hpns. split.
    + intros Hne. rewrite termLoop_S. run_with Hpeek. rewrite Hsf.
      run_with Hpns. destruct (Typ tok'); try reflexivity. congruence.
    + intros Hc tk p3 tk' p4 Hnext Hpns'.
      rewrite termLoop_S. run_with Hpeek. rewrite Hsf.
      run_with Hpns. rewrite Hc.
      run_with Hnext. run_with Hpns'. reflexivity.
Qed.

(** The loop of [term] only appends factors to the list it is given. *)
Lemma termLoop_extends (n : nat) :
  forall acc p t p',
  termLoop uq n acc p = Done t p' ->
  exists fs, t = mkListNode (match acc with mkListNode pos _ => pos end)
                   (Nodes acc ++ map AFactor fs).
Proof.
  induction n as [|n IH]; intros acc p t p' H; [discriminate|].
  rewrite termLoop_S in H. unfold bind at 1 in H.
  destruct (peek p) as [tok p1| | |]; try discriminate.
  assert (Hjoin : forall q,
    (f <- factor uq n ;; termLoop uq n (append acc (AFactor f))) q
      = Done t p' ->
    exists fs, t = mkListNode (match acc with mkListNode pos _ => pos end)
                     (Nodes acc ++ map AFactor fs)).
  { intros q Hq. unfold bind at 1 in Hq.
    destruct (factor uq n q) as [f q1| | |]; try discriminate.
    apply IH in Hq. destruct Hq as [fs ->].
    exists (f :: fs). destruct acc as [pos ns]. cbn [append Nodes map].
    rewrite <- app_assoc. reflexivity. }
  destruct (startsFactor (Typ tok)); [exact (Hjoin _ H)|].
  unfold bind at 1 in H.
  destruct (peekNonSpace n p1) as [tok' p2| | |]; try discriminate.
  destruct (Typ tok');
    try (injection H as <- _; exists []; destruct acc; cbn [Nodes map];
         rewrite app_nil_r; reflexivity).
  unfold bind at 1 in H. destruct (next p2) as [tk p3| | |]; try discriminate.
  unfold bind at 1 in H.
  destruct (peekNonSpace n p3) as [tk' p4| | |]; try discriminate.
  exact (Hjoin _ H).
Qed.

(** A term is a list of factors, and has a first one. *)
Lemma term_factors (n : nat) (p : Parser) (t : ListNode) (p' : Parser) :
  term uq n p = Done t p' ->
  exists pos f fs, t = mkListNode pos (map AFactor (f :: fs)).
Proof.
  destruct n as [|n]; [discriminate|]. rewrite term_S. intros H.
  unfold bind at 1 in H. destruct (peek p) as [first p1| | |]; try discriminate.
  unfold bind at 1 in H.
  destruct (factor uq n p1) as [f p2| | |]; try discriminate.
  apply termLoop_extends in H. destruct H as [fs ->].
  exists (Pos first), f, fs. reflexivity.
Qed.

(** C4 (as amended): within a term, a factor that follows at once and a
    factor that follows a caret (with spaces around it or not) are both
    appended to the child list of the term, by the same continuation; the
    finished term is its position and the list of its factors in source
    order, and holds nothing else. *)
Theorem term_joins_as_siblings (n : nat) (acc : ListNode) (p p1 : Parser)
    (tok : Item) :
  peek p = Done tok p1 ->
  (startsFactor (Typ tok) = true ->
   termLoop uq (S n) acc p =
   (f <- factor uq n ;; termLoop uq n (append acc (AFactor f))) p1) /\
  (startsFactor (Typ tok) = false ->
   forall tok' p2 tk p3 tk' p4,
   peekNonSpace n p1 = Done tok' p2 -> Typ tok' = ItemCaret ->
   next p2 = Done tk p3 -> peekNonSpace n p3 = Done tk' p4 ->
   termLoop uq (S n) acc p =
   (f <- factor uq n ;; termLoop uq n (append acc (AFactor f))) p4) /\
  (forall t p',
   termLoop uq (S n) acc p = Done t p' ->
   exists fs, t = mkListNode (match acc with mkListNode pos _ => pos end)
                    (Nodes acc ++ map AFactor fs)).
Proof.
  intros Hpeek. destruct (termLoop_step n acc p p1 tok Hpeek) as [H1 H2].
  split; [exact H1|]. split.
  - intros Hsf tok' p2 tk p3 tk' p4 Hp Hc Hn Hp'.
    destruct (H2 Hsf tok' p2 Hp) as [_ H]. exact (H Hc tk p3 tk' p4 Hn Hp').
  - intros t p'. apply termLoop_extends.
Qed.

(** One turn of the loop of [table] on an element. *)
Lemma tableLoop_step (n : nat) (tn : TableNode) (p p1 p1' p2 p3 : Parser)
    (token nxt : Item) (key : ListNode) :
  nextNonSpace n p = Done token p1 ->
  startsFactor (Typ token) = true ->
  backup p1 = Done tt p1' ->
  term uq n p1' = Done key p2 ->
  peekNonSpace n p2 = Done nxt p3 ->
  (Typ nxt = ItemBare -> Val nxt = "=" ->
   tableLoop uq (S n) tn p =
   (next ;;; peekNonSpace n ;;; valueTerm <- term uq n ;;
    tableLoop uq n (appendToDict tn key valueTerm)) p3) /\
  (Typ nxt <> ItemBare \/ Val nxt <> "=" ->
   tableLoop uq (S n) tn p = tableLoop uq n (appendToList tn key) p3).
Proof.
  intros Hn Hsf Hb Ht Hp.
  split.
  - intros HT HV. rewrite tableLoop_S. run_with Hn. rewrite Hsf.
    run_with Hb. run_with Ht. run_with Hp. rewrite HT, HV. reflexivity.
  - intros Hne. rewrite tableLoop_S. run_with Hn. rewrite Hsf.
    run_with Hb. run_with Ht. run_with Hp.
    destruct Hne as [Hne|Hne].
    + destruct (Typ nxt); try reflexivity. congruence.
    + apply String.eqb_neq in Hne. rewrite Hne, andb_false_r. reflexivity.
Qed.

Lemma pipeline_tableSpaced nm r c tx b t0 t1 t2 (e : Z) :
  exists p',
  pipeline uq 12 (mkParser nm r c tx b (Some (mkLexer tableSpaced e)) t0 t1 t2 0)
  = Done
      (oneCommand 0
         [mkListNode 0
            [AFactor
               (mkFactorNode 0 0
                  (ATable
                     (mkTableNode 1
                        [bareTerm (tokBare 1 "a"); bareTerm (tokBare 3 "b")]
                        [(bareTerm (tokBare 5 "c"),
                          bareTerm (tokBare 9 "d"))])))]])
      p'.
Proof. eexists. vm_compute. reflexivity. Qed.

(** C3 (as amended): an element of a table literal is classified after its
    leading term has been parsed: when the next token that is not a space is
    the bare token [=], the [=] is consumed, a value term is parsed and the
    pair goes to the mapping part; otherwise the term goes to the list part.
    With spaces around the [=], the literal [[a b c = d]] has the list part
    [a], [b] and the mapping part of the one pair ([c], [d]). *)
Theorem table_elements (n : nat) (tn : TableNode) (p : Parser) :
  (forall (p1 p1' p2 p3 : Parser) (token nxt : Item) (key : ListNode),
   nextNonSpace n p = Done token p1 ->
   startsFactor (Typ token) = true ->
   backup p1 = Done tt p1' ->
   term uq n p1' = Done key p2 ->
   peekNonSpace n p2 = Done nxt p3 ->
   (Typ nxt = ItemBare -> Val nxt = "=" ->
    tableLoop uq (S n) tn p =
    (next ;;; peekNonSpace n ;;; valueTerm <- term uq n ;;
     tableLoop uq n (appendToDict tn key valueTerm)) p3) /\
   (Typ nxt <> ItemBare \/ Val nxt <> "=" ->
    tableLoop uq (S n) tn p = tableLoop uq n (appendToList tn key) p3)) /\
  (forall (q : Parser) (txt : string) (tb : bool) (e : Z) (m : nat),
   Lex (Name q) txt = mkLexer tableSpaced e ->
   (12 <= m)%nat ->
   exists q',
     Parse uq Lex m q txt tb = Returned q' (Some q') None /\
     Root q' =
     Some (AList
       (oneCommand 0
          [mkListNode 0
             [AFactor
                (mkFactorNode 0 0
                   (ATable
                      (mkTableNode 1
                         [bareTerm (tokBare 1 "a"); bareTerm (tokBare 3 "b")]
                         [(bareTerm (tokBare 5 "c"),
                           bareTerm (tokBare 9 "d"))])))]]))).
Proof.
  split.
  - intros p1 p1' p2 p3 token nxt key. apply tableLoop_step.
  - intros q txt tb e m HL Hm.
    apply (Parse_of_pipeline 12 tableSpaced e _ q txt tb m); try assumption.
    intros. apply pipeline_tableSpaced.
Qed.

Lemma pipeline_two_terms nm r c tx b t0 t1 t2 (e : Z)
    (pa : Z) (va : string) (ea : Z) (ps : Z) (vs : string) (es : Z)
    (pb : Z) (vb : string) (eb : Z) :
  exists p',
  pipeline uq 9
    (mkParser nm r c tx b
       (Some (mkLexer [mkItem ItemBare pa va ea; mkItem ItemSpace ps vs es;
                       mkItem ItemBare pb vb eb] e)) t0 t1 t2 0)
  = Done
      (oneCommand pa
         [bareTerm (mkItem ItemBare pa va ea);
          bareTerm (mkItem ItemBare pb vb eb)])
      p'.
Proof. eexists. vm_compute. reflexivity. Qed.

Lemma pipeline_caret_term nm r c tx b t0 t1 t2 (e : Z)
    (pa : Z) (va : string) (ea : Z) (ps : Z) (vs : string) (es : Z)
    (pc : Z) (vc : string) (ec : Z) (ps' : Z) (vs' : string) (es' : Z)
    (pb : Z) (vb : string) (eb : Z) :
  exists p',
  pipeline uq 9
    (mkParser nm r c tx b
       (Some (mkLexer [mkItem ItemBare pa va ea; mkItem ItemSpace ps vs es;
                       mkItem ItemCaret pc vc ec;
                       mkItem ItemSpace ps' vs' es';
                       mkItem ItemBare pb vb eb] e)) t0 t1 t2 0)
  = Done
      (oneCommand pa
         [mkListNode pa [bareFactor (mkItem ItemBare pa va ea);
                         bareFactor (mkItem ItemBare pb vb eb)]])
      p'.
Proof. eexists. vm_compute. reflexivity. Qed.

(** C10: in the loop of [term] the look-ahead for a juxtaposed factor is the
    very next token: when that token is a space the term ends, unless the
    next token that is not a space is a caret, which joins the factor after
    it, spaces skipped.  So the words [a b] are two terms of one factor each
    and [a ^ b] is one term of two factors. *)
Theorem juxtaposition_needs_adjacency (n : nat) (acc : ListNode)
    (p : Parser) :
  (forall tok p1 tok' p2,
   peek p = Done tok p1 -> Typ tok = ItemSpace ->
   peekNonSpace n p1 = Done tok' p2 ->
   (Typ tok' <> ItemCaret -> termLoop uq (S n) acc p = Done acc p2) /\
   (Typ tok' = ItemCaret ->
    forall tk p3 tk' p4,
    next p2 = Done tk p3 -> peekNonSpace n p3 = Done tk' p4 ->
    termLoop uq (S n) acc p =
    (f <- factor uq n ;; termLoop uq n (append acc (AFactor f))) p4)) /\
  (forall (a s b : Item) (q : Parser) (txt : string) (tb : bool) (e : Z)
          (m : nat),
   Typ a = ItemBare -> Typ s = ItemSpace -> Typ b = ItemBare ->
   Lex (Name q) txt = mkLexer [a; s; b] e ->
   (9 <= m)%nat ->
   exists q',
     Parse uq Lex m q txt tb = Returned q' (Some q') None /\
     Root q' = Some (AList (oneCommand (Pos a) [bareTerm a; bareTerm b]))) /\
  (forall (a s caret s' b : Item) (q : Parser) (txt : string) (tb : bool)
          (e : Z) (m : nat),
   Typ a = ItemBare -> Typ s = ItemSpace -> Typ caret = ItemCaret ->
   Typ s' = ItemSpace -> Typ b = ItemBare ->
   Lex (Name q) txt = mkLexer [a; s; caret; s'; b] e ->
   (9 <= m)%nat ->
   exists q',
     Parse uq Lex m q txt tb = Returned q' (Some q') None /\
     Root q' =
     Some (AList (oneCommand (Pos a)
                    [mkListNode (Pos a) [bareFactor a; bareFactor b]]))).
Proof.
  split; [|split].
  - intros tok p1 tok' p2 Hpeek HT Hp.
    destruct (termLoop_step n acc p p1 tok Hpeek) as [_ H].
    apply H; [rewrite HT; reflexivity|exact Hp].
  - intros [ta pa va ea] [ts ps vs es] [tb' pb vb eb] q txt tb e m
      Ha Hs Hb HL Hm.
    cbn [Typ] in Ha, Hs, Hb. subst ta ts tb'.
    eapply (Parse_of_pipeline 9); [|exact HL|exact Hm].
    intros. apply pipeline_two_terms.
  - intros [ta pa va ea] [ts ps vs es] [tc pc vc ec] [ts' ps' vs' es']
      [tb' pb vb eb] q txt tb e m Ha Hs Hc Hs' Hb HL Hm.
    cbn [Typ] in Ha, Hs, Hc, Hs', Hb. subst ta ts tc ts' tb'.
    eapply (Parse_of_pipeline 9); [|exact HL|exact Hm].
    intros. apply pipeline_caret_term.
Qed.

End Shapes.

(** ** Every parsed tree is well formed *)

Section WellFormed.

Variable uq : string -> string + GoError.

Lemma post_ret {A} (a : A) (Q : A -> Prop) : Q a -> post (ret a) Q.
Proof. intros H p. exact H. Qed.

Lemma post_bind {A B} (m : M A) (k : A -> M B) (Q1 : A -> Prop)
    (Q : B -> Prop) :
  post m Q1 -> (forall a, Q1 a -> post (k a) Q) -> post (bind m k) Q.
Proof.
  intros Hm Hk p. unfold bind. specialize (Hm p).
  destruct (m p) as [a p'| | |]; try exact I. apply Hk, Hm.
Qed.

Lemma post_any {A B} (m : M A) (k : A -> M B) (Q : B -> Prop) :
  (forall a, post (k a) Q) -> post (bind m k) Q.
Proof.
  intros Hk. apply (post_bind m k (fun _ => True)); [intros p; destruct (m p); exact I|].
  intros a _. apply Hk.
Qed.

Lemma post_errorf {A} pos format args (Q : A -> Prop) :
  post (errorf pos format args) Q.
Proof. intros p. exact I. Qed.

Lemma post_unexpected {A} tok context (Q : A -> Prop) :
  post (unexpected tok context) Q.
Proof. intros p. exact I. Qed.

Lemma post_crash {A} (Q : A -> Prop) : post crash Q.
Proof. intros p. exact I. Qed.

Lemma post_outOfFuel {A} (Q : A -> Prop) : post outOfFuel Q.
Proof. intros p. exact I. Qed.

Lemma wfList_children (role : Role) (l : ListNode) :
  wfList role l = true -> forallb (wfChild role) (Nodes l) = true.
Proof.
  destruct l as [pos ns]. cbn [wfList Nodes]. intros H.
  apply andb_true_iff in H. apply H.
Qed.

Lemma wfList_append (role : Role) (l : ListNode) (n : Node) :
  forallb (wfChild role) (Nodes l) = true ->
  wfChild role n = true ->
  wfList role (append l n) = true.
Proof.
  destruct l as [pos ns]. cbn [append wfList Nodes]. intros Hns Hn.
  rewrite forallb_app, Hns. cbn [forallb]. rewrite Hn.
  destruct role, ns; reflexivity.
Qed.

Lemma wfList_first (role : Role) (pos : Z) (n : Node) :
  wfChild role n = true -> wfList role (append (newList pos) n) = true.
Proof. intros H. apply wfList_append; [reflexivity|exact H]. Qed.

Lemma wfList_next (role : Role) (l : ListNode) (n : Node) :
  wfList role l = true -> wfChild role n = true ->
  wfList role (append l n) = true.
Proof. intros Hl. apply wfList_append, wfList_children, Hl. Qed.

Lemma wfTable_appendToList (tn : TableNode) (t : ListNode) :
  wfTable tn = true -> wfList termRole t = true ->
  wfTable (appendToList tn t) = true.
Proof.
  destruct tn as [pos l d]. cbn [wfTable appendToList]. intros H Ht.
  apply andb_true_iff in H. destruct H as [Hl Hd].
  rewrite forallb_app, Hl, Hd. cbn [forallb]. rewrite Ht. reflexivity.
Qed.

Lemma wfTable_appendToDict (tn : TableNode) (k v : ListNode) :
  wfTable tn = true -> wfList termRole k = true -> wfList termRole v = true ->
  wfTable (appendToDict tn k v) = true.
Proof.
  destruct tn as [pos l d]. cbn [wfTable appendToDict]. intros H Hk Hv.
  apply andb_true_iff in H. destruct H as [Hl Hd].
  rewrite forallb_app, Hl, Hd. cbn [forallb fst snd]. rewrite Hk, Hv.
  reflexivity.
Qed.

Ltac post_step :=
  first
    [ apply post_errorf
    | apply post_unexpected
    | apply post_crash
    | apply post_outOfFuel
    | apply post_ret
    | match goal with
      | |- post (match ?x with _ => _ end) _ => destruct x
      | |- post (if ?x then _ else _) _ => destruct x
      end ].

Lemma engine_wf (n : nat) :
  post (termList uq n) (fun l => wfList termListRole l = true) /\
  (forall l, wfList termListRole l = true ->
     post (termListLoop uq n l) (fun l' => wfList termListRole l' = true)) /\
  post (term uq n) (fun t => wfList termRole t = true) /\
  (forall t, wfList termRole t = true ->
     post (termLoop uq n t) (fun t' => wfList termRole t' = true)) /\
  post (factor uq n) (fun f => wfFactor f = true) /\
  post (table uq n) (fun t => wfTable t = true) /\
  (forall t, wfTable t = true ->
     post (tableLoop uq n t) (fun t' => wfTable t' = true)).
Proof.
  induction n as [|n (IHtl & IHtll & IHt & IHtlp & IHf & IHtb & IHtbl)].
  - repeat split; intros; apply post_outOfFuel.
  - repeat split; intros.
    + rewrite termList_S. apply post_any; intros first.
      eapply post_bind; [exact IHt|]. intros t Ht.
      apply IHtll. apply wfList_first. exact Ht.
    + rewrite termListLoop_S. apply post_any; intros tok.
      destruct (startsFactor (Typ tok)); [|apply post_ret; assumption].
      eapply post_bind; [exact IHt|]. intros t Ht.
      apply IHtll. apply wfList_next; assumption.
    + rewrite term_S. apply post_any; intros first.
      eapply post_bind; [exact IHf|]. intros f Hf.
      apply IHtlp. apply wfList_first. exact Hf.
    + rewrite termLoop_S. apply post_any; intros tok.
      assert (Hjoin : post (f <- factor uq n ;;
                            termLoop uq n (append t (AFactor f)))
                           (fun t' => wfList termRole t' = true)).
      { eapply post_bind; [exact IHf|]. intros f Hf.
        apply IHtlp. apply wfList_next; assumption. }
      destruct (startsFactor (Typ tok)); [exact Hjoin|].
      apply post_any; intros tok'.
      destruct (Typ tok'); try (apply post_ret; assumption).
      apply post_any; intros _. apply post_any; intros _. exact Hjoin.
    + rewrite factor_S. apply post_any; intros first.
      apply post_any; intros dollar. apply post_any; intros token.
      destruct (Typ token); try apply post_unexpected.
      * destruct (unquote uq token) as [[txt|err]|];
          [|apply post_errorf|apply post_crash].
        apply post_any; intros _. apply post_ret. reflexivity.
      * destruct (unquote uq token) as [[txt|err]|];
          [|apply post_errorf|apply post_crash].
        apply post_any; intros _. apply post_ret. reflexivity.
      * destruct (unquote uq token) as [[txt|err]|];
          [|apply post_errorf|apply post_crash].
        apply post_any; intros _. apply post_ret. reflexivity.
      * eapply post_bind; [exact IHtl|]. intros l Hl.
        apply post_any; intros closing.
        destruct (Typ closing); try apply post_unexpected.
        apply post_ret. exact Hl.
      * eapply post_bind; [exact IHtb|]. intros tn Htn.
        apply post_ret. exact Htn.
    + rewrite table_S. apply post_any; intros first.
      apply IHtbl. reflexivity.
    + rewrite tableLoop_S. apply post_any; intros token.
      destruct (startsFactor (Typ token)).
      * apply post_any; intros _.
        eapply post_bind; [exact IHt|]. intros key Hkey.
        apply post_any; intros nxt.
        destruct (ItemType_beq (Typ nxt) ItemBare && String.eqb (Val nxt) "=").
        -- apply post_any; intros _. apply post_any; intros _.
           eapply post_bind; [exact IHt|]. intros v Hv.
           apply IHtbl. apply wfTable_appendToDict; assumption.
        -- apply IHtbl. apply wfTable_appendToList; assumption.
      * destruct (Typ token); try apply post_unexpected.
        apply post_ret. assumption.
Qed.

Lemma redir_wf (n : nat) : post (redir uq n) (fun r => wfRedir r = true).
Proof.
  unfold redir. apply post_any; intros leader. cbv zeta.
  destruct (if negb (GoString.IndexRune (Val leader) "[" =? -1)
            then _ else _) as [[dir qual]|]; [|apply post_crash].
  apply post_any; intros [fd0 flag].
  eapply (post_bind _ _ (fun r => match r with
                                  | inl done => wfRedir done = true
                                  | inr _ => True
                                  end)).
  - destruct (0 <? GoString.len qual); [|apply post_ret; exact I].
    cbv zeta.
    destruct (negb (GoString.IndexRune qual "=" =? -1)).
    + destruct (GoString.slice qual 0 _) as [lhs|]; [|apply post_crash].
      destruct (GoString.slice qual _ _) as [rhs|]; [|apply post_crash].
      apply post_any; intros fd.
      destruct (0 <? GoString.len rhs); [|apply post_ret; reflexivity].
      destruct (Atou rhs); [apply post_ret; reflexivity|apply post_errorf].
    + destruct (Atou qual); [apply post_ret; exact I|apply post_errorf].
  - intros [done|fd] H.
    + apply post_ret. exact H.
    + apply post_any; intros _.
      eapply post_bind; [apply engine_wf|]. intros t Ht.
      apply post_ret. exact Ht.
Qed.

Lemma commandLoop_wf (n : nat) :
  forall rs, forallb wfRedir rs = true ->
  post (commandLoop uq n rs) (fun rs' => forallb wfRedir rs' = true).
Proof.
  induction n as [|n IH]; intros rs Hrs; [apply post_outOfFuel|].
  rewrite commandLoop_S. apply post_any; intros tok.
  destruct (Typ tok); try (apply post_ret; assumption).
  eapply post_bind; [apply redir_wf|]. intros r Hr.
  apply IH. rewrite forallb_app, Hrs. cbn [forallb]. rewrite Hr. reflexivity.
Qed.

Lemma command_wf (n : nat) : post (command uq n) (fun c => wfCommand c = true).
Proof.
  unfold command. apply post_any; intros first.
  eapply post_bind; [apply engine_wf|]. intros l Hl.
  eapply post_bind; [apply (commandLoop_wf n []); reflexivity|]. intros rs Hrs.
  apply post_ret. cbn [wfCommand]. rewrite Hl, Hrs. reflexivity.
Qed.

(** The loop of [pipeline] returns at least one command. *)
Lemma pipelineLoop_wf (n : nat) :
  forall l, wfList pipelineRole l = true ->
  post (pipelineLoop uq n l)
       (fun l' => wfList pipelineRole l' = true /\ Nodes l' <> []).
Proof.
  induction n as [|n IH]; intros l Hl; [apply post_outOfFuel|].
  rewrite pipelineLoop_S.
  eapply post_bind; [apply command_wf|]. intros c Hc.
  apply post_any; intros token.
  assert (Hw : wfList pipelineRole (append l (ACommand c)) = true)
    by (apply wfList_next; assumption).
  assert (Hne : Nodes (append l (ACommand c)) <> [])
    by (destruct l as [pos ns]; cbn [append Nodes]; destruct ns; discriminate).
  destruct (Typ token); try apply post_unexpected;
    try (apply post_ret; split; assumption).
  apply IH. exact Hw.
Qed.

Lemma pipeline_wf (n : nat) :
  post (pipeline uq n) (fun l => wfList pipelineRole l = true).
Proof.
  unfold pipeline. apply post_any; intros first. apply post_any; intros tok.
  assert (Hloop : post (pipelineLoop uq n (newList (Pos first)))
                       (fun l => wfList pipelineRole l = true)).
  { intros p. pose proof (pipelineLoop_wf n (newList (Pos first)) eq_refl p).
    destruct (pipelineLoop uq n (newList (Pos first)) p); try exact I.
    apply H. }
  destruct (Typ tok); try exact Hloop. apply post_ret. reflexivity.
Qed.

End WellFormed.

(** ** Blank input *)

Section Blank.

Variable uq : string -> string + GoError.
Variable Lex : string -> string -> Lexer.

Ltac cursor :=
  cbv beta iota zeta delta
    [bind ret next peek backup peekNonSpace tokenAt NextItem
     setPeekCount setLex setToken0 setRoot setCtx
     Name Root Ctx text tab lex token0 token1 token2 peekCount
     pending eofPos newList];
  cbn [Typ Pos Val End].

Tactic Notation "cursor" "in" hyp(H) :=
  cbv beta iota zeta delta
    [bind ret next peek backup peekNonSpace tokenAt NextItem
     setPeekCount setLex setToken0 setRoot setCtx
     Name Root Ctx text tab lex token0 token1 token2 peekCount
     pending eofPos newList] in H;
  cbn [Typ Pos Val End] in H.

Lemma last_cons {A} (a d : A) (l : list A) : last (a :: l) d = last l a.
Proof.
  revert a d. induction l as [|b l IH]; intros a d; [reflexivity|].
  change (last (a :: b :: l) d) with (last (b :: l) d).
  rewrite (IH b d), (IH b a). reflexivity.
Qed.

(** [nextNonSpace] runs through a run of space tokens of the lexer. *)
Lemma nextNonSpace_spaces (sps : list Item) :
  Forall (fun t => Typ t = ItemSpace) sps ->
  forall rest e nm r c tx b t0 t1 t2 n,
  nextNonSpace (length sps + n)
    (mkParser nm r c tx b (Some (mkLexer (sps ++ rest) e)) t0 t1 t2 0) =
  nextNonSpace n
    (mkParser nm r c tx b (Some (mkLexer rest e)) (last sps t0) t1 t2 0).
Proof.
  induction 1 as [|s sps Hs _ IH]; intros rest e nm r c tx b t0 t1 t2 n.
  - reflexivity.
  - change (length (s :: sps) + n)%nat with (S (length sps + n)).
    rewrite nextNonSpace_S. rewrite last_cons.
    rewrite <- (IH rest e nm r c tx b s t1 t2 n).
    change ((s :: sps) ++ rest)%list with (s :: (sps ++ rest)%list).
    cursor. rewrite Hs. reflexivity.
Qed.

Lemma nextNonSpace_end (rest : list Item) (e : Z) nm r c tx b t0 t1 t2 (n : nat) :
  endsInput rest ->
  exists tok l,
    nextNonSpace (S n)
      (mkParser nm r c tx b (Some (mkLexer rest e)) t0 t1 t2 0) =
    Done tok (mkParser nm r c tx b (Some (mkLexer l e)) tok t1 t2 0) /\
    Typ tok = ItemEOF.
Proof.
  intros [->|(t & l' & -> & Ht)].
  - eexists _, _. rewrite nextNonSpace_S. cursor. split; reflexivity.
  - exists t, l'. rewrite nextNonSpace_S. cursor. rewrite Ht.
    split; reflexivity.
Qed.

(** Blank input: a pipeline without commands. *)
Lemma pipeline_blank (sps rest : list Item) (e : Z) nm r c tx b t0 t1 t2 :
  Forall (fun t => Typ t = ItemSpace) sps ->
  endsInput rest ->
  exists p',
    pipeline uq (length sps + 2)
      (mkParser nm r c tx b (Some (mkLexer (sps ++ rest) e)) t0 t1 t2 0) =
    Done (newList (firstPos (sps ++ rest) e)) p'.
Proof.
  intros Hsps Hrest. destruct Hsps as [|s sps Hs Hsps].
  - destruct Hrest as [->|(t & l' & -> & Ht)].
    + eexists. vm_compute. reflexivity.
    + unfold pipeline, peekNonSpace.
      change (List.length (@nil Item) + 2)%nat with 2%nat.
      change (([] ++ t :: l')%list) with (t :: l').
      rewrite nextNonSpace_S.
      cursor. rewrite Ht. cursor. rewrite Ht. eexists. reflexivity.
  - unfold pipeline.
    change (length (s :: sps) + 2)%nat with (S (length sps + 2)).
    change ((s :: sps) ++ rest)%list with (s :: (sps ++ rest)%list).
    unfold peekNonSpace. rewrite nextNonSpace_S. cursor. rewrite Hs.
    rewrite (nextNonSpace_spaces sps Hsps).
    destruct (nextNonSpace_end rest e nm r c tx b (last sps s) t1 t2 1 Hrest)
      as (tok & l & E & Ht).
    rewrite E. cursor. rewrite Ht. eexists. reflexivity.
Qed.
(** When [nextNonSpace] finds the end of the input, what it has read from
    the lexer is a run of spaces. *)
Lemma nextNonSpace_eof_inv (n : nat) :
  forall l e nm r c tx b t0 t1 t2 tok p',
  nextNonSpace n (mkParser nm r c tx b (Some (mkLexer l e)) t0 t1 t2 0) =
    Done tok p' ->
  Typ tok = ItemEOF ->
  exists sps rest,
    l = (sps ++ rest)%list /\ Forall (fun t => Typ t = ItemSpace) sps /\
    endsInput rest.
Proof.
  induction n as [|n IH]; intros l e nm r c tx b t0 t1 t2 tok p' H Htok;
    [discriminate|].
  destruct l as [|t l].
  - exists [], []. repeat split; [constructor|left; reflexivity].
  - rewrite nextNonSpace_S in H. cursor in H.
    destruct (Typ t) eqn:Ht;
      try (injection H as <- _; exists [], (t :: l);
           repeat split; [constructor|right; eauto]).
    apply IH in H; [|exact Htok].
    destruct H as (sps & rest & -> & Hsps & Hrest).
    exists (t :: sps), rest. repeat split; [constructor; assumption|exact Hrest].
Qed.

(** A pipeline without commands comes from blank input only. *)
Lemma pipeline_empty_inv (n : nat) (l : list Item) (e : Z)
    nm r c tx b t0 t1 t2 (root : ListNode) (p' : Parser) :
  pipeline uq n (mkParser nm r c tx b (Some (mkLexer l e)) t0 t1 t2 0) =
    Done root p' ->
  Nodes root = [] ->
  exists sps rest,
    l = (sps ++ rest)%list /\ Forall (fun t => Typ t = ItemSpace) sps /\
    endsInput rest.
Proof.
  intros H Hroot.
  destruct l as [|t l].
  { exists [], []. repeat split; [constructor|left; reflexivity]. }
  unfold pipeline in H. cursor in H.
  destruct n as [|n]; [discriminate|].
  rewrite nextNonSpace_S in H. cursor in H.
  assert (Hloop : forall q (tk : Item),
    pipelineLoop uq (S n) (mkListNode (Pos t) []) q <> Done root p').
  { intros q tk E.
    pose proof (pipelineLoop_wf uq (S n) (mkListNode (Pos t) []) eq_refl q)
      as Hw.
    rewrite E in Hw. apply Hw, Hroot. }
  destruct (Typ t) eqn:Ht.
  all: try (exfalso; cbv beta iota in H; rewrite Ht in H;
            exact (Hloop _ t H)).
  - destruct (nextNonSpace n _) as [tok q| | |] eqn:E in H; try discriminate.
    cbv beta iota in H.
    destruct (Typ tok) eqn:Htok; try (exfalso; exact (Hloop _ t H)).
    apply nextNonSpace_eof_inv in E; [|exact Htok].
    destruct E as (sps & rest & -> & Hsps & Hrest).
    exists (t :: sps), rest. repeat split; [constructor; assumption|exact Hrest].
  - exists [], (t :: l). repeat split; [constructor|right; eauto].
Qed.

(** C7: every list of terms and every term of a parsed tree has a child, so
    the pipeline at the root is the only list that may be empty; it is empty
    exactly when the input is blank (spaces, then the end of the input), and
    blank input is parsed without error. *)
Theorem parsed_lists_nonempty (p : Parser) (txt : string) (tb : bool) :
  (forall n q,
   Parse uq Lex n p txt tb = Returned q (Some q) None ->
   exists root,
     Root q = Some (AList root) /\ wfList pipelineRole root = true /\
     (Nodes root = [] ->
      exists sps rest,
        pending (Lex (Name p) txt) = (sps ++ rest)%list /\
        Forall (fun t => Typ t = ItemSpace) sps /\ endsInput rest)) /\
  (forall sps rest e n,
   Lex (Name p) txt = mkLexer (sps ++ rest) e ->
   Forall (fun t => Typ t = ItemSpace) sps ->
   endsInput rest ->
   (length sps + 2 <= n)%nat ->
   exists q,
     Parse uq Lex n p txt tb = Returned q (Some q) None /\
     Root q = Some (AList (mkListNode (firstPos (sps ++ rest) e) []))).
Proof.
  split.
  - intros n q H. unfold Parse in H.
    destruct p as [nm r c tx b l t0 t1 t2 k].
    cbv beta iota zeta delta
      [setText setLex setPeekCount Name Root Ctx text tab lex token0 token1
       token2 peekCount] in H.
    pose proof (pipeline_wf uq n
      (mkParser nm r c txt tb (Some (Lex nm txt)) t0 t1 t2 0)) as Hw.
    destruct (pipeline uq n _) as [root p2| | |] eqn:E in H, Hw;
      try discriminate.
    injection H as <-. exists root. split; [reflexivity|]. split; [exact Hw|].
    intros Hroot. cbn [Name].
    destruct (Lex nm txt) as [l' e'] eqn:EL. cbn [pending].
    exact (pipeline_empty_inv _ _ _ _ _ _ _ _ _ _ _ _ _ E Hroot).
  - intros sps rest e n HL Hsps Hrest Hn.
    eapply (Parse_of_pipeline uq Lex (length sps + 2)); [|exact HL|exact Hn].
    intros. apply pipeline_blank; assumption.
Qed.

End Blank.

(** ** The outcome depends on the name and the text only *)

Section Runs.

Variable uq : string -> string + GoError.

Lemma sameHint_refl (p q : Parser) : sameHint p q p q.
Proof. right. split; reflexivity. Qed.

Lemma sameHint_trans (p q p1 q1 p2 q2 : Parser) :
  sameHint p q p1 q1 -> sameHint p1 q1 p2 q2 -> sameHint p q p2 q2.
Proof.
  intros [H1|[H1 H1']] [H2|[H2 H2']].
  - left. exact H2.
  - left. congruence.
  - left. exact H2.
  - right. split; congruence.
Qed.

Lemma simx_sim (p q : Parser) : simx p q -> sim p q.
Proof. intros [H _]. exact H. Qed.

Lemma Resp_ret {A} (X : Parser -> Parser -> Prop) (a : A) : Resp X X (ret a).
Proof.
  intros p q H. cbn. split; [reflexivity|]. split; [exact H|].
  apply sameHint_refl.
Qed.

Lemma Resp_bind {A B} (X Y Z : Parser -> Parser -> Prop) (m : M A)
    (k : A -> M B) :
  Resp X Y m -> (forall a, Resp Y Z (k a)) -> Resp X Z (bind m k).
Proof.
  intros Hm Hk p q HX. specialize (Hm p q HX). unfold bind.
  destruct (m p) as [a p'|e p'| |], (m q) as [b q'|e' q'| |]; cbn in Hm;
    try contradiction; try exact I.
  - destruct Hm as (<- & HY & Hh). specialize (Hk a p' q' HY).
    destruct (k a p') as [c p2|e p2| |], (k a q') as [d q2|e2 q2| |];
      cbn in Hk |- *; try contradiction; try exact I.
    + destruct Hk as (-> & HZ & Hh'). repeat split; try assumption.
      eapply sameHint_trans; eassumption.
    + destruct Hk as (-> & R1 & R2 & Hh'). repeat split; try assumption.
      eapply sameHint_trans; eassumption.
  - exact Hm.
Qed.

Lemma Resp_pre {A} (X X' Y : Parser -> Parser -> Prop) (m : M A) :
  (forall p q, X' p q -> X p q) -> Resp X Y m -> Resp X' Y m.
Proof. intros HX Hm p q H. apply Hm, HX, H. Qed.

Lemma Resp_post {A} (X Y Y' : Parser -> Parser -> Prop) (m : M A) :
  (forall p q, Y p q -> Y' p q) -> Resp X Y m -> Resp X Y' m.
Proof.
  intros HY Hm p q H. specialize (Hm p q H).
  destruct (m p), (m q); cbn in Hm |- *; try assumption.
  destruct Hm as (E & H1 & H2). repeat split; auto.
Qed.

Lemma Resp_crash {A} (X Y : Parser -> Parser -> Prop) :
  Resp X Y (@crash A).
Proof. intros p q _. exact I. Qed.

Lemma Resp_outOfFuel {A} (X Y : Parser -> Parser -> Prop) :
  Resp X Y (@outOfFuel A).
Proof. intros p q _. exact I. Qed.

Lemma Resp_errorf {A} (Y : Parser -> Parser -> Prop) pos format args :
  Resp sim Y (@errorf A pos format args).
Proof.
  intros p q (HN & HT & _). unfold errorf. cbn.
  rewrite HN, HT. repeat split. right. split; reflexivity.
Qed.

Lemma Resp_unexpected {A} (Y : Parser -> Parser -> Prop) tok context :
  Resp sim Y (@unexpected A tok context).
Proof. apply Resp_errorf. Qed.

Lemma Resp_next_x : Resp sim simx next.
Proof.
  intros [n1 r1 c1 x1 b1 l1 u0 u1 u2 k1] [n2 r2 c2 x2 b2 l2 v0 v1 v2 k2]
    (HN & HT & HL & HK & Htok).
  cbn in HN, HT, HL, HK, Htok. subst n2 x2 l2 k2.
  unfold next. cbn [peekCount lex].
  destruct k1 as [|k].
  - destruct l1 as [l|]; [|exact I].
    destruct (NextItem l) as [it l'].
    split; [reflexivity|]. split; [|right; split; reflexivity].
    split; [|reflexivity].
    repeat split. intros i Hi. cbn in Hi. lia.
  - pose proof (Htok k (Nat.lt_succ_diag_r k)) as Hk.
    rewrite <- Hk.
    destruct (tokenAt _ k) as [t|] eqn:Et; [|exact I].
    split; [reflexivity|]. split; [|right; split; reflexivity].
    split.
    + repeat split. intros i Hi. cbn in Hi. apply (Htok i). cbn. lia.
    + exact (eq_trans Et Hk).
Qed.

Lemma Resp_next : Resp sim sim next.
Proof. apply (Resp_post sim simx sim next simx_sim Resp_next_x). Qed.

Lemma Resp_peek : Resp sim sim peek.
Proof.
  intros [n1 r1 c1 x1 b1 l1 u0 u1 u2 k1] [n2 r2 c2 x2 b2 l2 v0 v1 v2 k2]
    (HN & HT & HL & HK & Htok).
  cbn in HN, HT, HL, HK, Htok. subst n2 x2 l2 k2.
  unfold peek. cbn [peekCount lex].
  destruct k1 as [|k].
  - destruct l1 as [l|]; [|exact I].
    destruct (NextItem l) as [it l'].
    split; [reflexivity|]. split; [|right; split; reflexivity].
    repeat split. intros i Hi. cbn in Hi.
    destruct i as [|i]; [reflexivity|lia].
  - pose proof (Htok k (Nat.lt_succ_diag_r k)) as Hk.
    rewrite <- Hk.
    destruct (tokenAt _ k) as [t|] eqn:Et; [|exact I].
    split; [reflexivity|]. split; [|right; split; reflexivity].
    repeat split. exact Htok.
Qed.

Lemma Resp_backup : Resp simx sim backup.
Proof.
  intros [n1 r1 c1 x1 b1 l1 u0 u1 u2 k1] [n2 r2 c2 x2 b2 l2 v0 v1 v2 k2]
    ((HN & HT & HL & HK & Htok) & Hx).
  cbn in HN, HT, HL, HK, Htok, Hx. subst n2 x2 l2 k2.
  split; [reflexivity|]. split; [|right; split; reflexivity].
  repeat split. intros i Hi. cbn in Hi.
  assert (Hc : (i < k1)%nat \/ i = k1) by lia.
  destruct Hc as [Hc| ->]; [apply (Htok i Hc)|exact Hx].
Qed.

Lemma Resp_assignCtx (c : option Context) : Resp sim sim (assignCtx c).
Proof.
  intros [n1 r1 c1 x1 b1 l1 u0 u1 u2 k1] [n2 r2 c2 x2 b2 l2 v0 v1 v2 k2]
    (HN & HT & HL & HK & Htok).
  cbn in HN, HT, HL, HK, Htok. subst n2 x2 l2 k2.
  split; [reflexivity|]. split; [|left; reflexivity].
  repeat split. exact Htok.
Qed.

Lemma Resp_nextNonSpace_x (n : nat) : Resp sim simx (nextNonSpace n).
Proof.
  induction n as [|n IH]; [apply Resp_outOfFuel|].
  rewrite nextNonSpace_S.
  eapply Resp_bind; [apply Resp_next_x|]. intros tok.
  destruct (Typ tok); try apply Resp_ret.
  apply (Resp_pre sim simx simx _ simx_sim IH).
Qed.

Lemma Resp_nextNonSpace (n : nat) : Resp sim sim (nextNonSpace n).
Proof. apply (Resp_post sim simx sim _ simx_sim (Resp_nextNonSpace_x n)). Qed.

Lemma Resp_peekNonSpace (n : nat) : Resp sim sim (peekNonSpace n).
Proof.
  unfold peekNonSpace.
  eapply Resp_bind; [apply Resp_nextNonSpace_x|]. intros tok.
  eapply Resp_bind; [apply Resp_backup|]. intros _. apply Resp_ret.
Qed.

Ltac resp_step :=
  lazymatch goal with
  | |- Resp _ _ (bind _ _) => eapply Resp_bind; [|intros ?]
  | |- Resp _ _ (ret _) => apply Resp_ret
  | |- Resp _ _ (errorf _ _ _) => apply Resp_errorf
  | |- Resp _ _ (unexpected _ _) => apply Resp_unexpected
  | |- Resp _ _ crash => apply Resp_crash
  | |- Resp _ _ outOfFuel => apply Resp_outOfFuel
  | |- Resp _ _ next => apply Resp_next
  | |- Resp _ _ peek => apply Resp_peek
  | |- Resp _ _ (assignCtx _) => apply Resp_assignCtx
  | |- Resp _ _ (nextNonSpace _) => apply Resp_nextNonSpace
  | |- Resp _ _ (peekNonSpace _) => apply Resp_peekNonSpace
  | |- Resp _ _ (match ?x with _ => _ end) => destruct x
  | |- Resp _ _ (if ?x then _ else _) => destruct x
  | |- Resp _ _ (let '(_, _) := ?x in _) => destruct x
  | |- _ => eassumption
  end.

Ltac resp_auto := repeat resp_step.

Lemma Resp_factorDollars (n : nat) :
  forall d, Resp sim sim (factorDollars n d).
Proof.
  induction n as [|n IH]; intros d; [apply Resp_outOfFuel|].
  rewrite factorDollars_S. pose proof (IH (d + 1)). resp_auto.
Qed.

Lemma engine_resp (n : nat) :
  Resp sim sim (termList uq n) /\
  (forall l, Resp sim sim (termListLoop uq n l)) /\
  Resp sim sim (term uq n) /\
  (forall l, Resp sim sim (termLoop uq n l)) /\
  Resp sim sim (factor uq n) /\
  Resp sim sim (table uq n) /\
  (forall t, Resp sim sim (tableLoop uq n t)).
Proof.
  induction n as [|n (IH1 & IH2 & IH3 & IH4 & IH5 & IH6 & IH7)].
  - repeat split; intros; apply Resp_outOfFuel.
  - pose proof (Resp_factorDollars n 0) as HD.
    repeat split; intros.
    + rewrite termList_S. resp_auto. apply IH2.
    + rewrite termListLoop_S. resp_auto. apply IH2.
    + rewrite term_S. resp_auto. apply IH4.
    + rewrite termLoop_S. resp_auto; apply IH4.
    + rewrite factor_S. resp_auto.
    + rewrite table_S. resp_auto. apply IH7.
    + rewrite tableLoop_S.
      eapply Resp_bind; [apply Resp_nextNonSpace_x|]. intros token.
      destruct (startsFactor (Typ token)).
      * eapply Resp_bind; [apply Resp_backup|]. intros _.
        resp_auto; apply IH7.
      * apply (Resp_pre sim simx sim _ simx_sim).
        resp_auto.
Qed.

Lemma Resp_redir (n : nat) : Resp sim sim (redir uq n).
Proof.
  unfold redir. pose proof (engine_resp n) as (_ & _ & Ht & _).
  resp_auto.
Qed.

Lemma Resp_commandLoop (n : nat) :
  forall rs, Resp sim sim (commandLoop uq n rs).
Proof.
  induction n as [|n IH]; intros rs; [apply Resp_outOfFuel|].
  rewrite commandLoop_S. pose proof (Resp_redir n). resp_auto. apply IH.
Qed.

Lemma Resp_command (n : nat) : Resp sim sim (command uq n).
Proof.
  unfold command. pose proof (engine_resp n) as (Htl & _).
  pose proof (Resp_commandLoop n []). resp_auto.
Qed.

Lemma Resp_pipelineLoop (n : nat) :
  forall l, Resp sim sim (pipelineLoop uq n l).
Proof.
  induction n as [|n IH]; intros l; [apply Resp_outOfFuel|].
  rewrite pipelineLoop_S. pose proof (Resp_command n). resp_auto. apply IH.
Qed.

Lemma Resp_pipeline (n : nat) : Resp sim sim (pipeline uq n).
Proof.
  unfold pipeline. resp_auto; apply Resp_pipelineLoop.
Qed.

Variable Lex : string -> string -> Lexer.

(** Two calls of [Parse] for the same name and text, whatever the parsers
    held before. *)
Lemma Parse_related (n : nat) (p q : Parser) (txt : string) (tb : bool) :
  Name p = Name q ->
  sameOutcome (Parse uq Lex n p txt tb) (Parse uq Lex n q txt tb) /\
  sameFinalHint p q (Parse uq Lex n p txt tb) (Parse uq Lex n q txt tb).
Proof.
  intros HN. unfold Parse.
  destruct p as [n1 r1 c1 x1 b1 l1 u0 u1 u2 k1].
  destruct q as [n2 r2 c2 x2 b2 l2 v0 v1 v2 k2].
  cbn [Name] in HN. subst n2.
  cbv beta iota zeta delta
    [setText setLex setPeekCount Name Root Ctx text tab lex token0 token1
     token2 peekCount].
  pose proof (Resp_pipeline n
    (mkParser n1 r1 c1 txt tb (Some (Lex n1 txt)) u0 u1 u2 0)
    (mkParser n1 r2 c2 txt tb (Some (Lex n1 txt)) v0 v1 v2 0)) as H.
  assert (Hsim : sim (mkParser n1 r1 c1 txt tb (Some (Lex n1 txt)) u0 u1 u2 0)
                     (mkParser n1 r2 c2 txt tb (Some (Lex n1 txt)) v0 v1 v2 0)).
  { repeat split. intros i Hi. cbn in Hi. lia. }
  specialize (H Hsim).
  destruct (pipeline uq n _) as [root p2|e p2| |],
           (pipeline uq n _) as [root' q2|e' q2| |];
    cbn in H; try contradiction; try (split; exact I).
  - destruct H as (<- & _ & Hh). split.
    + cbn. repeat split.
    + destruct p2, q2. exact Hh.
  - destruct H as (<- & R1 & R2 & Hh). split.
    + destruct p2, q2. cbn in *. repeat split. congruence.
    + destruct p2, q2. exact Hh.
Qed.

(** C9: two calls of [Parse] with the same script name, text and tab flag
    end alike whatever the two parsers held before: both return the same
    tree, or both return the same diagnostic and no tree. *)
Theorem parse_deterministic (n m : nat) (p q : Parser) (txt : string)
    (tb : bool) :
  Name p = Name q ->
  Parse uq Lex n p txt tb <> ParseOutOfFuel ->
  Parse uq Lex m q txt tb <> ParseOutOfFuel ->
  sameOutcome (Parse uq Lex n p txt tb) (Parse uq Lex m q txt tb).
Proof.
  intros HN Hn Hm.
  rewrite <- (Parse_fuel uq Lex n (Nat.max n m) p txt tb (Nat.le_max_l n m) Hn).
  rewrite <- (Parse_fuel uq Lex m (Nat.max n m) q txt tb (Nat.le_max_r n m) Hm).
  apply Parse_related, HN.
Qed.

(** The factor of a quoted or bare token. *)
Lemma factor_accepts (n : nat) (p p0 p1 p2 : Parser) (first token : Item)
    (d : Z) (txt : string) :
  peek p = Done first p0 ->
  factorDollars n 0 p0 = Done d p1 ->
  next p1 = Done token p2 ->
  Typ token = ItemBare \/ Typ token = ItemSingleQuoted \/
  Typ token = ItemDoubleQuoted ->
  unquote uq token = Some (inl txt) ->
  factor uq (S n) p =
  Done (mkFactorNode (Pos first) d
          (AString (newString (Pos token) (Val token) txt)))
       (setCtx (hintOf token) p2).
Proof.
  intros Hpeek Hd Hnext HT Huq. rewrite factor_S.
  run_with Hpeek. run_with Hd. run_with Hnext.
  destruct HT as [HT|[HT|HT]]; rewrite HT, Huq; reflexivity.
Qed.

End Runs.

(** ** The accepted tokens and the hint *)

Section Accepted.

Variable uq : string -> string + GoError.
Variable Lex : string -> string -> Lexer.

Lemma traced_termList_S (n : nat) :
  Traced.termList uq (S n) =
  bindT (lift peek) (fun first =>
  bindT (Traced.term uq n) (fun t =>
  Traced.termListLoop uq n (append (newList (Pos first)) (AList t)))).
Proof. reflexivity. Qed.

Lemma traced_termListLoop_S (n : nat) (list : ListNode) :
  Traced.termListLoop uq (S n) list =
  bindT (lift (peekNonSpace n)) (fun tok =>
  if startsFactor (Typ tok)
  then bindT (Traced.term uq n) (fun t =>
       Traced.termListLoop uq n (append list (AList t)))
  else retT list).
Proof. reflexivity. Qed.

Lemma traced_term_S (n : nat) :
  Traced.term uq (S n) =
  bindT (lift peek) (fun first =>
  bindT (Traced.factor uq n) (fun f =>
  Traced.termLoop uq n (append (newList (Pos first)) (AFactor f)))).
Proof. reflexivity. Qed.

Lemma traced_termLoop_S (n : nat) (term : ListNode) :
  Traced.termLoop uq (S n) term =
  bindT (lift peek) (fun tok =>
  if startsFactor (Typ tok)
  then bindT (Traced.factor uq n) (fun f =>
       Traced.termLoop uq n (append term (AFactor f)))
  else
    bindT (lift (peekNonSpace n)) (fun tok' =>
    match Typ tok' with
    | ItemCaret =>
        bindT (lift next) (fun _ =>
        bindT (lift (peekNonSpace n)) (fun _ =>
        bindT (Traced.factor uq n) (fun f =>
        Traced.termLoop uq n (append term (AFactor f)))))
    | _ => retT term
    end)).
Proof. reflexivity. Qed.

Lemma traced_factor_S (n : nat) :
  Traced.factor uq (S n) =
  bindT (lift peek) (fun first =>
  bindT (lift (factorDollars n 0)) (fun dollar =>
  bindT (lift next) (fun token =>
  match Typ token with
  | ItemBare | ItemSingleQuoted | ItemDoubleQuoted =>
      match unquote uq token with
      | None => lift crash
      | Some (inr err) => lift (errorf (Pos token) "%s" [ArgError err])
      | Some (inl txt) =>
          bindT (assign token
                   (if negb (Z.land (End token) MayContinue =? 0)
                    then Some (NewArgContext (Val token))
                    else None)) (fun _ =>
          retT (mkFactorNode (Pos first) dollar
                  (AString (newString (Pos token) (Val token) txt))))
      end
  | ItemLParen =>
      bindT (Traced.termList uq n) (fun l =>
      bindT (lift next) (fun closing =>
      match Typ closing with
      | ItemRParen => retT (mkFactorNode (Pos first) dollar (AList l))
      | _ => lift (unexpected closing "factor of item list")
      end))
  | ItemLBracket =>
      bindT (Traced.table uq n) (fun tn =>
      retT (mkFactorNode (Pos first) dollar (ATable tn)))
  | _ => lift (unexpected token "factor")
  end))).
Proof. reflexivity. Qed.

Lemma traced_table_S (n : nat) :
  Traced.table uq (S n) =
  bindT (lift peek) (fun first => Traced.tableLoop uq n (newTable (Pos first))).
Proof. reflexivity. Qed.

Lemma traced_tableLoop_S (n : nat) (tn : TableNode) :
  Traced.tableLoop uq (S n) tn =
  bindT (lift (nextNonSpace n)) (fun token =>
  if startsFactor (Typ token)
  then
    bindT (lift backup) (fun _ =>
    bindT (Traced.term uq n) (fun key =>
    bindT (lift (peekNonSpace n)) (fun nxt =>
    if ItemType_beq (Typ nxt) ItemBare && String.eqb (Val nxt) "="
    then
      bindT (lift next) (fun _ =>
      bindT (lift (peekNonSpace n)) (fun _ =>
      bindT (Traced.term uq n) (fun valueTerm =>
      Traced.tableLoop uq n (appendToDict tn key valueTerm))))
    else Traced.tableLoop uq n (appendToList tn key))))
  else
    match Typ token with
    | ItemRBracket => retT tn
    | _ => lift (unexpected token "table literal")
    end).
Proof. reflexivity. Qed.

Lemma traced_commandLoop_S (n : nat) (redirs : list Redir) :
  Traced.commandLoop uq (S n) redirs =
  bindT (lift (peekNonSpace n)) (fun tok =>
  match Typ tok with
  | ItemRedirLeader =>
      bindT (Traced.redir uq n) (fun r =>
      Traced.commandLoop uq n (redirs ++ [r])%list)
  | _ => retT redirs
  end).
Proof. reflexivity. Qed.

Lemma traced_pipelineLoop_S (n : nat) (pipe : ListNode) :
  Traced.pipelineLoop uq (S n) pipe =
  bindT (Traced.command uq n) (fun c =>
  bindT (lift next) (fun token =>
  match Typ token with
  | ItemPipe => Traced.pipelineLoop uq n (append pipe (ACommand c))
  | ItemEndOfLine | ItemEOF => retT (append pipe (ACommand c))
  | _ => lift (unexpected token "end of pipeline")
  end)).
Proof. reflexivity. Qed.

(** *** The hint after a record *)

Lemma hintAfter_app (acc more : list Item) :
  forall c, hintAfter c (acc ++ more)%list = hintAfter (hintAfter c acc) more.
Proof.
  induction acc as [|t acc IH]; intros c; [reflexivity|].
  cbn [app hintAfter]. apply IH.
Qed.

Lemma hintAfter_last (acc : list Item) (c : option Context) :
  hintAfter c acc =
  match rev acc with
  | t :: _ => hintOf t
  | [] => c
  end.
Proof.
  revert c. induction acc as [|t acc IH] using rev_ind; intros c.
  - reflexivity.
  - rewrite hintAfter_app, rev_app_distr. reflexivity.
Qed.

(** *** Actions that leave the hint *)

Lemma keepsHint_ret {A} (a : A) : keepsHint (ret a).
Proof. intros p. reflexivity. Qed.

Lemma keepsHint_crash {A} : keepsHint (@crash A).
Proof. intros p. exact I. Qed.

Lemma keepsHint_outOfFuel {A} : keepsHint (@outOfFuel A).
Proof. intros p. exact I. Qed.

Lemma keepsHint_bind {A B} (m : M A) (k : A -> M B) :
  keepsHint m -> (forall a, keepsHint (k a)) -> keepsHint (bind m k).
Proof.
  intros Hm Hk p. unfold bind. specialize (Hm p).
  destruct (m p) as [a p1|e p1| |]; try exact Hm; try exact I.
  specialize (Hk a p1).
  destruct (k a p1) as [b p2|e p2| |]; try exact I; congruence.
Qed.

Lemma keepsHint_errorf {A} (pos : Z) (format : string) (args : list FmtArg) :
  keepsHint (@errorf A pos format args).
Proof. intros [n1 r1 c1 x1 b1 l1 u0 u1 u2 k]. reflexivity. Qed.

Lemma keepsHint_unexpected {A} (tok : Item) (context : string) :
  keepsHint (@unexpected A tok context).
Proof. apply keepsHint_errorf. Qed.

Lemma keepsHint_next : keepsHint next.
Proof.
  intros [n1 r1 c1 x1 b1 l1 u0 u1 u2 k]. unfold next. cbn [peekCount lex].
  destruct k as [|k].
  - destruct l1 as [l|]; [|exact I]. destruct (NextItem l). reflexivity.
  - destruct (tokenAt _ k); [reflexivity|exact I].
Qed.

Lemma keepsHint_peek : keepsHint peek.
Proof.
  intros [n1 r1 c1 x1 b1 l1 u0 u1 u2 k]. unfold peek. cbn [peekCount lex].
  destruct k as [|k].
  - destruct l1 as [l|]; [|exact I]. destruct (NextItem l). reflexivity.
  - destruct (tokenAt _ k); [reflexivity|exact I].
Qed.

Lemma keepsHint_backup : keepsHint backup.
Proof. intros [n1 r1 c1 x1 b1 l1 u0 u1 u2 k]. reflexivity. Qed.

Lemma keepsHint_nextNonSpace (n : nat) : keepsHint (nextNonSpace n).
Proof.
  induction n as [|n IH]; [apply keepsHint_outOfFuel|].
  rewrite nextNonSpace_S. apply keepsHint_bind; [apply keepsHint_next|].
  intros tok. destruct (Typ tok); first [exact IH | apply keepsHint_ret].
Qed.

Lemma keepsHint_peekNonSpace (n : nat) : keepsHint (peekNonSpace n).
Proof.
  unfold peekNonSpace.
  apply keepsHint_bind; [apply keepsHint_nextNonSpace|]. intros tok.
  apply keepsHint_bind; [apply keepsHint_backup|]. intros _.
  apply keepsHint_ret.
Qed.

Lemma keepsHint_factorDollars (n : nat) :
  forall d, keepsHint (factorDollars n d).
Proof.
  induction n as [|n IH]; intros d; [apply keepsHint_outOfFuel|].
  rewrite factorDollars_S. apply keepsHint_bind; [apply keepsHint_peek|].
  intros tok. destruct (Typ tok); try apply keepsHint_ret.
  apply keepsHint_bind; [apply keepsHint_next|]. intros _. apply IH.
Qed.

(** *** The engine with the record is the engine *)

Lemma Tr_ret {A} (a : A) : Tr uq (retT a) (ret a).
Proof.
  intros p log. split; [reflexivity|]. exists []. cbn [snd retT].
  rewrite app_nil_r. repeat split. constructor.
Qed.

Lemma Tr_lift {A} (m : M A) : keepsHint m -> Tr uq (lift m) m.
Proof.
  intros Hm p log. split; [reflexivity|]. exists []. cbn [snd lift].
  rewrite app_nil_r. repeat split; [constructor|]. exact (Hm p).
Qed.

Lemma Tr_bind {A B} (mt : MT A) (m : M A) (kt : A -> MT B) (k : A -> M B) :
  Tr uq mt m -> (forall a, Tr uq (kt a) (k a)) ->
  Tr uq (bindT mt kt) (bind m k).
Proof.
  intros Hm Hk p log. unfold bindT, bind.
  destruct (Hm p log) as (E1 & more1 & E2 & F1 & C1).
  destruct (mt p log) as [o log1]. cbn [fst snd] in E1, E2. subst o log1.
  destruct (m p) as [a p1|e p1| |].
  - destruct (Hk a p1 (log ++ more1)%list) as (E3 & more2 & E4 & F2 & C2).
    split; [exact E3|]. exists (more1 ++ more2)%list.
    rewrite E4, app_assoc. split; [reflexivity|].
    split; [apply Forall_app; split; assumption|].
    rewrite hintAfter_app, <- C1. exact C2.
  - split; [reflexivity|]. exists more1. repeat split; assumption.
  - split; [reflexivity|]. exists more1. repeat split; assumption.
  - split; [reflexivity|]. exists more1. repeat split; assumption.
Qed.

Lemma Tr_assign (token : Item) :
  acceptable uq token -> Tr uq (assign token (hintOf token))
                               (assignCtx (hintOf token)).
Proof.
  intros Hacc [n1 r1 c1 x1 b1 l1 u0 u1 u2 k] log. split; [reflexivity|].
  exists [token]. repeat split. constructor; [exact Hacc|constructor].
Qed.

Ltac kh_auto :=
  first
    [ apply keepsHint_peek | apply keepsHint_next | apply keepsHint_backup
    | apply keepsHint_crash | apply keepsHint_outOfFuel
    | apply keepsHint_errorf | apply keepsHint_unexpected
    | apply keepsHint_nextNonSpace | apply keepsHint_peekNonSpace
    | apply keepsHint_factorDollars ].

Ltac tr_step :=
  lazymatch goal with
  | |- Tr _ (bindT _ _) _ => apply Tr_bind; [|intros ?]
  | |- Tr _ (retT _) _ => apply Tr_ret
  | |- Tr _ (lift _) _ => apply Tr_lift; kh_auto
  | |- Tr _ (match ?x with _ => _ end) _ => destruct x
  | |- Tr _ (if ?x then _ else _) _ => destruct x
  | |- Tr _ (let '(_, _) := ?x in _) _ => destruct x
  | |- _ => eassumption
  end.

Ltac tr_auto := repeat tr_step.

Lemma Tr_factor_literal (token : Item) (first : Item) (dollar : Z) :
  Typ token = ItemBare \/ Typ token = ItemSingleQuoted \/
  Typ token = ItemDoubleQuoted ->
  Tr uq
    (match unquote uq token with
     | None => lift crash
     | Some (inr err) => lift (errorf (Pos token) "%s" [ArgError err])
     | Some (inl txt) =>
         bindT (assign token
                  (if negb (Z.land (End token) MayContinue =? 0)
                   then Some (NewArgContext (Val token))
                   else None)) (fun _ =>
         retT (mkFactorNode (Pos first) dollar
                 (AString (newString (Pos token) (Val token) txt))))
     end)
    (match unquote uq token with
     | None => crash
     | Some (inr err) => errorf (Pos token) "%s" [ArgError err]
     | Some (inl txt) =>
         bind (assignCtx
                 (if negb (Z.land (End token) MayContinue =? 0)
                  then Some (NewArgContext (Val token))
                  else None)) (fun _ =>
         ret (mkFactorNode (Pos first) dollar
                (AString (newString (Pos token) (Val token) txt))))
     end).
Proof.
  intros HT. destruct (unquote uq token) as [[txt|err]|] eqn:U.
  - apply Tr_bind; [|intros _; apply Tr_ret].
    apply (Tr_assign token). split; [exact HT|]. exists txt. exact U.
  - apply Tr_lift, keepsHint_errorf.
  - apply Tr_lift, keepsHint_crash.
Qed.

Lemma engine_traced (n : nat) :
  Tr uq (Traced.termList uq n) (termList uq n) /\
  (forall l, Tr uq (Traced.termListLoop uq n l) (termListLoop uq n l)) /\
  Tr uq (Traced.term uq n) (term uq n) /\
  (forall l, Tr uq (Traced.termLoop uq n l) (termLoop uq n l)) /\
  Tr uq (Traced.factor uq n) (factor uq n) /\
  Tr uq (Traced.table uq n) (table uq n) /\
  (forall t, Tr uq (Traced.tableLoop uq n t) (tableLoop uq n t)).
Proof.
  induction n as [|n (IH1 & IH2 & IH3 & IH4 & IH5 & IH6 & IH7)].
  - split; [|split; [|split; [|split; [|split; [|split]]]]]; intros;
      apply Tr_lift, keepsHint_outOfFuel.
  - split; [|split; [|split; [|split; [|split; [|split]]]]]; intros.
    + rewrite traced_termList_S, termList_S. tr_auto. apply IH2.
    + rewrite traced_termListLoop_S, termListLoop_S. tr_auto. apply IH2.
    + rewrite traced_term_S, term_S. tr_auto. apply IH4.
    + rewrite traced_termLoop_S, termLoop_S. tr_auto; apply IH4.
    + rewrite traced_factor_S, factor_S.
      apply Tr_bind; [apply Tr_lift, keepsHint_peek|]. intros first.
      apply Tr_bind; [apply Tr_lift, keepsHint_factorDollars|]. intros d.
      apply Tr_bind; [apply Tr_lift, keepsHint_next|]. intros token.
      destruct (Typ token) eqn:E;
        try (apply Tr_lift, keepsHint_unexpected);
        try (apply Tr_factor_literal; rewrite E; tauto).
      * tr_auto.
      * tr_auto.
    + rewrite traced_table_S, table_S. tr_auto. apply IH7.
    + rewrite traced_tableLoop_S, tableLoop_S. tr_auto; apply IH7.
Qed.

Lemma Tr_redir (n : nat) : Tr uq (Traced.redir uq n) (redir uq n).
Proof.
  destruct (engine_traced n) as (_ & _ & Ht & _).
  unfold Traced.redir, redir. tr_auto.
Qed.

Lemma Tr_commandLoop (n : nat) :
  forall rs, Tr uq (Traced.commandLoop uq n rs) (commandLoop uq n rs).
Proof.
  induction n as [|n IH]; intros rs; [apply Tr_lift, keepsHint_outOfFuel|].
  rewrite traced_commandLoop_S, commandLoop_S.
  pose proof (Tr_redir n). tr_auto. apply IH.
Qed.

Lemma Tr_command (n : nat) : Tr uq (Traced.command uq n) (command uq n).
Proof.
  destruct (engine_traced n) as (Hl & _).
  unfold Traced.command, command. tr_auto. apply Tr_commandLoop.
Qed.

Lemma Tr_pipelineLoop (n : nat) :
  forall l, Tr uq (Traced.pipelineLoop uq n l) (pipelineLoop uq n l).
Proof.
  induction n as [|n IH]; intros l; [apply Tr_lift, keepsHint_outOfFuel|].
  rewrite traced_pipelineLoop_S, pipelineLoop_S.
  pose proof (Tr_command n). tr_auto; apply IH.
Qed.

Lemma Tr_pipeline (n : nat) : Tr uq (Traced.pipeline uq n) (pipeline uq n).
Proof.
  unfold Traced.pipeline, pipeline. tr_auto; apply Tr_pipelineLoop.
Qed.

(** [Parse] with the record is [Parse]; what is recorded are tokens that
    [factor] accepts; and the hint of the receiver in the end is the hint
    after their acceptance. *)
Lemma Parse_traced (n : nat) (p : Parser) (txt : string) (tb : bool) :
  fst (Traced.Parse uq Lex n p txt tb) = Parse uq Lex n p txt tb /\
  Forall (acceptable uq) (accepted uq Lex n p txt tb) /\
  forall q tree err,
    Parse uq Lex n p txt tb = Returned q tree err ->
    Ctx q = hintAfter (Ctx p) (accepted uq Lex n p txt tb).
Proof.
  unfold accepted, Traced.Parse, Parse.
  set (p1 := setPeekCount 0 (setLex (Some (Lex (Name p) txt))
                               (setText txt tb p))).
  assert (Hc : Ctx p1 = Ctx p) by (destruct p; reflexivity).
  destruct (Tr_pipeline n p1 []) as (E1 & more & E2 & F & C).
  destruct (Traced.pipeline uq n p1 []) as [o acc].
  cbn [fst snd app] in E1, E2. subst o acc. rewrite Hc in C.
  destruct (pipeline uq n p1) as [root p2|e p2| |]; cbn [fst snd].
  - repeat split; [exact F|]. intros q tree err H. injection H as <- _ _.
    rewrite <- C. destruct p2. reflexivity.
  - repeat split; [exact F|]. intros q tree err H. injection H as <- _ _.
    rewrite <- C. destruct p2. reflexivity.
  - repeat split; [exact F|]. discriminate.
  - repeat split; [exact F|]. discriminate.
Qed.

(** C5 (as amended): when [factor] accepts a bare or quoted token it sets
    the hint from the raw text of the token if the token may continue, and
    clears the hint otherwise, whatever the hint was.  The hint that a call
    of [Parse] leaves in its receiver is the one of the last token that
    [factor] has accepted during the call, and it is the hint of before the
    call when no token has been accepted; so two calls on the same text
    leave the same hint, or each leaves the hint that was there. *)
Theorem hint_from_last_token :
  (forall (n : nat) (p p0 p1 p2 : Parser) (first token : Item) (d : Z)
          (txt : string),
   peek p = Done first p0 ->
   factorDollars n 0 p0 = Done d p1 ->
   next p1 = Done token p2 ->
   Typ token = ItemBare \/ Typ token = ItemSingleQuoted \/
   Typ token = ItemDoubleQuoted ->
   unquote uq token = Some (inl txt) ->
   exists f p',
     factor uq (S n) p = Done f p' /\
     Ctx p' = (if negb (Z.land (End token) MayContinue =? 0)
               then Some (NewArgContext (Val token))
               else None) /\
     Traced.factor uq (S n) p [] = (Done f p', [token])) /\
  (forall (n : nat) (p : Parser) (txt : string) (tb : bool),
   fst (Traced.Parse uq Lex n p txt tb) = Parse uq Lex n p txt tb /\
   Forall (acceptable uq) (accepted uq Lex n p txt tb) /\
   forall q tree err,
     Parse uq Lex n p txt tb = Returned q tree err ->
     match rev (accepted uq Lex n p txt tb) with
     | last :: _ => Ctx q = hintOf last
     | [] => Ctx q = Ctx p
     end) /\
  (forall (n : nat) (p q : Parser) (txt : string) (tb : bool),
   Name p = Name q ->
   sameFinalHint p q (Parse uq Lex n p txt tb) (Parse uq Lex n q txt tb)).
Proof.
  split; [|split].
  - intros n p p0 p1 p2 first token d txt Hpeek Hd Hnext HT Huq.
    eexists _, _. split; [|split].
    + exact (factor_accepts uq n p p0 p1 p2 first token d txt
               Hpeek Hd Hnext HT Huq).
    + destruct p2. reflexivity.
    + rewrite traced_factor_S. unfold bindT at 1, lift at 1. rewrite Hpeek.
      unfold bindT at 1, lift at 1. rewrite Hd.
      unfold bindT at 1, lift at 1. rewrite Hnext.
      destruct HT as [HT|[HT|HT]]; rewrite HT, Huq; reflexivity.
  - intros n p txt tb.
    destruct (Parse_traced n p txt tb) as (E & F & H).
    split; [exact E|]. split; [exact F|].
    intros q tree err HP. specialize (H q tree err HP).
    rewrite hintAfter_last in H.
    destruct (rev (accepted uq Lex n p txt tb)); exact H.
  - intros n p q txt tb HN. apply Parse_related, HN.
Qed.

End Accepted.

(** ** Every parse ends, with a tree or with one diagnostic *)

Section Total.

Variable uq : string -> string + GoError.
Variable c : Call.

Lemma tot_ret {A} (a : A) (p : Parser) (Q : A -> Parser -> Prop) :
  Q a p -> tot c (ret a) p Q.
Proof. intros H. exact H. Qed.

Lemma tot_bind {A B} (m : M A) (k : A -> M B) (p : Parser)
    (Q1 : A -> Parser -> Prop) (Q : B -> Parser -> Prop) :
  tot c m p Q1 -> (forall a p1, Q1 a p1 -> tot c (k a) p1 Q) ->
  tot c (bind m k) p Q.
Proof.
  intros Hm Hk. unfold tot, bind in *.
  destruct (m p) as [a p1|er p1| |]; try contradiction.
  - apply Hk, Hm.
  - exact Hm.
Qed.

Lemma tot_conseq {A} (m : M A) (p : Parser) (Q Q' : A -> Parser -> Prop) :
  tot c m p Q -> (forall a p', Q a p' -> Q' a p') -> tot c m p Q'.
Proof.
  intros Hm HQ. unfold tot in *.
  destruct (m p) as [a p1|er p1| |]; try contradiction.
  - apply HQ, Hm.
  - exact Hm.
Qed.

Lemma tot_errorf {A} (p : Parser) (t : Item) (format : string)
    (args : list FmtArg) (Q : A -> Parser -> Prop) :
  Inv c p -> good c t -> tot c (errorf (Pos t) format args) p Q.
Proof.
  intros (HN & HT & _) Hg. unfold tot, errorf, panicOf. cbn.
  repeat split; try assumption. exists t. split; [exact Hg|reflexivity].
Qed.

Lemma tot_unexpected {A} (p : Parser) (t : Item) (context : string)
    (Q : A -> Parser -> Prop) :
  Inv c p -> good c t -> tot c (unexpected t context) p Q.
Proof. apply tot_errorf. Qed.

Lemma good_eof : good c (mkItem ItemEOF (callEnd c) "" 0).
Proof. split; [reflexivity|right; reflexivity]. Qed.

Lemma Inv_intro n r cx x b l t0 t1 t2 (k : nat) :
  n = callName c -> x = callText c -> (k <= 1)%nat ->
  (k = 1%nat -> good c t0) -> (forall t, In t l -> good c t) ->
  Inv c (mkParser n r cx x b (Some (mkLexer l (callEnd c))) t0 t1 t2 k).
Proof.
  intros HN HT Hk Hg Hl. split; [exact HN|]. split; [exact HT|].
  split; [exact Hk|]. split; [exact Hg|]. exists l. split; [reflexivity|].
  exact Hl.
Qed.

Lemma weight_le (t : Item) : (weight t <= 1)%nat.
Proof. unfold weight. destruct (Typ t); lia. Qed.

Ltac norm_state :=
  cbv beta iota zeta delta
    [setLex setToken0 setPeekCount setCtx setRoot setToken1 setToken2
     Name Root Ctx text tab lex token0 token1 token2 peekCount].

Ltac mu_record :=
  unfold mu;
  cbn [lex pending peekCount token0 length setLex setToken0 setPeekCount
       setCtx setRoot Name Root Ctx text tab token1 token2].

Lemma next_tot (p : Parser) :
  Inv c p ->
  tot c next p (fun r p' => taken c p r p' /\
                            (peekCount p = 1%nat -> r = token0 p)).
Proof.
  destruct p as [n1 r1 c1 x1 b1 l1 u0 u1 u2 k].
  intros (HN & HT & Hk & Hg & l & HL & Hl).
  cbn in HN, HT, Hk, Hg, HL. subst l1.
  unfold tot, next. cbn [peekCount lex].
  destruct k as [|[|k]]; [| |lia].
  - unfold NextItem. cbn [pending eofPos].
    destruct l as [|t l]; cbv beta iota zeta;
      (split; [|intros H; discriminate]);
      unfold taken;
      (split; [apply Inv_intro; try assumption; try lia;
               try (intros H; discriminate)|]).
    + split; [reflexivity|]. split; [reflexivity|].
      split; [apply good_eof|]. mu_record. cbn. lia.
    + intros t' Ht'. apply Hl. right. exact Ht'.
    + split; [reflexivity|]. split; [reflexivity|].
      split; [apply Hl; left; reflexivity|].
      mu_record. pose proof (weight_le t). lia.
  - cbn [tokenAt]. split; [|reflexivity].
    specialize (Hg eq_refl). unfold taken.
    split; [apply Inv_intro; try assumption; try lia;
            intros H; discriminate|].
    split; [reflexivity|]. split; [reflexivity|]. split; [exact Hg|].
    mu_record. lia.
Qed.

Lemma peek_tot (p : Parser) :
  Inv c p -> tot c peek p (fun r p' => seen c p r p').
Proof.
  destruct p as [n1 r1 c1 x1 b1 l1 u0 u1 u2 k].
  intros (HN & HT & Hk & Hg & l & HL & Hl).
  cbn in HN, HT, Hk, Hg, HL. subst l1.
  unfold tot, peek. cbn [peekCount lex].
  destruct k as [|[|k]]; [| |lia].
  - unfold NextItem. cbn [pending eofPos].
    destruct l as [|t l]; norm_state; unfold seen.
    + split.
      { apply Inv_intro; [exact HN|exact HT|lia| |exact Hl].
        intros _. apply good_eof. }
      split; [reflexivity|]. split; [reflexivity|].
      split; [apply good_eof|]. mu_record. cbn. lia.
    + assert (Ht : good c t) by (apply Hl; left; reflexivity).
      split.
      { apply Inv_intro; [exact HN|exact HT|lia| |].
        - intros _. exact Ht.
        - intros t' Ht'. apply Hl. right. exact Ht'. }
      split; [reflexivity|]. split; [reflexivity|].
      split; [exact Ht|]. mu_record. pose proof (weight_le t). lia.
  - cbn [tokenAt]. norm_state. specialize (Hg eq_refl). unfold seen.
    split.
    { apply Inv_intro; [exact HN|exact HT|lia| |exact Hl].
      intros _. exact Hg. }
    split; [reflexivity|]. split; [reflexivity|]. split; [exact Hg|].
    mu_record. lia.
Qed.

Lemma backup_tot (p : Parser) :
  Inv c p -> peekCount p = 0%nat -> good c (token0 p) ->
  tot c backup p
    (fun _ p' => Inv c p' /\ peekCount p' = 1%nat /\
                 token0 p' = token0 p /\
                 (mu p' <= mu p + weight (token0 p))%nat).
Proof.
  destruct p as [n1 r1 c1 x1 b1 l1 u0 u1 u2 k].
  intros (HN & HT & Hk & Hg & l & HL & Hl) Hk0 Hg0.
  cbn in HN, HT, Hk, Hg, HL, Hk0, Hg0. subst l1 k.
  unfold tot, backup. norm_state.
  split.
  { apply Inv_intro; [exact HN|exact HT|lia| |exact Hl].
    intros _. exact Hg0. }
  split; [reflexivity|]. split; [reflexivity|]. mu_record. lia.
Qed.

Lemma weight_one (t : Item) : Typ t <> ItemEOF -> weight t = 1%nat.
Proof. unfold weight. destruct (Typ t); congruence. Qed.

Lemma nextNonSpace_tot (n : nat) :
  forall p, Inv c p -> (mu p < n)%nat ->
  tot c (nextNonSpace n) p
      (fun r p' => taken c p r p' /\ Typ r <> ItemSpace).
Proof.
  induction n as [|n IH]; intros p HI Hmu; [lia|].
  rewrite nextNonSpace_S.
  eapply tot_bind; [apply next_tot, HI|].
  intros r p1 ((HI1 & Hk1 & Ht1 & Hg1 & Hmu1) & _).
  destruct (Typ r) eqn:E;
    try (apply tot_ret; split;
         [exact (conj HI1 (conj Hk1 (conj Ht1 (conj Hg1 Hmu1))))
         |rewrite E; discriminate]).
  rewrite (weight_one r) in Hmu1 by (rewrite E; discriminate).
  eapply tot_conseq; [apply IH; [exact HI1|lia]|].
  intros r' p' ((HI' & Hk' & Ht' & Hg' & Hmu') & Hns).
  split; [|exact Hns].
  refine (conj HI' (conj Hk' (conj Ht' (conj Hg' _)))). lia.
Qed.

Lemma peekNonSpace_tot (n : nat) (p : Parser) :
  Inv c p -> (mu p < n)%nat ->
  tot c (peekNonSpace n) p
      (fun r p' => seen c p r p' /\ Typ r <> ItemSpace).
Proof.
  intros HI Hmu. unfold peekNonSpace.
  eapply tot_bind; [apply nextNonSpace_tot; assumption|].
  intros r p1 ((HI1 & Hk1 & Ht1 & Hg1 & Hmu1) & Hns).
  eapply tot_bind;
    [apply backup_tot; [exact HI1|exact Hk1|rewrite Ht1; exact Hg1]|].
  intros _ p2 (HI2 & Hk2 & Ht2 & Hmu2).
  apply tot_ret. split; [|exact Hns].
  rewrite Ht1 in Ht2, Hmu2.
  refine (conj HI2 (conj Hk2 (conj Ht2 (conj Hg1 _)))). lia.
Qed.

Lemma factorDollars_tot (n : nat) :
  forall d p, Inv c p -> (mu p < n)%nat ->
  tot c (factorDollars n d) p (fun _ p' => noMore c p p').
Proof.
  induction n as [|n IH]; intros d p HI Hmu; [lia|].
  rewrite factorDollars_S.
  eapply tot_bind; [apply peek_tot, HI|].
  intros r p1 (HI1 & Hk1 & Ht1 & Hg1 & Hmu1).
  destruct (Typ r) eqn:E;
    try (apply tot_ret; exact (conj HI1 Hmu1)).
  eapply tot_bind; [apply next_tot, HI1|].
  intros r' p2 ((HI2 & Hk2 & Ht2 & Hg2 & Hmu2) & Hsame).
  assert (Hw : weight r' = 1%nat)
    by (rewrite (Hsame Hk1), Ht1; apply weight_one; rewrite E; discriminate).
  rewrite Hw in Hmu2.
  eapply tot_conseq; [apply IH; [exact HI2|lia]|].
  intros _ p' (HI' & Hmu'). split; [exact HI'|lia].
Qed.

Lemma assignCtx_tot (h : option Context) (p : Parser) :
  Inv c p -> tot c (assignCtx h) p (fun _ p' => Inv c p' /\ mu p' = mu p).
Proof.
  destruct p as [n1 r1 c1 x1 b1 l1 u0 u1 u2 k].
  intros HI. unfold tot, assignCtx. split; [exact HI|reflexivity].
Qed.

Lemma slice_some (s : string) (lo hi : Z) :
  0 <= lo -> lo <= hi -> hi <= GoString.len s ->
  exists x, GoString.slice s lo hi = Some x.
Proof.
  intros H1 H2 H3. unfold GoString.slice.
  replace ((0 <=? lo) && (lo <=? hi) && (hi <=? GoString.len s)) with true.
  - eexists. reflexivity.
  - symmetry. rewrite !andb_true_iff, !Z.leb_le. repeat split; assumption.
Qed.

Lemma unquote_some (t : Item) :
  wellFormedToken t = true -> exists r, unquote uq t = Some r.
Proof.
  unfold wellFormedToken, unquote. intros H.
  destruct (Typ t); try (eexists; reflexivity).
  apply Z.leb_le in H.
  destruct (slice_some (Val t) 1 (GoString.len (Val t) - 1))
    as [x Hx]; try lia.
  rewrite Hx. eexists. reflexivity.
Qed.

Lemma engine_tot (n : nat) :
  (forall p, Inv c p -> (4 * mu p + 4 <= n)%nat ->
     tot c (termList uq n) p (fun _ p' => fewer c p p')) /\
  (forall l p, Inv c p -> (4 * mu p + 4 <= n)%nat ->
     tot c (termListLoop uq n l) p (fun _ p' => noMore c p p')) /\
  (forall p, Inv c p -> (4 * mu p + 3 <= n)%nat ->
     tot c (term uq n) p (fun _ p' => fewer c p p')) /\
  (forall l p, Inv c p -> (4 * mu p + 3 <= n)%nat ->
     tot c (termLoop uq n l) p (fun _ p' => noMore c p p')) /\
  (forall p, Inv c p -> (4 * mu p + 2 <= n)%nat ->
     tot c (factor uq n) p (fun _ p' => fewer c p p')) /\
  (forall p, Inv c p -> (4 * mu p + 5 <= n)%nat ->
     tot c (table uq n) p (fun _ p' => noMore c p p')) /\
  (forall t p, Inv c p -> (4 * mu p + 4 <= n)%nat ->
     tot c (tableLoop uq n t) p (fun _ p' => noMore c p p')).
Proof.
  induction n as [|n (IHtl & IHtll & IHt & IHtlp & IHf & IHtb & IHtbl)].
  { repeat split; intros; lia. }
  split; [|split; [|split; [|split; [|split; [|split]]]]].
  - (* termList *)
    intros p HI Hn. rewrite termList_S.
    eapply tot_bind; [apply peek_tot, HI|].
    intros first p1 (HI1 & Hk1 & Ht1 & Hg1 & Hmu1).
    eapply tot_bind; [apply IHt; [exact HI1|lia]|].
    intros t p2 (HI2 & Hmu2).
    eapply tot_conseq; [apply IHtll; [exact HI2|lia]|].
    intros l p3 (HI3 & Hmu3). split; [exact HI3|lia].
  - (* termListLoop *)
    intros l p HI Hn. rewrite termListLoop_S.
    eapply tot_bind; [apply peekNonSpace_tot; [exact HI|lia]|].
    intros tok p1 ((HI1 & Hk1 & Ht1 & Hg1 & Hmu1) & Hns).
    destruct (startsFactor (Typ tok)).
    + eapply tot_bind; [apply IHt; [exact HI1|lia]|].
      intros t p2 (HI2 & Hmu2).
      eapply tot_conseq; [apply IHtll; [exact HI2|lia]|].
      intros l' p3 (HI3 & Hmu3). split; [exact HI3|lia].
    + apply tot_ret. split; [exact HI1|lia].
  - (* term *)
    intros p HI Hn. rewrite term_S.
    eapply tot_bind; [apply peek_tot, HI|].
    intros first p1 (HI1 & Hk1 & Ht1 & Hg1 & Hmu1).
    eapply tot_bind; [apply IHf; [exact HI1|lia]|].
    intros f p2 (HI2 & Hmu2).
    eapply tot_conseq; [apply IHtlp; [exact HI2|lia]|].
    intros l p3 (HI3 & Hmu3). split; [exact HI3|lia].
  - (* termLoop *)
    intros l p HI Hn. rewrite termLoop_S.
    eapply tot_bind; [apply peek_tot, HI|].
    intros tok p1 (HI1 & Hk1 & Ht1 & Hg1 & Hmu1).
    destruct (startsFactor (Typ tok)).
    + eapply tot_bind; [apply IHf; [exact HI1|lia]|].
      intros f p2 (HI2 & Hmu2).
      eapply tot_conseq; [apply IHtlp; [exact HI2|lia]|].
      intros l' p3 (HI3 & Hmu3). split; [exact HI3|lia].
    + eapply tot_bind; [apply peekNonSpace_tot; [exact HI1|lia]|].
      intros tok' p2 ((HI2 & Hk2 & Ht2 & Hg2 & Hmu2) & Hns).
      destruct (Typ tok');
        try (apply tot_ret; split; [exact HI2|lia]).
      eapply tot_bind; [apply next_tot, HI2|].
      intros tk p3 ((HI3 & Hk3 & Ht3 & Hg3 & Hmu3) & _).
      eapply tot_bind; [apply peekNonSpace_tot; [exact HI3|lia]|].
      intros tk' p4 ((HI4 & Hk4 & Ht4 & Hg4 & Hmu4) & _).
      eapply tot_bind; [apply IHf; [exact HI4|lia]|].
      intros f p5 (HI5 & Hmu5).
      eapply tot_conseq; [apply IHtlp; [exact HI5|lia]|].
      intros l' p6 (HI6 & Hmu6). split; [exact HI6|lia].
  - (* factor *)
    intros p HI Hn. rewrite factor_S.
    eapply tot_bind; [apply peek_tot, HI|].
    intros first p1 (HI1 & Hk1 & Ht1 & Hg1 & Hmu1).
    eapply tot_bind; [apply factorDollars_tot; [exact HI1|lia]|].
    intros dollar p2 (HI2 & Hmu2).
    eapply tot_bind; [apply next_tot, HI2|].
    intros token p3 ((HI3 & Hk3 & Ht3 & Hg3 & Hmu3) & _).
    assert (Hstr : Typ token <> ItemEOF ->
      tot c
        match unquote uq token with
        | Some (inl txt) =>
            assignCtx
              (if negb (Z.land (End token) MayContinue =? 0)
               then Some (NewArgContext (Val token))
               else None);;;
            ret (mkFactorNode (Pos first) dollar
                   (AString (newString (Pos token) (Val token) txt)))
        | Some (inr err) => errorf (Pos token) "%s" [ArgError err]
        | None => crash
        end p3 (fun _ p' => fewer c p p')).
    { intros Hne. rewrite (weight_one token Hne) in Hmu3.
      destruct (unquote_some token (proj1 Hg3)) as [[txt|err] ->].
      - eapply tot_bind; [apply assignCtx_tot, HI3|].
        intros _ p4 (HI4 & Hmu4). apply tot_ret. split; [exact HI4|lia].
      - apply tot_errorf; assumption. }
    destruct (Typ token) eqn:E;
      try (apply tot_unexpected; assumption);
      try (apply Hstr; discriminate).
    + (* ( *)
      rewrite (weight_one token) in Hmu3 by (rewrite E; discriminate).
      eapply tot_bind; [apply IHtl; [exact HI3|lia]|].
      intros l p4 (HI4 & Hmu4).
      eapply tot_bind; [apply next_tot, HI4|].
      intros closing p5 ((HI5 & Hk5 & Ht5 & Hg5 & Hmu5) & _).
      destruct (Typ closing);
        try (apply tot_unexpected; assumption).
      apply tot_ret. split; [exact HI5|lia].
    + (* [ *)
      rewrite (weight_one token) in Hmu3 by (rewrite E; discriminate).
      eapply tot_bind; [apply IHtb; [exact HI3|lia]|].
      intros tn p4 (HI4 & Hmu4).
      apply tot_ret. split; [exact HI4|lia].
  - (* table *)
    intros p HI Hn. rewrite table_S.
    eapply tot_bind; [apply peek_tot, HI|].
    intros first p1 (HI1 & Hk1 & Ht1 & Hg1 & Hmu1).
    eapply tot_conseq; [apply IHtbl; [exact HI1|lia]|].
    intros l p3 (HI3 & Hmu3). split; [exact HI3|lia].
  - (* tableLoop *)
    intros tn p HI Hn. rewrite tableLoop_S.
    eapply tot_bind; [apply nextNonSpace_tot; [exact HI|lia]|].
    intros token p1 ((HI1 & Hk1 & Ht1 & Hg1 & Hmu1) & Hns).
    destruct (startsFactor (Typ token)) eqn:Esf.
    + assert (Hw : weight token = 1%nat)
        by (apply weight_one; intros E; rewrite E in Esf; discriminate).
      rewrite Hw in Hmu1.
      eapply tot_bind;
        [apply backup_tot; [exact HI1|exact Hk1|rewrite Ht1; exact Hg1]|].
      intros _ p2 (HI2 & Hk2 & Ht2 & Hmu2).
      rewrite Ht1, Hw in Hmu2.
      eapply tot_bind; [apply IHt; [exact HI2|lia]|].
      intros key p3 (HI3 & Hmu3).
      eapply tot_bind; [apply peekNonSpace_tot; [exact HI3|lia]|].
      intros nxt p4 ((HI4 & Hk4 & Ht4 & Hg4 & Hmu4) & _).
      destruct (ItemType_beq (Typ nxt) ItemBare && String.eqb (Val nxt) "=").
      * eapply tot_bind; [apply next_tot, HI4|].
        intros tk p5 ((HI5 & Hk5 & Ht5 & Hg5 & Hmu5) & _).
        eapply tot_bind; [apply peekNonSpace_tot; [exact HI5|lia]|].
        intros tk' p6 ((HI6 & Hk6 & Ht6 & Hg6 & Hmu6) & _).
        eapply tot_bind; [apply IHt; [exact HI6|lia]|].
        intros v p7 (HI7 & Hmu7).
        eapply tot_conseq; [apply IHtbl; [exact HI7|lia]|].
        intros l' p8 (HI8 & Hmu8). split; [exact HI8|lia].
      * eapply tot_conseq; [apply IHtbl; [exact HI4|lia]|].
        intros l' p8 (HI8 & Hmu8). split; [exact HI8|lia].
    + destruct (Typ token);
        try (apply tot_unexpected; assumption).
      apply tot_ret. split; [exact HI1|lia].
Qed.

Lemma term_tot (n : nat) (p : Parser) :
  Inv c p -> (4 * mu p + 3 <= n)%nat ->
  tot c (term uq n) p (fun _ p' => fewer c p p').
Proof. apply engine_tot. Qed.

Lemma termList_tot (n : nat) (p : Parser) :
  Inv c p -> (4 * mu p + 4 <= n)%nat ->
  tot c (termList uq n) p (fun _ p' => fewer c p p').
Proof. apply engine_tot. Qed.

Lemma toFile_tot (n : nat) (fd flag : Z) (p : Parser) :
  Inv c p -> (4 * mu p + 3 <= n)%nat ->
  tot c (toFile uq n fd flag) p (fun _ p' => fewer c p p').
Proof.
  intros HI Hn. unfold toFile.
  eapply tot_bind; [apply peekNonSpace_tot; [exact HI|lia]|].
  intros tok p1 ((HI1 & Hk1 & Ht1 & Hg1 & Hmu1) & _).
  eapply tot_bind; [apply term_tot; [exact HI1|lia]|].
  intros t p2 (HI2 & Hmu2). apply tot_ret. split; [exact HI2|lia].
Qed.

Lemma raised_tot {A} (p : Parser) (t : Item) (format : string)
    (args : list FmtArg) :
  Inv c p -> good c t ->
  match @raised A p (Pos t) format args with
  | Panicked er p' => panicOf c er p'
  | _ => False
  end.
Proof.
  intros (HN & HT & _) Hg. unfold raised, panicOf. cbn.
  repeat split; try assumption. exists t. split; [exact Hg|reflexivity].
Qed.

Lemma redir_tot (n : nat) (p : Parser) :
  Inv c p -> peekCount p = 1%nat -> Typ (token0 p) = ItemRedirLeader ->
  (4 * mu p + 3 <= n)%nat ->
  tot c (redir uq n) p (fun _ p' => fewer c p p').
Proof.
  intros HI Hk HT Hn.
  pose proof (next_tot p HI) as Hnext. unfold tot in Hnext.
  destruct (next p) as [leader p1| | |] eqn:En; try contradiction.
  2:{ exfalso. destruct p as [n1 r1 c1 x1 b1 l1 u0 u1 u2 k].
      cbn in Hk. subst k. discriminate En. }
  destruct Hnext as ((HI1 & Hk1 & Ht1 & Hg1 & Hmu1) & Hsame).
  rewrite <- (Hsame Hk) in HT.
  rewrite (weight_one leader) in Hmu1 by (rewrite HT; discriminate).
  assert (Hsplit : exists dq, splitLeader (Val leader) = Some dq).
  { destruct Hg1 as [Hw _]. unfold wellFormedToken in Hw. rewrite HT in Hw.
    destruct (splitLeader (Val leader)) as [dq|]; [eauto|discriminate]. }
  destruct Hsplit as [[dir qual] Hsplit].
  unfold tot. rewrite (redir_unfold uq n p p1 leader dir qual En Hsplit).
  assert (Hfile : forall fd flag,
    match toFile uq n fd flag p1 with
    | Done _ p' => fewer c p p'
    | Panicked er p' => panicOf c er p'
    | _ => False
    end).
  { intros fd flag.
    pose proof (toFile_tot n fd flag p1 HI1 ltac:(lia)) as H.
    unfold tot in H. destruct (toFile uq n fd flag p1); try exact H.
    destruct H as [H1 H2]. split; [exact H1|lia]. }
  assert (Hdone : fewer c p p1) by (split; [exact HI1|lia]).
  destruct (directionTable dir) as [[fd0 flag]|];
    [|apply (raised_tot (A:=Redir)); assumption].
  destruct (0 <? GoString.len qual); [|apply Hfile].
  cbv zeta.
  destruct (negb (GoString.IndexRune qual "=" =? -1)) eqn:Ej.
  - pose proof (GoStringFacts.IndexRune_range qual "="%char) as Hr.
    apply negb_true_iff, Z.eqb_neq in Ej.
    destruct (slice_some qual 0 (GoString.IndexRune qual "="))
      as [lhs ->]; try lia.
    destruct (slice_some qual (GoString.IndexRune qual "=" + 1)
                (GoString.len qual)) as [rhs ->]; try lia.
    destruct (if 0 <? GoString.len lhs then Atou lhs else Some fd0);
      [|apply (raised_tot (A:=Redir)); assumption].
    destruct (0 <? GoString.len rhs); [|exact Hdone].
    destruct (Atou rhs); [exact Hdone|apply (raised_tot (A:=Redir)); assumption].
  - destruct (Atou qual); [apply Hfile|apply (raised_tot (A:=Redir)); assumption].
Qed.

Lemma commandLoop_tot (n : nat) :
  forall rs p, Inv c p -> (4 * mu p + 4 <= n)%nat ->
  tot c (commandLoop uq n rs) p (fun _ p' => noMore c p p').
Proof.
  induction n as [|n IH]; intros rs p HI Hn; [lia|].
  rewrite commandLoop_S.
  eapply tot_bind; [apply peekNonSpace_tot; [exact HI|lia]|].
  intros tok p1 ((HI1 & Hk1 & Ht1 & Hg1 & Hmu1) & _).
  destruct (Typ tok) eqn:E;
    try (apply tot_ret; split; [exact HI1|lia]).
  eapply tot_bind;
    [apply redir_tot; [exact HI1|exact Hk1|rewrite Ht1; exact E|lia]|].
  intros r p2 (HI2 & Hmu2).
  eapply tot_conseq; [apply IH; [exact HI2|lia]|].
  intros rs' p3 (HI3 & Hmu3). split; [exact HI3|lia].
Qed.

Lemma command_tot (n : nat) (p : Parser) :
  Inv c p -> (4 * mu p + 4 <= n)%nat ->
  tot c (command uq n) p (fun _ p' => fewer c p p').
Proof.
  intros HI Hn. unfold command.
  eapply tot_bind; [apply peek_tot, HI|].
  intros first p1 (HI1 & Hk1 & Ht1 & Hg1 & Hmu1).
  eapply tot_bind; [apply termList_tot; [exact HI1|lia]|].
  intros l p2 (HI2 & Hmu2).
  eapply tot_bind; [apply commandLoop_tot; [exact HI2|lia]|].
  intros rs p3 (HI3 & Hmu3).
  apply tot_ret. split; [exact HI3|lia].
Qed.

Lemma pipelineLoop_tot (n : nat) :
  forall l p, Inv c p -> (4 * mu p + 5 <= n)%nat ->
  tot c (pipelineLoop uq n l) p (fun _ p' => Inv c p').
Proof.
  induction n as [|n IH]; intros l p HI Hn; [lia|].
  rewrite pipelineLoop_S.
  eapply tot_bind; [apply command_tot; [exact HI|lia]|].
  intros cm p1 (HI1 & Hmu1).
  eapply tot_bind; [apply next_tot, HI1|].
  intros token p2 ((HI2 & Hk2 & Ht2 & Hg2 & Hmu2) & _).
  destruct (Typ token);
    try (apply tot_unexpected; assumption);
    try (apply tot_ret; exact HI2).
  apply IH; [exact HI2|lia].
Qed.

Lemma pipeline_tot (n : nat) (p : Parser) :
  Inv c p -> (4 * mu p + 5 <= n)%nat ->
  tot c (pipeline uq n) p (fun _ p' => Inv c p').
Proof.
  intros HI Hn. unfold pipeline.
  eapply tot_bind; [apply peek_tot, HI|].
  intros first p1 (HI1 & Hk1 & Ht1 & Hg1 & Hmu1).
  eapply tot_bind; [apply peekNonSpace_tot; [exact HI1|lia]|].
  intros tok p2 ((HI2 & Hk2 & Ht2 & Hg2 & Hmu2) & _).
  destruct (Typ tok);
    try (apply pipelineLoop_tot; [exact HI2|lia]).
  apply tot_ret. exact HI2.
Qed.

End Total.

Section Returns.

Variable uq : string -> string + GoError.
Variable Lex : string -> string -> Lexer.

(** X1: With well-formed tokens and fuel for four steps a token and five more,
    [Parse] returns: a well-formed tree and no diagnostic, or no tree, the
    root cleared and one diagnostic that names the script and its text and
    points at a token of the input or at its end. *)
Theorem Parse_returns (p : Parser) (txt : string) (tb : bool) (n : nat) :
  forallb wellFormedToken (pending (Lex (Name p) txt)) = true ->
  (4 * length (pending (Lex (Name p) txt)) + 5 <= n)%nat ->
  (exists q root,
     Parse uq Lex n p txt tb = Returned q (Some q) None /\
     Root q = Some (AList root) /\ wfList pipelineRole root = true /\
     Name q = Name p /\ text q = txt /\ lex q = None) \/
  (exists q er t,
     Parse uq Lex n p txt tb = Returned q None (Some er) /\
     Root q = None /\ Name q = Name p /\ text q = txt /\ lex q = None /\
     errName er = Name p /\ errText er = txt /\ errPos er = Pos t /\
     (In t (pending (Lex (Name p) txt)) \/
      t = mkItem ItemEOF (eofPos (Lex (Name p) txt)) "" 0)).
Proof.
  intros Hwf Hn. unfold Parse.
  destruct p as [nm r cx x b l t0 t1 t2 k].
  cbv beta iota zeta delta
    [setText setLex setPeekCount Name Root Ctx text tab lex token0 token1
     token2 peekCount] in *.
  destruct (Lex nm txt) as [toks e] eqn:EL. cbn [pending eofPos] in *.
  set (c := mkCall nm txt toks e).
  set (p1 := mkParser nm r cx txt tb (Some (mkLexer toks e)) t0 t1 t2 0).
  assert (HI : Inv c p1).
  { apply (Inv_intro c);
      [reflexivity|reflexivity|lia|intros H; discriminate|].
    intros t Ht. split; [|left; exact Ht].
    rewrite forallb_forall in Hwf. apply Hwf, Ht. }
  assert (Hmu : (4 * mu p1 + 5 <= n)%nat) by (unfold mu, p1; cbn; lia).
  pose proof (pipeline_tot uq c n p1 HI Hmu) as H. unfold tot in H.
  pose proof (pipeline_wf uq n p1) as Hw.
  destruct (pipeline uq n p1) as [root p2|er p2| |]; try contradiction.
  - left. destruct H as (HN & HT & _).
    destruct p2 as [n2 r2 c2 x2 b2 l2 v0 v1 v2 k2]. cbn in HN, HT.
    eexists _, root.
    split; [reflexivity|]. split; [reflexivity|]. split; [exact Hw|].
    split; [exact HN|]. split; [exact HT|reflexivity].
  - right. destruct H as (HR & HN & HT & HeN & HeT & t & (_ & Hin) & Hpos).
    exists (stopParse p2), er, t.
    destruct p2 as [n2 r2 c2 x2 b2 l2 v0 v1 v2 k2]. cbn in HR, HN, HT.
    split; [reflexivity|]. split; [exact HR|]. split; [exact HN|].
    split; [exact HT|]. split; [reflexivity|]. split; [exact HeN|].
    split; [exact HeT|]. split; [exact Hpos|exact Hin].
Qed.

End Returns.

(** ** The token cursor *)

Section Cursor.

Ltac destruct_parser p :=
  destruct p as [n1 r1 c1 x1 b1 l1 u0 u1 u2 k].

Ltac cursor_case :=
  cbv beta iota zeta delta
    [bind ret next peek backup backup2 backup3 tokenAt
     setPeekCount setLex setToken0 setToken1 setToken2
     Name Root Ctx text tab lex token0 token1 token2 peekCount].

Lemma peek_next_same (p p1 : Parser) (t : Item) :
  peek p = Done t p1 ->
  peek p1 = Done t p1 /\ next p1 = next p /\ exists p2, next p = Done t p2.
Proof.
  destruct_parser p. unfold peek. cbn [peekCount lex].
  destruct k as [|k].
  - destruct l1 as [l|]; [|discriminate].
    destruct (NextItem l) as [it l'] eqn:EN. intros H.
    injection H as <- <-. cursor_case. rewrite EN.
    repeat split. eexists. reflexivity.
  - destruct (tokenAt _ k) as [t'|] eqn:Et; [|discriminate].
    intros H. injection H as <- <-.
    unfold peek, next. cbn [peekCount]. rewrite Et.
    repeat split. eexists. reflexivity.
Qed.

(** X3: [peek] does not consume: looking again gives the same token, and the
    [next] that follows gives it too and ends where [next] alone would. *)
Theorem peek_then_next (p p1 : Parser) (t : Item) :
  peek p = Done t p1 ->
  peek p1 = Done t p1 /\ next p1 = next p /\ exists p2, next p = Done t p2.
Proof. apply peek_next_same. Qed.

(** X4: [backup] after [next] puts the token back: [peek] then shows it
    without taking it, and the next [next] gives it again and ends in the
    parser that the first [next] left. *)
Theorem next_backup_next (p p1 : Parser) (t : Item) :
  next p = Done t p1 ->
  (backup ;;; next) p1 = Done t p1 /\
  exists p', backup p1 = Done tt p' /\ peek p' = Done t p' /\
             (backup ;;; peek) p1 = Done t p' /\ next p' = Done t p1.
Proof.
  destruct_parser p. unfold next. cbn [peekCount lex].
  destruct k as [|k].
  - destruct l1 as [l|]; [|discriminate].
    destruct (NextItem l) as [it l'] eqn:EN. intros H.
    injection H as <- <-. split; [reflexivity|].
    eexists. repeat split.
  - destruct (tokenAt _ k) as [t'|] eqn:Et; [|discriminate].
    intros H. injection H as <- <-.
    cbv beta iota zeta delta [tokenAt token0 token1 token2] in Et.
    split.
    + cursor_case. rewrite Et. reflexivity.
    + eexists. split; [reflexivity|].
      cursor_case. rewrite Et. repeat split.
Qed.

(** After a [next] that leaves nothing pushed back, the token it gave is
    in the first slot of the buffer. *)
Lemma next_slot0 (p p1 : Parser) (t : Item) :
  next p = Done t p1 -> peekCount p1 = 0%nat -> token0 p1 = t.
Proof.
  destruct_parser p. unfold next. cbn [peekCount lex].
  destruct k as [|k].
  - destruct l1 as [l|]; [|discriminate].
    destruct (NextItem l) as [it l']. intros H. injection H as <- <-.
    reflexivity.
  - destruct (tokenAt _ k) as [t'|] eqn:Et; [|discriminate].
    intros H. injection H as <- <-. cbn. intros ->. cbn in Et.
    congruence.
Qed.

(** X5: [backup2]: two tokens read in a row, [a] then [b], with nothing pushed
    back after [b], are given again in that order once [a] is handed to
    [backup2]. *)
Theorem backup2_replays (p1 p2 : Parser) (a b : Item) :
  next p1 = Done b p2 -> peekCount p2 = 0%nat ->
  (backup2 a ;;; x <- next ;; y <- next ;; ret (x, y)) p2 =
  Done (a, b) (setToken1 a p2).
Proof.
  intros Hn Hk. pose proof (next_slot0 p1 p2 b Hn Hk) as H0.
  destruct p2 as [n2 r2 c2 x2 b2 l2 v0 v1 v2 k2].
  cbn in Hk, H0. subst k2 v0. reflexivity.
Qed.

(** X6: [backup3]: three tokens read in a row, [a], [b], [d], with nothing
    pushed back after [d], are given again in that order once [a] and [b]
    are handed to [backup3]. *)
Theorem backup3_replays (p2 p3 : Parser) (a b d : Item) :
  next p2 = Done d p3 -> peekCount p3 = 0%nat ->
  (backup3 a b ;;; x <- next ;; y <- next ;; z <- next ;; ret (x, y, z)) p3 =
  Done (a, b, d) (setToken2 a (setToken1 b p3)).
Proof.
  intros Hn Hk. pose proof (next_slot0 p2 p3 d Hn Hk) as H0.
  destruct p3 as [n3 r3 c3 x3 b3 l3 v0 v1 v2 k3].
  cbn in Hk, H0. subst k3 v0. reflexivity.
Qed.

(** The token that [next] gave is in the slot that [backup] opens again. *)
Lemma next_slot (p p1 : Parser) (t : Item) :
  next p = Done t p1 -> tokenAt p1 (peekCount p1) = Some t.
Proof.
  destruct_parser p. unfold next. cbn [peekCount lex].
  destruct k as [|k].
  - destruct l1 as [l|]; [|discriminate].
    destruct (NextItem l) as [it l']. intros H. injection H as <- <-.
    reflexivity.
  - destruct (tokenAt _ k) as [t'|] eqn:Et; [|discriminate].
    intros H. injection H as <- <-. exact Et.
Qed.

Lemma nextNonSpace_slot (n : nat) :
  forall p p1 t,
  nextNonSpace n p = Done t p1 ->
  Typ t <> ItemSpace /\ tokenAt p1 (peekCount p1) = Some t.
Proof.
  induction n as [|n IH]; intros p p1 t H; [discriminate|].
  rewrite nextNonSpace_S in H. unfold bind at 1 in H.
  destruct (next p) as [tok p0| | |] eqn:En; try discriminate.
  destruct (Typ tok) eqn:E;
    try (injection H as <- <-; split;
         [rewrite E; discriminate|exact (next_slot _ _ _ En)]).
  exact (IH _ _ _ H).
Qed.

Lemma peekNonSpace_pending (n : nat) (p p1 : Parser) (t : Item) :
  peekNonSpace n p = Done t p1 ->
  Typ t <> ItemSpace /\
  peek p1 = Done t p1 /\
  exists p0, nextNonSpace n p = Done t p0 /\ next p1 = Done t p0.
Proof.
  unfold peekNonSpace. unfold bind at 1.
  destruct (nextNonSpace n p) as [tok p0| | |] eqn:En; try discriminate.
  intros H. cbv beta iota zeta delta [bind backup ret] in H.
  injection H as <- <-.
  destruct (nextNonSpace_slot n p p0 tok En) as [Hns Hslot].
  split; [exact Hns|].
  destruct p0 as [n0 r0 c0 x0 b0 l0 v0 v1 v2 k0].
  cbv beta iota zeta delta [tokenAt token0 token1 token2 peekCount] in Hslot.
  split.
  - cursor_case. rewrite Hslot. reflexivity.
  - eexists. split; [reflexivity|].
    cursor_case. rewrite Hslot. reflexivity.
Qed.

(** X7: [nextNonSpace] and [peekNonSpace] never give a space; what
    [peekNonSpace] gives is the token [nextNonSpace] would have taken, and
    it is still to be read: [peek] shows it and [next] takes it. *)
Theorem peekNonSpace_leaves_token (n : nat) (p p1 : Parser) (t : Item) :
  peekNonSpace n p = Done t p1 ->
  Typ t <> ItemSpace /\
  peek p1 = Done t p1 /\
  exists p0, nextNonSpace n p = Done t p0 /\ next p1 = Done t p0.
Proof. apply peekNonSpace_pending. Qed.

End Cursor.

(** ** Look-ahead *)

Section Lookahead.

Variable uq : string -> string + GoError.

Lemma factor_unexpected (n : nat) (p p1 : Parser) (tok : Item) :
  peek p = Done tok p1 ->
  startsFactor (Typ tok) = false ->
  exists p2,
    next p = Done tok p2 /\
    factor uq (S (S n)) p =
    Panicked
      (NewContextualError (Name p2) (text p2) (Pos tok)
         "unexpected %s in %s" [ArgItem tok; ArgString "factor"])
      (setRoot None p2).
Proof.
  intros Hpeek Hsf.
  destruct (peek_next_same p p1 tok Hpeek) as (Hpeek1 & Hnext1 & p2 & Hnext).
  exists p2. split; [exact Hnext|].
  rewrite factor_S. run_with Hpeek.
  rewrite factorDollars_S. unfold bind at 1. run_with Hpeek1.
  rewrite <- Hnext1 in Hnext.
  destruct (Typ tok) eqn:E; try discriminate Hsf;
    cbv beta iota zeta delta [ret]; run_with Hnext; rewrite E; reflexivity.
Qed.

Lemma factor_first (n : nat) (p : Parser) (f : FactorNode) (p' : Parser) :
  factor uq n p = Done f p' -> startsWithFactor p.
Proof.
  intros H.
  destruct (peek p) as [tok p1| | |] eqn:Hpeek;
    try (destruct n; [discriminate|];
         rewrite factor_S in H; unfold bind at 1 in H; rewrite Hpeek in H;
         discriminate).
  destruct (startsFactor (Typ tok)) eqn:Hsf; [exists tok, p1; auto|].
  exfalso.
  destruct n as [|[|n]]; [discriminate| |].
  - rewrite factor_S in H. run_in H Hpeek. discriminate.
  - destruct (factor_unexpected n p p1 tok Hpeek Hsf) as (p2 & _ & E).
    rewrite E in H. discriminate.
Qed.

Lemma term_first (n : nat) (p : Parser) (t : ListNode) (p' : Parser) :
  term uq n p = Done t p' -> startsWithFactor p.
Proof.
  destruct n as [|n]; [discriminate|]. rewrite term_S. intros H.
  unfold bind at 1 in H.
  destruct (peek p) as [first p1| | |] eqn:Hpeek; try discriminate.
  unfold bind at 1 in H.
  destruct (factor uq n p1) as [f p2| | |] eqn:Hf; try discriminate.
  destruct (factor_first n p1 f p2 Hf) as (tok & q & Hq & Hsf).
  destruct (peek_next_same p p1 first Hpeek) as (Hpeek1 & _).
  rewrite Hpeek1 in Hq. injection Hq as <- <-.
  exists first, p1. auto.
Qed.

Lemma termList_first (n : nat) (p : Parser) (l : ListNode) (p' : Parser) :
  termList uq n p = Done l p' -> startsWithFactor p.
Proof.
  destruct n as [|n]; [discriminate|]. rewrite termList_S. intros H.
  unfold bind at 1 in H.
  destruct (peek p) as [first p1| | |] eqn:Hpeek; try discriminate.
  unfold bind at 1 in H.
  destruct (term uq n p1) as [t p2| | |] eqn:Ht; try discriminate.
  destruct (term_first n p1 t p2 Ht) as (tok & q & Hq & Hsf).
  destruct (peek_next_same p p1 first Hpeek) as (Hpeek1 & _).
  rewrite Hpeek1 in Hq. injection Hq as <- <-.
  exists first, p1. auto.
Qed.

Lemma term_unexpected (n : nat) (p p1 : Parser) (tok : Item) :
  peek p = Done tok p1 ->
  startsFactor (Typ tok) = false ->
  exists p2,
    next p = Done tok p2 /\
    term uq (S (S (S n))) p =
    Panicked
      (NewContextualError (Name p2) (text p2) (Pos tok)
         "unexpected %s in %s" [ArgItem tok; ArgString "factor"])
      (setRoot None p2).
Proof.
  intros Hpeek Hsf.
  destruct (peek_next_same p p1 tok Hpeek) as (Hpeek1 & Hnext1 & _).
  destruct (factor_unexpected n p1 p1 tok Hpeek1 Hsf) as (p2 & Hnext & Hf).
  exists p2. rewrite <- Hnext1. split; [exact Hnext|].
  rewrite term_S. run_with Hpeek. unfold bind at 1. rewrite Hf. reflexivity.
Qed.

Lemma termList_unexpected (n : nat) (p p1 : Parser) (tok : Item) :
  peek p = Done tok p1 ->
  startsFactor (Typ tok) = false ->
  exists p2,
    next p = Done tok p2 /\
    termList uq (S (S (S (S n)))) p =
    Panicked
      (NewContextualError (Name p2) (text p2) (Pos tok)
         "unexpected %s in %s" [ArgItem tok; ArgString "factor"])
      (setRoot None p2).
Proof.
  intros Hpeek Hsf.
  destruct (peek_next_same p p1 tok Hpeek) as (Hpeek1 & Hnext1 & _).
  destruct (term_unexpected n p1 p1 tok Hpeek1 Hsf) as (p2 & Hnext & Hf).
  exists p2. rewrite <- Hnext1. split; [exact Hnext|].
  rewrite termList_S. run_with Hpeek. unfold bind at 1. rewrite Hf.
  reflexivity.
Qed.

(** X8: [startsFactor] agrees with the parsers it guards: a factor, a term or
    a list of terms is parsed only from a token that [startsFactor] accepts,
    and on any other token [factor], [term] and [termList] all take that
    token and raise the same "unexpected ... in factor" at it. *)
Theorem startsFactor_agrees (n : nat) (p : Parser) :
  ((exists f p', factor uq n p = Done f p') \/
   (exists t p', term uq n p = Done t p') \/
   (exists l p', termList uq n p = Done l p') ->
   startsWithFactor p) /\
  (forall tok p1,
   peek p = Done tok p1 -> startsFactor (Typ tok) = false ->
   exists p2,
     next p = Done tok p2 /\
     factor uq (S (S n)) p =
     Panicked
       (NewContextualError (Name p2) (text p2) (Pos tok)
          "unexpected %s in %s" [ArgItem tok; ArgString "factor"])
       (setRoot None p2) /\
     term uq (S (S (S n))) p =
     Panicked
       (NewContextualError (Name p2) (text p2) (Pos tok)
          "unexpected %s in %s" [ArgItem tok; ArgString "factor"])
       (setRoot None p2) /\
     termList uq (S (S (S (S n)))) p =
     Panicked
       (NewContextualError (Name p2) (text p2) (Pos tok)
          "unexpected %s in %s" [ArgItem tok; ArgString "factor"])
       (setRoot None p2)).
Proof.
  split.
  - intros [(f & p' & H)|[(t & p' & H)|(l & p' & H)]].
    + exact (factor_first n p f p' H).
    + exact (term_first n p t p' H).
    + exact (termList_first n p l p' H).
  - intros tok p1 Hpeek Hsf.
    destruct (factor_unexpected n p p1 tok Hpeek Hsf) as (p2 & Hnext & Hf).
    destruct (term_unexpected n p p1 tok Hpeek Hsf) as (p3 & Hnext3 & Ht).
    destruct (termList_unexpected n p p1 tok Hpeek Hsf) as (p4 & Hnext4 & Hl).
    rewrite Hnext in Hnext3, Hnext4.
    injection Hnext3 as <-. injection Hnext4 as <-.
    exists p2. repeat split; assumption.
Qed.

End Lookahead.

(** ** What the engine leaves alone *)

Section Frame.

Variable uq : string -> string + GoError.

Lemma kept_refl (p : Parser) : kept p p.
Proof. repeat split. Qed.

Lemma kept_trans (p p1 p2 : Parser) : kept p p1 -> kept p1 p2 -> kept p p2.
Proof.
  intros (H1 & H2 & H3) (H4 & H5 & H6). repeat split; congruence.
Qed.

Lemma Keeps_ret {A} (a : A) : Keeps (ret a).
Proof. intros p. split; [apply kept_refl|reflexivity]. Qed.

Lemma Keeps_bind {A B} (m : M A) (k : A -> M B) :
  Keeps m -> (forall a, Keeps (k a)) -> Keeps (bind m k).
Proof.
  intros Hm Hk p. unfold bind. specialize (Hm p).
  destruct (m p) as [a p1|er p1| |]; try exact I; [|exact Hm].
  destruct Hm as [Hkept HR]. specialize (Hk a p1).
  destruct (k a p1) as [b p2|er p2| |]; try exact I.
  - destruct Hk as [Hkept' HR']. split; [|congruence].
    eapply kept_trans; eassumption.
  - destruct Hk as (Hkept' & HR' & HN & HT).
    destruct Hkept as (H1 & H2 & H3).
    split; [eapply kept_trans; [|eassumption]; repeat split; assumption|].
    repeat split; congruence.
Qed.

Lemma Keeps_crash {A} : Keeps (@crash A).
Proof. intros p. exact I. Qed.

Lemma Keeps_outOfFuel {A} : Keeps (@outOfFuel A).
Proof. intros p. exact I. Qed.

Lemma Keeps_errorf {A} pos format args : Keeps (@errorf A pos format args).
Proof. intros [n1 r1 c1 x1 b1 l1 u0 u1 u2 k]. repeat split. Qed.

Lemma Keeps_unexpected {A} tok context : Keeps (@unexpected A tok context).
Proof. apply Keeps_errorf. Qed.

Lemma Keeps_next : Keeps next.
Proof.
  intros [n1 r1 c1 x1 b1 l1 u0 u1 u2 k]. unfold next. cbn [peekCount lex].
  destruct k as [|k].
  - destruct l1 as [l|]; [|exact I]. destruct (NextItem l). repeat split.
  - destruct (tokenAt _ k); [repeat split|exact I].
Qed.

Lemma Keeps_peek : Keeps peek.
Proof.
  intros [n1 r1 c1 x1 b1 l1 u0 u1 u2 k]. unfold peek. cbn [peekCount lex].
  destruct k as [|k].
  - destruct l1 as [l|]; [|exact I]. destruct (NextItem l). repeat split.
  - destruct (tokenAt _ k); [repeat split|exact I].
Qed.

Lemma Keeps_backup : Keeps backup.
Proof. intros [n1 r1 c1 x1 b1 l1 u0 u1 u2 k]. repeat split. Qed.

Lemma Keeps_assignCtx (h : option Context) : Keeps (assignCtx h).
Proof. intros [n1 r1 c1 x1 b1 l1 u0 u1 u2 k]. repeat split. Qed.

Ltac keeps_step :=
  lazymatch goal with
  | |- Keeps (bind _ _) => apply Keeps_bind; [|intros ?]
  | |- Keeps (ret _) => apply Keeps_ret
  | |- Keeps (errorf _ _ _) => apply Keeps_errorf
  | |- Keeps (unexpected _ _) => apply Keeps_unexpected
  | |- Keeps crash => apply Keeps_crash
  | |- Keeps outOfFuel => apply Keeps_outOfFuel
  | |- Keeps next => apply Keeps_next
  | |- Keeps peek => apply Keeps_peek
  | |- Keeps backup => apply Keeps_backup
  | |- Keeps (assignCtx _) => apply Keeps_assignCtx
  | |- Keeps (match ?x with _ => _ end) => destruct x
  | |- Keeps (if ?x then _ else _) => destruct x
  | |- Keeps (let '(_, _) := ?x in _) => destruct x
  | |- _ => assumption
  end.

Ltac keeps_auto := repeat keeps_step.

Lemma Keeps_nextNonSpace (n : nat) : Keeps (nextNonSpace n).
Proof.
  induction n as [|n IH]; [apply Keeps_outOfFuel|].
  rewrite nextNonSpace_S. keeps_auto.
Qed.

Lemma Keeps_peekNonSpace (n : nat) : Keeps (peekNonSpace n).
Proof.
  unfold peekNonSpace. pose proof (Keeps_nextNonSpace n). keeps_auto.
Qed.

Lemma Keeps_factorDollars (n : nat) : forall d, Keeps (factorDollars n d).
Proof.
  induction n as [|n IH]; intros d; [apply Keeps_outOfFuel|].
  rewrite factorDollars_S. pose proof (IH (d + 1)). keeps_auto.
Qed.

Lemma engine_keeps (n : nat) :
  Keeps (termList uq n) /\
  (forall l, Keeps (termListLoop uq n l)) /\
  Keeps (term uq n) /\
  (forall l, Keeps (termLoop uq n l)) /\
  Keeps (factor uq n) /\
  Keeps (table uq n) /\
  (forall t, Keeps (tableLoop uq n t)).
Proof.
  induction n as [|n (IH1 & IH2 & IH3 & IH4 & IH5 & IH6 & IH7)].
  - repeat split; intros; apply Keeps_outOfFuel.
  - pose proof (Keeps_factorDollars n 0) as HD.
    pose proof (Keeps_peekNonSpace n) as HP.
    pose proof (Keeps_nextNonSpace n) as HN.
    repeat split; intros.
    + rewrite termList_S. keeps_auto. apply IH2.
    + rewrite termListLoop_S. keeps_auto. apply IH2.
    + rewrite term_S. keeps_auto. apply IH4.
    + rewrite termLoop_S. keeps_auto; apply IH4.
    + rewrite factor_S. keeps_auto.
    + rewrite table_S. keeps_auto. apply IH7.
    + rewrite tableLoop_S. keeps_auto; apply IH7.
Qed.

Lemma Keeps_redir (n : nat) : Keeps (redir uq n).
Proof.
  unfold redir. pose proof (engine_keeps n) as (_ & _ & Ht & _).
  pose proof (Keeps_peekNonSpace n) as HP.
  keeps_auto.
Qed.

Lemma Keeps_commandLoop (n : nat) : forall rs, Keeps (commandLoop uq n rs).
Proof.
  induction n as [|n IH]; intros rs; [apply Keeps_outOfFuel|].
  rewrite commandLoop_S. pose proof (Keeps_redir n).
  pose proof (Keeps_peekNonSpace n) as HP. keeps_auto. apply IH.
Qed.

Lemma Keeps_command (n : nat) : Keeps (command uq n).
Proof.
  unfold command. pose proof (engine_keeps n) as (Htl & _).
  pose proof (Keeps_commandLoop n []). keeps_auto.
Qed.

Lemma Keeps_pipelineLoop (n : nat) : forall l, Keeps (pipelineLoop uq n l).
Proof.
  induction n as [|n IH]; intros l; [apply Keeps_outOfFuel|].
  rewrite pipelineLoop_S. pose proof (Keeps_command n). keeps_auto. apply IH.
Qed.

Lemma Keeps_pipeline (n : nat) : Keeps (pipeline uq n).
Proof.
  unfold pipeline. pose proof (Keeps_peekNonSpace n) as HP.
  keeps_auto; apply Keeps_pipelineLoop.
Qed.

Variable Lex : string -> string -> Lexer.

(** X2: Whenever [Parse] returns, the receiver has its name, the text and tab
    flag of the call and no lexer; and either it is returned as the tree,
    with a well-formed pipeline as root and no diagnostic, or no tree is
    returned, the root is cleared and the diagnostic carries the name and
    the text. *)
Theorem Parse_one_outcome (n : nat) (p : Parser) (txt : string) (tb : bool)
    (q : Parser) (t : option Parser) (er : option ContextualError) :
  Parse uq Lex n p txt tb = Returned q t er ->
  Name q = Name p /\ text q = txt /\ tab q = tb /\ lex q = None /\
  ((t = Some q /\ er = None /\
    exists root, Root q = Some (AList root) /\
                 wfList pipelineRole root = true) \/
   (t = None /\ Root q = None /\
    exists d, er = Some d /\ errName d = Name p /\ errText d = txt)).
Proof.
  unfold Parse.
  destruct p as [nm r cx x b l t0 t1 t2 k].
  cbv beta iota zeta delta
    [setText setLex setPeekCount Name Root Ctx text tab lex token0 token1
     token2 peekCount].
  pose proof (Keeps_pipeline n
    (mkParser nm r cx txt tb (Some (Lex nm txt)) t0 t1 t2 0)) as HK.
  pose proof (pipeline_wf uq n
    (mkParser nm r cx txt tb (Some (Lex nm txt)) t0 t1 t2 0)) as Hw.
  destruct (pipeline uq n _) as [root p2|d p2| |]; try discriminate.
  - intros H. injection H as <- <- <-.
    destruct HK as ((HN & HT & HB) & _).
    destruct p2 as [n2 r2 c2 x2 b2 l2 v0 v1 v2 k2]. cbn in HN, HT, HB.
    repeat split; try assumption.
    left. repeat split. exists root. split; [reflexivity|exact Hw].
  - intros H. injection H as <- <- <-.
    destruct HK as ((HN & HT & HB) & HR & HeN & HeT).
    destruct p2 as [n2 r2 c2 x2 b2 l2 v0 v1 v2 k2].
    cbn in HN, HT, HB, HR, HeN, HeT.
    repeat split; try assumption.
    right. repeat split; try assumption. exists d. repeat split; assumption.
Qed.

End Frame.

(** ** Dollars, malformed tokens, [expect] *)

Section More.

Variable uq : string -> string + GoError.

Ltac cursor_run :=
  cbv beta iota zeta delta
    [bind ret next peek backup tokenAt NextItem assignCtx
     setPeekCount setLex setToken0 setRoot setCtx
     Name Root Ctx text tab lex token0 token1 token2 peekCount
     pending eofPos];
  cbn [Typ Pos Val End].

(** The loop of [factor] over the dollars that the lexer delivers. *)
Lemma factorDollars_run (ds : list Item) :
  Forall (fun t => Typ t = ItemDollar) ds ->
  forall (t : Item) rest e nm r c tx b t0 t1 t2 (n : nat) (d : Z),
  Typ t <> ItemDollar ->
  factorDollars (length ds + S n) d
    (mkParser nm r c tx b (Some (mkLexer (ds ++ t :: rest) e)) t0 t1 t2 0) =
  Done (d + Z.of_nat (length ds))
    (mkParser nm r c tx b (Some (mkLexer rest e)) t t1 t2 1).
Proof.
  induction 1 as [|x ds Hx _ IH];
    intros t rest e nm r c tx b t0 t1 t2 n d Ht.
  - change (length (@nil Item) + S n)%nat with (S n).
    change (([] ++ t :: rest)%list) with (t :: rest).
    rewrite factorDollars_S. cursor_run.
    replace (d + Z.of_nat (length (@nil Item))) with d by (cbn; lia).
    destruct (Typ t); try reflexivity. congruence.
  - change (length (x :: ds) + S n)%nat with (S (length ds + S n)).
    change (((x :: ds) ++ t :: rest)%list) with (x :: (ds ++ t :: rest)%list).
    rewrite factorDollars_S. cursor_run. rewrite Hx. cursor_run.
    rewrite (IH t rest e nm r c tx b x t1 t2 n (d + 1) Ht).
    f_equal. cbn [length]. lia.
Qed.

(** X9: The dereference depth of a factor is the number of dollars before its
    literal: on [ds], all dollars, followed by a literal [tok], [factor]
    returns the factor at the position of the first token, of depth the
    length of [ds], holding the string of [tok], and leaves the hint of
    [tok]. *)
Theorem factor_counts_dollars (ds : list Item) (tok : Item) (txt : string)
    rest e nm r c tx b t0 t1 t2 :
  Forall (fun t => Typ t = ItemDollar) ds ->
  Typ tok = ItemBare \/ Typ tok = ItemSingleQuoted \/
  Typ tok = ItemDoubleQuoted ->
  unquote uq tok = Some (inl txt) ->
  factor uq (length ds + 3)
    (mkParser nm r c tx b (Some (mkLexer (ds ++ tok :: rest) e)) t0 t1 t2 0) =
  Done
    (mkFactorNode (firstPos (ds ++ tok :: rest) e) (Z.of_nat (length ds))
       (AString (newString (Pos tok) (Val tok) txt)))
    (mkParser nm r (hintOf tok) tx b (Some (mkLexer rest e)) tok t1 t2 0).
Proof.
  intros Hds HT Huq.
  assert (Hnd : Typ tok <> ItemDollar) by (destruct HT as [E|[E|E]]; congruence).
  replace (length ds + 3)%nat with (S (length ds + 2)) by lia.
  rewrite factor_S.
  destruct Hds as [|x ds Hx Hds].
  - change (([] ++ tok :: rest)%list) with (tok :: rest).
    change (length (@nil Item) + 2)%nat with 2%nat.
    rewrite factorDollars_S. cursor_run.
    unfold firstPos, hintOf.
    destruct HT as [E|[E|E]]; rewrite E; cursor_run; rewrite E, Huq;
      cursor_run; reflexivity.
  - change (((x :: ds) ++ tok :: rest)%list)
      with (x :: (ds ++ tok :: rest)%list).
    change (length (x :: ds) + 2)%nat with (S (length ds + 2)).
    rewrite factorDollars_S. cursor_run. rewrite Hx. cursor_run.
    rewrite (factorDollars_run ds Hds tok rest e nm r c tx b x t1 t2 1 (0 + 1)
               Hnd).
    cursor_run. unfold firstPos, hintOf.
    replace (0 + 1 + Z.of_nat (length ds)) with (Z.of_nat (length (x :: ds)))
      by (cbn [length]; lia).
    destruct HT as [E|[E|E]]; rewrite E, Huq; cursor_run; reflexivity.
Qed.

Lemma slice_none (s : string) (lo hi : Z) :
  GoString.slice s lo hi = None <->
  ~ (0 <= lo /\ lo <= hi /\ hi <= GoString.len s).
Proof.
  unfold GoString.slice.
  destruct ((0 <=? lo) && (lo <=? hi) && (hi <=? GoString.len s)) eqn:E.
  - rewrite !andb_true_iff, !Z.leb_le in E. split; [discriminate|].
    intros H. exfalso. apply H. tauto.
  - split; [|reflexivity]. intros _ H.
    rewrite !andb_false_iff, !Z.leb_gt in E. lia.
Qed.

Lemma unquote_none (t : Item) :
  unquote uq t = None <->
  Typ t = ItemSingleQuoted /\ GoString.len (Val t) < 2.
Proof.
  unfold unquote.
  destruct (Typ t) eqn:E;
    try (split; [discriminate|intros [H _]; discriminate]).
  destruct (GoString.slice (Val t) 1 (GoString.len (Val t) - 1)) eqn:Es.
  - split; [discriminate|]. intros [_ H].
    assert (Hn : GoString.slice (Val t) 1 (GoString.len (Val t) - 1) = None)
      by (apply slice_none; lia).
    congruence.
  - split; [|reflexivity]. intros _. split; [reflexivity|].
    apply slice_none in Es. lia.
Qed.

Lemma splitLeader_none (v : string) :
  splitLeader v = None <->
  GoString.IndexRune v "["%char <> -1 /\
  GoString.IndexRune v "["%char = GoString.len v - 1.
Proof.
  unfold splitLeader. cbv zeta.
  pose proof (GoStringFacts.IndexRune_range v "["%char) as Hr.
  destruct (GoString.IndexRune v "[" =? -1) eqn:E; cbn [negb].
  - apply Z.eqb_eq in E. split; [discriminate|]. intros [H _]. contradiction.
  - apply Z.eqb_neq in E.
    destruct (GoStringFacts.slice_some_prefix v (GoString.IndexRune v "["))
      as [d ->]; [lia|].
    destruct (GoString.slice v (GoString.IndexRune v "[" + 1)
                (GoString.len v - 1)) eqn:Es.
    + split; [discriminate|]. intros [_ H].
      assert (Hn : GoString.slice v (GoString.IndexRune v "[" + 1)
                     (GoString.len v - 1) = None)
        by (apply slice_none; lia).
      congruence.
    + split; [|reflexivity]. intros _. split; [exact E|].
      apply slice_none in Es. lia.
Qed.

(** X10: A single-quoted token of fewer than two bytes, and a redirection leader
    whose first bracket is its last byte, are the tokens on which the slice
    expressions of [unquote] and [redir] panic at run time; [factor] and
    [redir] then crash instead of raising a diagnostic. *)
Theorem malformed_tokens_crash :
  (forall t, wellFormedToken t = false <->
     (Typ t = ItemSingleQuoted /\ unquote uq t = None) \/
     (Typ t = ItemRedirLeader /\ splitLeader (Val t) = None)) /\
  (forall t, unquote uq t = None <->
     Typ t = ItemSingleQuoted /\ GoString.len (Val t) < 2) /\
  (forall v, splitLeader v = None <->
     GoString.IndexRune v "["%char <> -1 /\
     GoString.IndexRune v "["%char = GoString.len v - 1) /\
  (forall n p leader p1,
     next p = Done leader p1 -> splitLeader (Val leader) = None ->
     redir uq n p = Crashed) /\
  (forall n p first p0 d p1 token p2,
     peek p = Done first p0 -> factorDollars n 0 p0 = Done d p1 ->
     next p1 = Done token p2 ->
     Typ token = ItemSingleQuoted -> GoString.len (Val token) < 2 ->
     factor uq (S n) p = Crashed).
Proof.
  split; [|split; [exact unquote_none|split; [exact splitLeader_none|split]]].
  - intros t. unfold wellFormedToken.
    destruct (Typ t) eqn:E;
      try (split; [discriminate|intros [[H _]|[H _]]; discriminate]).
    + split.
      * intros H. left. split; [reflexivity|].
        apply unquote_none. split; [exact E|]. apply Z.leb_gt in H. lia.
      * intros [[_ H]|[H _]]; [|discriminate].
        apply unquote_none in H. apply Z.leb_gt. lia.
    + destruct (splitLeader (Val t)).
      * split; [discriminate|]. intros [[H _]|[_ H]]; discriminate.
      * split; [|reflexivity]. intros _. right. split; reflexivity.
  - intros n p leader p1 Hnext Hsplit.
    unfold redir. run_with Hnext. cbv zeta.
    unfold splitLeader in Hsplit. cbv zeta in Hsplit. rewrite Hsplit.
    reflexivity.
  - intros n p first p0 d p1 token p2 Hpeek Hd Hnext HT Hlen.
    rewrite factor_S. run_with Hpeek. run_with Hd. run_with Hnext.
    rewrite HT.
    replace (unquote uq token) with (@None (string + GoError))
      by (symmetry; apply unquote_none; split; assumption).
    reflexivity.
Qed.

Lemma nextNonSpace_no_panic (n : nat) :
  forall p er p', nextNonSpace n p <> Panicked er p'.
Proof.
  induction n as [|n IH]; intros p er p'; [discriminate|].
  rewrite nextNonSpace_S. unfold bind at 1.
  assert (Hnext : forall e q, next p <> Panicked e q).
  { intros e q. unfold next. destruct (peekCount p).
    - destruct (lex p); [destruct (NextItem l)|]; discriminate.
    - destruct (tokenAt p n0); discriminate. }
  destruct (next p) as [tok p0|e q| |] eqn:En; try discriminate.
  - destruct (Typ tok); try discriminate. apply IH.
  - exfalso. exact (Hnext e q eq_refl).
Qed.

Lemma ItemType_beq_eq (a b : ItemType) : ItemType_beq a b = true <-> a = b.
Proof. destruct a, b; split; intros H; try reflexivity; discriminate. Qed.

(** X11: [expect] returns the next token that is not a space when it has the
    required type, and otherwise raises "unexpected ... in" the given
    context at that token; [expectOneOf] does so for two types.  Neither
    ever returns a space. *)
Theorem expect_outcomes (n : nat) (ty ty' : ItemType) (context : string)
    (p : Parser) :
  match nextNonSpace n p with
  | Done t p0 =>
      Typ t <> ItemSpace /\
      expect n ty context p =
        (if ItemType_beq (Typ t) ty then Done t p0
         else raised p0 (Pos t) "unexpected %s in %s"
                [ArgItem t; ArgString context]) /\
      expectOneOf n ty ty' context p =
        (if ItemType_beq (Typ t) ty || ItemType_beq (Typ t) ty'
         then Done t p0
         else raised p0 (Pos t) "unexpected %s in %s"
                [ArgItem t; ArgString context])
  | Panicked _ _ => False
  | Crashed =>
      expect n ty context p = Crashed /\
      expectOneOf n ty ty' context p = Crashed
  | OutOfFuel =>
      expect n ty context p = OutOfFuel /\
      expectOneOf n ty ty' context p = OutOfFuel
  end.
Proof.
  unfold expect, expectOneOf, bind.
  pose proof (nextNonSpace_slot n p) as Hslot.
  pose proof (nextNonSpace_no_panic n p) as Hnp.
  destruct (nextNonSpace n p) as [t p0|er q| |].
  - split; [exact (proj1 (Hslot p0 t eq_refl))|]. split.
    + destruct (ItemType_beq (Typ t) ty); reflexivity.
    + destruct (ItemType_beq (Typ t) ty), (ItemType_beq (Typ t) ty');
        reflexivity.
  - exact (Hnp er q eq_refl).
  - split; reflexivity.
  - split; reflexivity.
Qed.

Lemma commandLoop_stops (n : nat) :
  forall rs p rs' p',
  commandLoop uq n rs p = Done rs' p' ->
  exists tok,
    peek p' = Done tok p' /\ Typ tok <> ItemSpace /\
    Typ tok <> ItemRedirLeader.
Proof.
  induction n as [|n IH]; intros rs p rs' p' H; [discriminate|].
  rewrite commandLoop_S in H. unfold bind at 1 in H.
  destruct (peekNonSpace n p) as [tok p1| | |] eqn:Hp; try discriminate.
  destruct (peekNonSpace_pending n p p1 tok Hp) as (Hns & Hpeek & _).
  destruct (Typ tok) eqn:E;
    try (injection H as <- <-; exists tok; rewrite E;
         repeat split; try assumption; discriminate).
  unfold bind at 1 in H.
  destruct (redir uq n p1) as [r p2| | |]; try discriminate.
  exact (IH _ _ _ _ H).
Qed.

(** X12: a command ends before a token that is neither a space nor a
    redirection leader, and leaves that token to be read: it is the token
    that [pipeline] takes next as separator or end. *)
Theorem command_stops_before_separator (n : nat) (p : Parser)
    (cmd : CommandNode) (p' : Parser) :
  command uq n p = Done cmd p' ->
  exists tok p2,
    peek p' = Done tok p' /\ next p' = Done tok p2 /\
    Typ tok <> ItemSpace /\ Typ tok <> ItemRedirLeader.
Proof.
  unfold command. intros H. unfold bind at 1 in H.
  destruct (peek p) as [first p0| | |]; try discriminate.
  unfold bind at 1 in H.
  destruct (termList uq n p0) as [l p1| | |]; try discriminate.
  unfold bind at 1 in H.
  destruct (commandLoop uq n [] p1) as [rs p2| | |] eqn:Hc; try discriminate.
  injection H as _ <-.
  destruct (commandLoop_stops n [] p1 rs p2 Hc) as (tok & Hpeek & H1 & H2).
  destruct (peek_next_same p2 p2 tok Hpeek) as (_ & _ & p3 & Hnext).
  exists tok, p3. repeat split; assumption.
Qed.

End More.

(** ** Instances on concrete inputs *)

Lemma redir_direction_witness :
  redir rejectUnquote 9
    (startAt [mkItem ItemRedirLeader 0 ">>" 0; mkItem ItemBare 2 "g" 0] 3) =
  Done
    (FilenameRedir 1 1089
       (mkListNode 2
          [AFactor (mkFactorNode 2 0 (AString (mkStringNode 2 "g" "g")))]))
    (mkParser "script" None None "" false (Some (mkLexer [] 3))
       (mkItem ItemEOF 3 "" 0) zeroItem zeroItem 1).
Proof.
  pose proof
    (redir_direction rejectUnquote 9
       (startAt [mkItem ItemRedirLeader 0 ">>" 0; mkItem ItemBare 2 "g" 0] 3)
       _ (mkItem ItemRedirLeader 0 ">>" 0) ">>" ""
       eq_refl eq_refl (or_introl (conj eq_refl eq_refl))) as [_ H].
  vm_compute in H. destruct H as [H _]. exact (H eq_refl).
Defined.

Lemma redir_fd_operations_witness :
  redir rejectUnquote 9
    (startAt [mkItem ItemRedirLeader 0 ">[2=1]" 0] 6) =
  Done (FdRedir 2 1)
    (mkParser "script" None None "" false (Some (mkLexer [] 6))
       (mkItem ItemRedirLeader 0 ">[2=1]" 0) zeroItem zeroItem 0).
Proof.
  apply (proj1 (proj2
    (redir_fd_operations rejectUnquote 9
       (startAt [mkItem ItemRedirLeader 0 ">[2=1]" 0] 6) _
       (mkItem ItemRedirLeader 0 ">[2=1]" 0) eq_refl))).
  reflexivity.
Defined.

Lemma unquote_single_quoted_witness :
  unquote rejectUnquote (mkItem ItemSingleQuoted 0 "`don``t`" 0) =
  Some (inl "don`t").
Proof.
  apply (unquote_single_quoted rejectUnquote
           (mkItem ItemSingleQuoted 0 "`don``t`" 0) "`"%char "`"%char "don``t");
    reflexivity.
Defined.

(** The interior [don] + two delimiters + [t] does not decode to [don't],
    neither with back quotes nor with apostrophes as delimiters. *)
Lemma unquote_single_quoted_counterexample :
  unquote rejectUnquote (mkItem ItemSingleQuoted 0 "`don``t`" 0) <>
    Some (inl "don't") /\
  unquote rejectUnquote (mkItem ItemSingleQuoted 0 "'don''t'" 0) <>
    Some (inl "don't").
Proof. split; vm_compute; discriminate. Qed.

Lemma table_elements_witness :
  exists q',
    Parse rejectUnquote (fixedLex tableSpaced 11) 12 freshParser
      "[a b c = d]" false = Returned q' (Some q') None /\
    Root q' =
    Some (AList
      (oneCommand 0
         [mkListNode 0
            [AFactor
               (mkFactorNode 0 0
                  (ATable
                     (mkTableNode 1
                        [bareTerm (tokBare 1 "a"); bareTerm (tokBare 3 "b")]
                        [(bareTerm (tokBare 5 "c"),
                          bareTerm (tokBare 9 "d"))])))]])).
Proof.
  exact (proj2 (table_elements rejectUnquote (fixedLex tableSpaced 11)
                  0 (newTable 0) freshParser)
           freshParser "[a b c = d]" false 11 12%nat eq_refl (le_n 12)).
Defined.

(** With [=] right after [c], the words [c], [=] and [d] are the factors of
    one list element and the mapping part is empty. *)
Lemma table_elements_counterexample :
  parsedTree
    (Parse rejectUnquote (fixedLex tableTight 9) 20 freshParser
       "[a b c=d]" false) =
  Some (AList
    (oneCommand 0
       [mkListNode 0
          [AFactor
             (mkFactorNode 0 0
                (ATable
                   (mkTableNode 1
                      [bareTerm (tokBare 1 "a"); bareTerm (tokBare 3 "b");
                       mkListNode 5
                         [bareFactor (tokBare 5 "c");
                          bareFactor (tokBare 6 "=");
                          bareFactor (tokBare 7 "d")]]
                      [])))]])).
Proof. vm_compute. reflexivity. Qed.

Lemma term_joins_as_siblings_witness :
  termLoop rejectUnquote 6 (newList 0) (startAt [tokBare 0 "b"] 1) =
  (f <- factor rejectUnquote 5 ;;
   termLoop rejectUnquote 5 (append (newList 0) (AFactor f)))
    (mkParser "script" None None "" false (Some (mkLexer [] 1))
       (tokBare 0 "b") zeroItem zeroItem 1).
Proof.
  exact (proj1 (term_joins_as_siblings rejectUnquote 5 (newList 0)
                  (startAt [tokBare 0 "b"] 1) _ (tokBare 0 "b") eq_refl)
           eq_refl).
Defined.

(** [(a)^$b] and [(a )$b] give the same tree: the caret leaves no trace. *)
Lemma term_joins_as_siblings_counterexample :
  parsedTree
    (Parse rejectUnquote (fixedLex groupCaret 6) 20 freshParser
       "(a)^$b" false) =
  parsedTree
    (Parse rejectUnquote (fixedLex groupJuxtaposed 6) 20 freshParser
       "(a )$b" false) /\
  parsedTree
    (Parse rejectUnquote (fixedLex groupCaret 6) 20 freshParser
       "(a)^$b" false) =
  Some (AList
    (oneCommand 0
       [mkListNode 0
          [AFactor
             (mkFactorNode 0 0
                (AList (mkListNode 1 [AList (bareTerm (tokBare 1 "a"))])));
           AFactor (mkFactorNode 4 1 (AString (mkStringNode 5 "b" "b")))]])).
Proof. split; vm_compute; reflexivity. Qed.

Lemma juxtaposition_needs_adjacency_witness :
  exists q',
    Parse rejectUnquote
      (fixedLex [tokBare 0 "a"; tokSpace 1; tokBare 2 "b"] 3) 9 freshParser
      "a b" false = Returned q' (Some q') None /\
    Root q' =
    Some (AList (oneCommand 0 [bareTerm (tokBare 0 "a");
                               bareTerm (tokBare 2 "b")])).
Proof.
  exact (proj1 (proj2 (juxtaposition_needs_adjacency rejectUnquote
                  (fixedLex [tokBare 0 "a"; tokSpace 1; tokBare 2 "b"] 3)
                  0 (newList 0) freshParser))
           (tokBare 0 "a") (tokSpace 1) (tokBare 2 "b")
           freshParser "a b" false 3 9%nat
           eq_refl eq_refl eq_refl eq_refl (le_n 9)).
Defined.

Lemma parsed_lists_nonempty_witness :
  exists q,
    Parse rejectUnquote (fixedLex [tokSpace 0; tokSpace 1] 2) 4 freshParser
      "  " false = Returned q (Some q) None /\
    Root q = Some (AList (mkListNode 0 [])).
Proof.
  apply (proj2 (parsed_lists_nonempty rejectUnquote
                  (fixedLex [tokSpace 0; tokSpace 1] 2) freshParser "  " false)
           [tokSpace 0; tokSpace 1] [] 2 4%nat).
  - reflexivity.
  - repeat constructor.
  - left. reflexivity.
  - simpl. lia.
Defined.

Lemma parse_deterministic_witness :
  sameOutcome
    (Parse rejectUnquote
       (fixedLex [tokBare 0 "a"; tokSpace 1; tokBare 2 "b"] 3) 9 freshParser
       "a b" false)
    (Parse rejectUnquote
       (fixedLex [tokBare 0 "a"; tokSpace 1; tokBare 2 "b"] 3) 12 usedParser
       "a b" false).
Proof.
  apply parse_deterministic.
  - reflexivity.
  - vm_compute. discriminate.
  - vm_compute. discriminate.
Defined.

(** The quoted word is accepted and leaves its raw text as hint; in
    [[k = []]] the last token accepted is [k], not the bare [=] that is
    read after it, and the receiver is left with the hint of [k]; on the
    empty text no token is accepted and the receiver keeps its old hint. *)
Lemma hint_from_last_token_witness :
  (exists f p',
     factor rejectUnquote 3 (startAt [quotedWord] 4) = Done f p' /\
     Ctx p' = Some (NewArgContext "`ab`") /\
     Traced.factor rejectUnquote 3 (startAt [quotedWord] 4) [] =
       (Done f p', [quotedWord])) /\
  (accepted rejectUnquote (fixedLex tableEmptyValue 8) 20 usedParser
     "[k = []]" false = [keyWord] /\
   finalHint (Parse rejectUnquote (fixedLex tableEmptyValue 8) 20 usedParser
                "[k = []]" false) = Some (Some (NewArgContext "k"))) /\
  (accepted rejectUnquote (fixedLex [] 0) 20 usedParser "" false = [] /\
   finalHint (Parse rejectUnquote (fixedLex [] 0) 20 usedParser "" false) =
     Some (Some (NewArgContext "old"))).
Proof.
  split; [|split].
  - exact (proj1 (hint_from_last_token rejectUnquote (fixedLex [] 0))
             2%nat (startAt [quotedWord] 4) _ _ _ quotedWord quotedWord 0 "ab"
             eq_refl eq_refl eq_refl (or_intror (or_introl eq_refl)) eq_refl).
  - assert (Ha : accepted rejectUnquote (fixedLex tableEmptyValue 8) 20
                   usedParser "[k = []]" false = [keyWord])
      by (vm_compute; reflexivity).
    assert (Hp : exists q,
      Parse rejectUnquote (fixedLex tableEmptyValue 8) 20 usedParser
        "[k = []]" false = Returned q (Some q) None)
      by (eexists; vm_compute; reflexivity).
    destruct Hp as [q E].
    destruct (proj1 (proj2 (hint_from_last_token rejectUnquote
                              (fixedLex tableEmptyValue 8)))
                20%nat usedParser "[k = []]" false) as (_ & _ & H).
    specialize (H q (Some q) None E). rewrite Ha in H. cbn [rev app] in H.
    split; [exact Ha|]. rewrite E. cbn [finalHint]. rewrite H. reflexivity.
  - assert (Ha : accepted rejectUnquote (fixedLex [] 0) 20 usedParser
                   "" false = [])
      by (vm_compute; reflexivity).
    assert (Hp : exists q,
      Parse rejectUnquote (fixedLex [] 0) 20 usedParser "" false =
      Returned q (Some q) None)
      by (eexists; vm_compute; reflexivity).
    destruct Hp as [q E].
    destruct (proj1 (proj2 (hint_from_last_token rejectUnquote
                              (fixedLex [] 0)))
                20%nat usedParser "" false) as (_ & _ & H).
    specialize (H q (Some q) None E). rewrite Ha in H. cbn [rev] in H.
    split; [exact Ha|]. rewrite E. cbn [finalHint]. rewrite H. reflexivity.
Defined.

(** The quoted and the bare word decode to the same text and leave
    different hints: the hint is made from the raw text. *)
Lemma hint_from_last_token_counterexample :
  unquote rejectUnquote quotedWord = Some (inl "ab") /\
  unquote rejectUnquote bareWord = Some (inl "ab") /\
  option_map Ctx (finalState (factor rejectUnquote 3 (startAt [quotedWord] 4)))
    = Some (Some (NewArgContext "`ab`")) /\
  option_map Ctx (finalState (factor rejectUnquote 3 (startAt [bareWord] 2)))
    = Some (Some (NewArgContext "ab")).
Proof. repeat split. Qed.

Lemma peek_then_next_witness :
  peek (midParse [] 1 (tokBare 0 "a") 1) =
    Done (tokBare 0 "a") (midParse [] 1 (tokBare 0 "a") 1) /\
  next (midParse [] 1 (tokBare 0 "a") 1) = next (startAt [tokBare 0 "a"] 1) /\
  exists p2, next (startAt [tokBare 0 "a"] 1) = Done (tokBare 0 "a") p2.
Proof.
  exact (peek_then_next (startAt [tokBare 0 "a"] 1)
           (midParse [] 1 (tokBare 0 "a") 1) (tokBare 0 "a") eq_refl).
Defined.

Lemma next_backup_next_witness :
  (backup ;;; next) (midParse [] 1 (tokBare 0 "a") 0) =
    Done (tokBare 0 "a") (midParse [] 1 (tokBare 0 "a") 0) /\
  exists p',
    backup (midParse [] 1 (tokBare 0 "a") 0) = Done tt p' /\
    peek p' = Done (tokBare 0 "a") p' /\
    (backup ;;; peek) (midParse [] 1 (tokBare 0 "a") 0) =
      Done (tokBare 0 "a") p' /\
    next p' = Done (tokBare 0 "a") (midParse [] 1 (tokBare 0 "a") 0).
Proof.
  exact (next_backup_next (startAt [tokBare 0 "a"] 1)
           (midParse [] 1 (tokBare 0 "a") 0) (tokBare 0 "a") eq_refl).
Defined.

Lemma backup2_replays_witness :
  (backup2 (tokBare 0 "a") ;;; x <- next ;; y <- next ;; ret (x, y))
    (midParse [] 3 (tokBare 2 "b") 0) =
  Done (tokBare 0 "a", tokBare 2 "b")
       (setToken1 (tokBare 0 "a") (midParse [] 3 (tokBare 2 "b") 0)).
Proof.
  exact (backup2_replays (midParse [tokBare 2 "b"] 3 (tokBare 0 "a") 0)
           (midParse [] 3 (tokBare 2 "b") 0) (tokBare 0 "a") (tokBare 2 "b")
           eq_refl eq_refl).
Defined.

Lemma backup3_replays_witness :
  (backup3 (tokBare 0 "a") (tokBare 2 "b") ;;;
   x <- next ;; y <- next ;; z <- next ;; ret (x, y, z))
    (midParse [] 5 (tokBare 4 "d") 0) =
  Done (tokBare 0 "a", tokBare 2 "b", tokBare 4 "d")
       (setToken2 (tokBare 0 "a")
          (setToken1 (tokBare 2 "b") (midParse [] 5 (tokBare 4 "d") 0))).
Proof.
  exact (backup3_replays (midParse [tokBare 4 "d"] 5 (tokBare 2 "b") 0)
           (midParse [] 5 (tokBare 4 "d") 0)
           (tokBare 0 "a") (tokBare 2 "b") (tokBare 4 "d") eq_refl eq_refl).
Defined.

Lemma peekNonSpace_leaves_token_witness :
  Typ (tokBare 1 "a") <> ItemSpace /\
  peek (midParse [] 2 (tokBare 1 "a") 1) =
    Done (tokBare 1 "a") (midParse [] 2 (tokBare 1 "a") 1) /\
  exists p0,
    nextNonSpace 3 (startAt [tokSpace 0; tokBare 1 "a"] 2) =
      Done (tokBare 1 "a") p0 /\
    next (midParse [] 2 (tokBare 1 "a") 1) = Done (tokBare 1 "a") p0.
Proof.
  exact (peekNonSpace_leaves_token 3 (startAt [tokSpace 0; tokBare 1 "a"] 2)
           (midParse [] 2 (tokBare 1 "a") 1) (tokBare 1 "a") eq_refl).
Defined.

Lemma startsFactor_agrees_witness :
  exists p2,
    next (startAt [tokPunct ItemRParen 0 ")"] 1) =
      Done (tokPunct ItemRParen 0 ")") p2 /\
    factor rejectUnquote 2 (startAt [tokPunct ItemRParen 0 ")"] 1) =
    Panicked
      (NewContextualError (Name p2) (text p2) 0 "unexpected %s in %s"
         [ArgItem (tokPunct ItemRParen 0 ")"); ArgString "factor"])
      (setRoot None p2) /\
    term rejectUnquote 3 (startAt [tokPunct ItemRParen 0 ")"] 1) =
    Panicked
      (NewContextualError (Name p2) (text p2) 0 "unexpected %s in %s"
         [ArgItem (tokPunct ItemRParen 0 ")"); ArgString "factor"])
      (setRoot None p2) /\
    termList rejectUnquote 4 (startAt [tokPunct ItemRParen 0 ")"] 1) =
    Panicked
      (NewContextualError (Name p2) (text p2) 0 "unexpected %s in %s"
         [ArgItem (tokPunct ItemRParen 0 ")"); ArgString "factor"])
      (setRoot None p2).
Proof.
  exact (proj2 (startsFactor_agrees rejectUnquote 0
                  (startAt [tokPunct ItemRParen 0 ")"] 1))
           (tokPunct ItemRParen 0 ")")
           (midParse [] 1 (tokPunct ItemRParen 0 ")") 1) eq_refl eq_refl).
Defined.

Lemma Parse_one_outcome_witness :
  exists q,
    Parse rejectUnquote (fixedLex groupJuxtaposed 6) 20 usedParser
      "(a )$b" true = Returned q (Some q) None /\
    Name q = "script" /\ text q = "(a )$b" /\ tab q = true /\ lex q = None.
Proof.
  assert (H : exists q,
    Parse rejectUnquote (fixedLex groupJuxtaposed 6) 20 usedParser
      "(a )$b" true = Returned q (Some q) None)
    by (eexists; vm_compute; reflexivity).
  destruct H as [q E]. exists q. split; [exact E|].
  destruct (Parse_one_outcome rejectUnquote (fixedLex groupJuxtaposed 6) 20
              usedParser "(a )$b" true q (Some q) None E)
    as (H1 & H2 & H3 & H4 & _).
  exact (conj H1 (conj H2 (conj H3 H4))).
Defined.

Lemma Parse_returns_witness :
  (exists q root,
     Parse rejectUnquote (fixedLex tableSpaced 11) 49 freshParser
       "[a b c = d]" false = Returned q (Some q) None /\
     Root q = Some (AList root) /\ wfList pipelineRole root = true /\
     Name q = "script" /\ text q = "[a b c = d]" /\ lex q = None) \/
  (exists q er t,
     Parse rejectUnquote (fixedLex tableSpaced 11) 49 freshParser
       "[a b c = d]" false = Returned q None (Some er) /\
     Root q = None /\ Name q = "script" /\ text q = "[a b c = d]" /\
     lex q = None /\
     errName er = "script" /\ errText er = "[a b c = d]" /\
     errPos er = Pos t /\
     (In t tableSpaced \/ t = mkItem ItemEOF 11 "" 0)).
Proof.
  apply (Parse_returns rejectUnquote (fixedLex tableSpaced 11) freshParser
           "[a b c = d]" false 49).
  - reflexivity.
  - simpl. lia.
Defined.

Lemma factor_counts_dollars_witness :
  factor rejectUnquote 5
    (startAt [tokPunct ItemDollar 0 "$"; tokPunct ItemDollar 1 "$";
              tokBare 2 "x"] 3) =
  Done (mkFactorNode 0 2 (AString (newString 2 "x" "x")))
       (midParse [] 3 (tokBare 2 "x") 0).
Proof.
  apply (factor_counts_dollars rejectUnquote
           [tokPunct ItemDollar 0 "$"; tokPunct ItemDollar 1 "$"]
           (tokBare 2 "x") "x" [] 3 "script" None None "" false
           zeroItem zeroItem zeroItem).
  - repeat constructor.
  - left. reflexivity.
  - reflexivity.
Defined.

Lemma malformed_tokens_crash_witness :
  redir rejectUnquote 4 (startAt [tokPunct ItemRedirLeader 0 ">["] 2) =
  Crashed.
Proof.
  exact (proj1 (proj2 (proj2 (proj2 (malformed_tokens_crash rejectUnquote))))
           4%nat (startAt [tokPunct ItemRedirLeader 0 ">["] 2)
           (tokPunct ItemRedirLeader 0 ">[")
           (midParse [] 2 (tokPunct ItemRedirLeader 0 ">[") 0)
           eq_refl eq_refl).
Defined.

Lemma command_stops_before_separator_witness :
  exists tok p2,
    peek (midParse [tokBare 2 "b"] 3 (tokPunct ItemPipe 1 "|") 1) =
      Done tok (midParse [tokBare 2 "b"] 3 (tokPunct ItemPipe 1 "|") 1) /\
    next (midParse [tokBare 2 "b"] 3 (tokPunct ItemPipe 1 "|") 1) =
      Done tok p2 /\
    Typ tok <> ItemSpace /\ Typ tok <> ItemRedirLeader.
Proof.
  exact (command_stops_before_separator rejectUnquote 8
           (startAt [tokBare 0 "a"; tokPunct ItemPipe 1 "|"; tokBare 2 "b"] 3)
           (mkCommandNode 0 (mkListNode 0 [AList (bareTerm (tokBare 0 "a"))]) [])
           (midParse [tokBare 2 "b"] 3 (tokPunct ItemPipe 1 "|") 1)
           eq_refl).
Defined.
